(** * wolgate: the Wake-on-LAN package [wol]

    A shallow embedding of [wol.go] (package [wol] of hzhq1255/wolgate):
    MAC address parsing and normalisation, magic packet construction and
    the UDP broadcast sender, followed by the properties of the
    specification that concern them.

    Conventions.
    - A Go [byte] is an [ascii] (eight bits); a Go [string] and a Go
      [[]byte] are both [list ascii], as in Go, where a string is an
      immutable byte sequence.  [str] turns a literal into such a list.
    - Go's [int] is a 64-bit integer, written as a [Z] with the
      wrap-around made explicit ([wrap64]).
    - A Go function returning [(T, error)] returns a sum [error + T]; a
      function returning only [error] returns [option error], [None]
      being Go's [nil].
    - The operating system (interfaces, sockets, the clock) is an oracle
      that answers each call from the history of calls made so far; the
      sender runs in a state monad over that history. *)

From Stdlib Require Import Ascii String.
From Stdlib Require Import List ZArith NArith Lia Bool Arith Btauto.
Import ListNotations.

Local Open Scope list_scope.

(** ** Bytes, strings and slices *)

Abbreviation byte := ascii (only parsing).

Definition gostring : Set := list ascii.

Definition str (s : string) : gostring := list_ascii_of_string s.

(** The numeric value of a byte, and the byte of a value below 256. *)
Definition byte_val (c : byte) : Z := Z.of_N (N_of_ascii c).
Definition byte_of (z : Z) : byte := ascii_of_N (Z.to_N (z mod 256)).

Definition xFF : byte := byte_of 255.
Definition x00 : byte := byte_of 0.

(** [make([]byte, n)]: a zeroed slice of length [n]. *)
Definition make (n : nat) : list byte := repeat x00 n.

(** [s[i] = v].  In Go an index outside [0 <= i < len(s)] panics; every
    use below has a constant index inside the buffer, so the update is
    written as a total function that leaves the slice alone there. *)
Fixpoint store {A} (s : list A) (i : nat) (v : A) : list A :=
  match s, i with
  | [], _ => []
  | _ :: t, O => v :: t
  | h :: t, S j => h :: store t j v
  end.

(** The builtin [copy(dst, src)]: copies [min(len(dst), len(src))]
    elements into the front of [dst] and leaves the rest of [dst]. *)
Fixpoint copy {A} (dst src : list A) : list A :=
  match dst, src with
  | _ :: dt, x :: st => x :: copy dt st
  | _, _ => dst
  end.

(** [copy(dst[off:], src)], seen from [dst]: the slice [dst[off:]]
    shares its backing array with [dst], so the copy lands at [off]. *)
Definition copy_at {A} (dst : list A) (off : nat) (src : list A) : list A :=
  firstn off dst ++ copy (skipn off dst) src.

(** [for i := lo; i < lo+n; i++ { s = body i s }] with constant bounds. *)
Definition for_range {S} (lo n : nat) (body : nat -> S -> S) (s : S) : S :=
  fold_left (fun acc i => body i acc) (seq lo n) s.

(** [s[i]] with the zero byte as the value of an index that is guarded
    by a length test at every use. *)
Definition at_ (s : list byte) (i : nat) : byte := nth i s x00.

Definition byte_eqb (a b : byte) : bool := Ascii.eqb a b.

(** ** Package [unicode/utf8] *)

Module utf8.

Local Open Scope Z_scope.

Definition RuneError : Z := 65533.   (* U+FFFD *)
Definition RuneSelf : Z := 128.
Definition MaxRune : Z := 1114111.   (* U+10FFFF *)
Definition UTFMax : nat := 4.

Definition locb : Z := 128.  (* 1000 0000 *)
Definition hicb : Z := 191.  (* 1011 1111 *)

(** The table [first] with [acceptRanges]: for a leading byte, the size
    of its sequence and the range accepted for the second byte; [None]
    for a byte that starts no multi-byte sequence. *)
Definition first (b : Z) : option (nat * (Z * Z)) :=
  if (194 <=? b) && (b <=? 223) then Some (2%nat, (locb, hicb))       (* C2..DF *)
  else if b =? 224 then Some (3%nat, (160, hicb))                     (* E0 *)
  else if (225 <=? b) && (b <=? 236) then Some (3%nat, (locb, hicb))  (* E1..EC *)
  else if b =? 237 then Some (3%nat, (locb, 159))                     (* ED *)
  else if (238 <=? b) && (b <=? 239) then Some (3%nat, (locb, hicb))  (* EE..EF *)
  else if b =? 240 then Some (4%nat, (144, hicb))                     (* F0 *)
  else if (241 <=? b) && (b <=? 243) then Some (4%nat, (locb, hicb))  (* F1..F3 *)
  else if b =? 244 then Some (4%nat, (locb, 143))                     (* F4 *)
  else None.

Definition cont (b : Z) : bool := (locb <=? b) && (b <=? hicb).

(** [DecodeRuneInString(s)]: the first rune of [s] and its width in
    bytes; [(RuneError, 0)] for the empty string and [(RuneError, 1)]
    for an encoding that is not valid UTF-8. *)
Definition DecodeRuneInString (s : gostring) : Z * nat :=
  match s with
  | [] => (RuneError, 0%nat)
  | c0 :: t =>
    let s0 := byte_val c0 in
    if s0 <? RuneSelf then (s0, 1%nat) else
    match first s0 with
    | None => (RuneError, 1%nat)
    | Some (sz, (lo, hi)) =>
      if (length s <? sz)%nat then (RuneError, 1%nat) else
      let s1 := byte_val (at_ s 1) in
      if (s1 <? lo) || (hi <? s1) then (RuneError, 1%nat) else
      if (sz <=? 2)%nat then
        (Z.lor (Z.shiftl (Z.land s0 31) 6) (Z.land s1 63), 2%nat) else
      let s2 := byte_val (at_ s 2) in
      if negb (cont s2) then (RuneError, 1%nat) else
      if (sz <=? 3)%nat then
        (Z.lor (Z.lor (Z.shiftl (Z.land s0 15) 12) (Z.shiftl (Z.land s1 63) 6))
               (Z.land s2 63), 3%nat) else
      let s3 := byte_val (at_ s 3) in
      if negb (cont s3) then (RuneError, 1%nat) else
      (Z.lor (Z.lor (Z.lor (Z.shiftl (Z.land s0 7) 18) (Z.shiftl (Z.land s1 63) 12))
                    (Z.shiftl (Z.land s2 63) 6))
             (Z.land s3 63), 4%nat)
    end
  end.

(** [RuneStart(b)]: [b] is not a continuation byte. *)
Definition RuneStart (b : byte) : bool := negb (Z.land (byte_val b) 192 =? 128).

(** The backward search of [DecodeLastRuneInString]:
    [for start--; start >= lim; start-- { if RuneStart(s[start]) { break } }],
    entered after the decrement, as the value of [start] on exit. *)
Fixpoint back_to_start (fuel : nat) (s : gostring) (start lim : Z) : Z :=
  match fuel with
  | O => start
  | S fuel' =>
    if start >=? lim then
      if RuneStart (at_ s (Z.to_nat start)) then start
      else back_to_start fuel' s (start - 1) lim
    else start
  end.

(** [DecodeLastRuneInString(s)]: the last rune of [s] and its width. *)
Definition DecodeLastRuneInString (s : gostring) : Z * nat :=
  let end_ := Z.of_nat (length s) in
  if end_ =? 0 then (RuneError, 0%nat) else
  let start := end_ - 1 in
  let r := byte_val (at_ s (Z.to_nat start)) in
  if r <? RuneSelf then (r, 1%nat) else
  let lim := end_ - Z.of_nat UTFMax in
  let lim := if lim <? 0 then 0 else lim in
  let start := back_to_start (S UTFMax) s (start - 1) lim in
  let start := if start <? 0 then 0 else start in
  let '(r, size) := DecodeRuneInString (skipn (Z.to_nat start) s) in
  if negb (start + Z.of_nat size =? end_) then (RuneError, 1%nat) else (r, size).

(** [AppendRune(nil, r)], which is what the conversion [string(r)] of a
    rune yields: the UTF-8 encoding of [r], and that of [RuneError] for a
    surrogate or a value outside the Unicode range. *)
Definition EncodeRune (r : Z) : gostring :=
  let three r :=
    [byte_of (Z.lor 224 (Z.shiftr r 12));
     byte_of (Z.lor 128 (Z.land (Z.shiftr r 6) 63));
     byte_of (Z.lor 128 (Z.land r 63))] in
  if (0 <=? r) && (r <=? 127) then [byte_of r]
  else if (0 <=? r) && (r <=? 2047) then
    [byte_of (Z.lor 192 (Z.shiftr r 6)); byte_of (Z.lor 128 (Z.land r 63))]
  else if (r <? 0) || (MaxRune <? r) || ((55296 <=? r) && (r <=? 57343)) then
    three RuneError
  else if r <=? 65535 then three r
  else
    [byte_of (Z.lor 240 (Z.shiftr r 18));
     byte_of (Z.lor 128 (Z.land (Z.shiftr r 12) 63));
     byte_of (Z.lor 128 (Z.land (Z.shiftr r 6) 63));
     byte_of (Z.lor 128 (Z.land r 63))].

(** [for i, r := range s]: the pairs of a byte offset and the rune that
    starts there, in order.  [skip] counts the bytes of the current rune
    that are still to be passed over. *)
Fixpoint range_from (s : gostring) (i : Z) (skip : nat) : list (Z * Z) :=
  match s with
  | [] => []
  | _ :: t =>
    match skip with
    | S k => range_from t (i + 1) k
    | O =>
      let '(r, size) := DecodeRuneInString s in
      (i, r) :: range_from t (i + 1) (size - 1)
    end
  end.

Definition range (s : gostring) : list (Z * Z) := range_from s 0 0.

End utf8.

(** ** Package [unicode] *)

Module unicode.

Local Open Scope Z_scope.

(** [IsSpace(r)]: the Latin-1 spaces, then the table [White_Space]. *)
Definition IsSpace (r : Z) : bool :=
  if (0 <=? r) && (r <=? 255) then
    (r =? 9) || (r =? 10) || (r =? 11) || (r =? 12) || (r =? 13) ||
    (r =? 32) || (r =? 133) || (r =? 160)
  else
    (r =? 5760) ||                          (* U+1680 *)
    ((8192 <=? r) && (r <=? 8202)) ||       (* U+2000..U+200A *)
    (r =? 8232) || (r =? 8233) ||           (* U+2028, U+2029 *)
    (r =? 8239) || (r =? 8287) ||           (* U+202F, U+205F *)
    (r =? 12288).                           (* U+3000 *)

End unicode.

(** ** Package [strings] *)

Module strings.

Local Open Scope Z_scope.

(** The table [asciiSpace]: tab, line feed, vertical tab, form feed,
    carriage return and space. *)
Definition asciiSpace (c : byte) : bool :=
  let v := byte_val c in
  (v =? 9) || (v =? 10) || (v =? 11) || (v =? 12) || (v =? 13) || (v =? 32).

(** [indexFunc(s, f, truth)]: the offset of the first rune [r] of [s]
    with [f(r) == truth], or [-1]. *)
Definition indexFunc (s : gostring) (f : Z -> bool) (truth : bool) : Z :=
  match find (fun ir => Bool.eqb (f (snd ir)) truth) (utf8.range s) with
  | Some (i, _) => i
  | None => -1
  end.

(** The loop of [lastIndexFunc]:
    [for i := len(s); i > 0; { r, size := DecodeLastRuneInString(s[0:i]);
       i -= size; if f(r) == truth { return i } }; return -1].
    Each turn lowers [i] by at least one, so [len(s)] turns are enough and
    the loop is left through its test. *)
Fixpoint lastIndexFunc_loop (fuel : nat) (s : gostring) (f : Z -> bool)
    (truth : bool) (i : Z) : Z :=
  match fuel with
  | O => -1
  | S fuel' =>
    if i >? 0 then
      let '(r, size) := utf8.DecodeLastRuneInString (firstn (Z.to_nat i) s) in
      let i := i - Z.of_nat size in
      if Bool.eqb (f r) truth then i
      else lastIndexFunc_loop fuel' s f truth i
    else -1
  end.

Definition lastIndexFunc (s : gostring) (f : Z -> bool) (truth : bool) : Z :=
  lastIndexFunc_loop (length s) s f truth (Z.of_nat (length s)).

Definition TrimLeftFunc (s : gostring) (f : Z -> bool) : gostring :=
  let i := indexFunc s f false in
  if i =? -1 then [] else skipn (Z.to_nat i) s.

Definition TrimRightFunc (s : gostring) (f : Z -> bool) : gostring :=
  let i := lastIndexFunc s f false in
  let i :=
    if (i >=? 0) && (byte_val (at_ s (Z.to_nat i)) >=? utf8.RuneSelf) then
      i + Z.of_nat (snd (utf8.DecodeRuneInString (skipn (Z.to_nat i) s)))
    else i + 1 in
  firstn (Z.to_nat i) s.

Definition TrimFunc (s : gostring) (f : Z -> bool) : gostring :=
  TrimRightFunc (TrimLeftFunc s f) f.

(** The first loop of [TrimSpace], over [s[start:]]: [inl] is the value
    returned from inside the loop at a non-ASCII byte, [inr] is
    [s[start:]] when the loop is left. *)
Fixpoint TrimSpace_start (s : gostring) : gostring + gostring :=
  match s with
  | [] => inr []
  | c :: t =>
    if byte_val c >=? utf8.RuneSelf then inl (TrimFunc s unicode.IsSpace)
    else if asciiSpace c then TrimSpace_start t
    else inr s
  end.

(** The second loop of [TrimSpace], over [s[start:stop]] read from its
    end ([r] is that slice reversed). *)
Fixpoint TrimSpace_stop (r : gostring) : gostring :=
  match r with
  | [] => []
  | c :: t =>
    if byte_val c >=? utf8.RuneSelf then TrimRightFunc (rev r) unicode.IsSpace
    else if asciiSpace c then TrimSpace_stop t
    else rev r
  end.

(** [TrimSpace(s)]: [s] without its leading and trailing white space, as
    Unicode defines it. *)
Definition TrimSpace (s : gostring) : gostring :=
  match TrimSpace_start s with
  | inl r => r
  | inr rest => TrimSpace_stop (rev rest)
  end.

Fixpoint HasPrefix (s prefix : gostring) : bool :=
  match prefix, s with
  | [], _ => true
  | p :: pt, c :: t => byte_eqb p c && HasPrefix t pt
  | _ :: _, [] => false
  end.

(** [Contains(s, substr)]: [substr] occurs in [s]. *)
Fixpoint Contains (s substr : gostring) : bool :=
  HasPrefix s substr ||
  match s with
  | [] => false
  | _ :: t => Contains t substr
  end.

(** [ReplaceAll(s, old, new)] for a non-empty [old]: the occurrences of
    [old], found from the left and not overlapping, become [new].
    [skip] counts the bytes of a matched [old] still to be dropped. *)
Fixpoint replace_from (s old new : gostring) (skip : nat) : gostring :=
  match s with
  | [] => []
  | c :: t =>
    match skip with
    | S k => replace_from t old new k
    | O =>
      if HasPrefix s old then new ++ replace_from t old new (length old - 1)
      else c :: replace_from t old new 0
    end
  end.

(** [ReplaceAll(s, "", new)] up to the end of [s]: [new] in front of
    every rune, the bytes of [s] copied as they are, also where they are
    no valid encoding.  [skip] counts the bytes of the current rune that
    are still to be copied. *)
Fixpoint before_runes (s new : gostring) (skip : nat) : gostring :=
  match s with
  | [] => []
  | c :: t =>
    match skip with
    | S k => c :: before_runes t new k
    | O =>
      let '(_, size) := utf8.DecodeRuneInString s in
      new ++ c :: before_runes t new (size - 1)
    end
  end.

(** With an empty [old], [new] goes in front of every rune and at the
    end of the string. *)
Definition ReplaceAll (s old new : gostring) : gostring :=
  match old with
  | [] => before_runes s new 0 ++ new
  | _ :: _ => replace_from s old new 0
  end.

(** [Join(elems, sep)]. *)
Fixpoint Join (elems : list gostring) (sep : gostring) : gostring :=
  match elems with
  | [] => []
  | [e] => e
  | e :: rest => e ++ sep ++ Join rest sep
  end.

End strings.

(** ** Package [regexp], as far as [macRegex] needs it *)

Module regexp.

(** The syntax that occurs in the pattern: a character class given by
    its ranges, a literal, concatenation, the counted repetition [r{n}]
    and the two text anchors.  The characters of every class and literal
    below are ASCII, and Go matches runes: a byte from [0x80] on belongs
    to a rune that no such class or literal contains, which is what
    matching byte by byte gives as well. *)
Inductive Regexp : Set :=
| Class (ranges : list (byte * byte))
| Lit (c : byte)
| Cat (r1 r2 : Regexp)
| Repeat (n : nat) (r : Regexp)
| BeginText
| EndText.

Definition in_range (c : byte) (lohi : byte * byte) : bool :=
  (byte_val (fst lohi) <=? byte_val c)%Z && (byte_val c <=? byte_val (snd lohi))%Z.

(** [match_here r bot s k]: [r] matches a prefix of [s] and [k] accepts
    what follows; [bot] tells whether [s] starts at the beginning of the
    text. *)
Fixpoint match_here (r : Regexp) (bot : bool) (s : gostring)
    (k : bool -> gostring -> bool) {struct r} : bool :=
  match r with
  | Class ranges =>
    match s with
    | c :: t => existsb (in_range c) ranges && k false t
    | [] => false
    end
  | Lit c0 =>
    match s with
    | c :: t => byte_eqb c0 c && k false t
    | [] => false
    end
  | Cat r1 r2 => match_here r1 bot s (fun bot' s' => match_here r2 bot' s' k)
  | Repeat n r1 =>
    (fix rep (n : nat) (bot : bool) (s : gostring) {struct n} : bool :=
       match n with
       | O => k bot s
       | S n' => match_here r1 bot s (rep n')
       end) n bot s
  | BeginText => bot && k bot s
  | EndText => match s with [] => k bot s | _ :: _ => false end
  end.

(** The unanchored search of [MatchString]: a match may start at any
    offset of the text. *)
Fixpoint search (r : Regexp) (bot : bool) (s : gostring) : bool :=
  match_here r bot s (fun _ _ => true) ||
  match s with
  | [] => false
  | _ :: t => search r false t
  end.

Definition MatchString (re : Regexp) (s : gostring) : bool := search re true s.

End regexp.

(** ** Package [encoding/hex] *)

Module hex.

Local Open Scope Z_scope.

Inductive error : Set :=
| InvalidByteError (b : byte)
| ErrLength.

(** The table [reverseHexTable]: the value of a hexadecimal digit, and
    [0xff] for any other byte. *)
Definition reverseHexTable (c : byte) : Z :=
  let v := byte_val c in
  if (48 <=? v) && (v <=? 57) then v - 48            (* '0'..'9' *)
  else if (65 <=? v) && (v <=? 70) then v - 65 + 10  (* 'A'..'F' *)
  else if (97 <=? v) && (v <=? 102) then v - 97 + 10 (* 'a'..'f' *)
  else 255.

(** [Decode(dst, src)] as the bytes written to [dst] and the error. *)
Fixpoint Decode (src : list byte) : list byte * option error :=
  match src with
  | [] => ([], None)
  | [p] =>
    if reverseHexTable p >? 15 then ([], Some (InvalidByteError p))
    else ([], Some ErrLength)
  | p :: q :: rest =>
    let a := reverseHexTable p in
    let b := reverseHexTable q in
    if a >? 15 then ([], Some (InvalidByteError p))
    else if b >? 15 then ([], Some (InvalidByteError q))
    else
      let '(dst, err) := Decode rest in
      (byte_of (Z.lor (Z.shiftl a 4) b) :: dst, err)
  end.

(** [DecodeString(s)] returns [dst[:n], err]. *)
Definition DecodeString (s : gostring) : list byte * option error := Decode s.

End hex.

(** ** Package [fmt]: the verb [%02X] on a byte *)

Module fmt.

Local Open Scope Z_scope.

Definition upper_digit (v : Z) : byte :=
  if v <? 10 then byte_of (48 + v) else byte_of (65 + (v - 10)).

(** [Sprintf("%02X", b)]: two upper-case hexadecimal digits. *)
Definition Sprintf_02X (b : byte) : gostring :=
  [upper_digit (Z.shiftr (byte_val b) 4); upper_digit (Z.land (byte_val b) 15)].

End fmt.

(** ** Package [wol]: the parser and the packet builder *)

(** [constructMagicPacket]: six bytes of 0xFF, then sixteen copies of
    the MAC address. *)
Definition constructMagicPacket (mac : list byte) : list byte :=
  let packet := make (6 + 16 * 6) in
  (* First 6 bytes: 0xFF synchronization stream *)
  let packet := for_range 0 6 (fun i packet => store packet i xFF) packet in
  (* Next 96 bytes: 16 repetitions of the MAC address *)
  let packet := for_range 0 16 (fun i packet => copy_at packet (6 + i * 6) mac) packet in
  packet.

(** An error of the operating system or of package [net], by its text. *)
Definition oserror : Set := gostring.

(** The errors that package [wol] makes with [fmt.Errorf], one
    constructor for each format string, named after the kinds of the
    specification where it has one. *)
Inductive error : Set :=
| InvalidFormat (mac : gostring)
    (* "invalid MAC address format: %s" *)
| DecodeFailure (cause : hex.error)
    (* "failed to parse MAC address: %w" *)
| InvalidBroadcastAddress (broadcast : gostring)
    (* "invalid broadcast address: %s" *)
| InterfaceNotFound (iface : gostring) (cause : oserror)
    (* "interface %s not found: %w" *)
| AddrsFailure (cause : oserror)
    (* "failed to get interface addresses: %w" *)
| NoUsableAddress (iface : gostring)
    (* "no suitable IPv4 address found on interface %s" *)
| SocketErrorOn (iface : gostring) (cause : oserror)
    (* "failed to create UDP socket on %s: %w" *)
| SocketError (cause : oserror)
    (* "failed to create UDP socket: %w" *)
| SendError (cause : oserror).
    (* "failed to send magic packet: %w" *)

(** [macRegex = regexp.MustCompile(`^([0-9A-Fa-f]{2}:){5}[0-9A-Fa-f]{2}$`)] *)
Definition hexClass : regexp.Regexp :=
  regexp.Class [("0", "9"); ("A", "F"); ("a", "f")]%char.

Definition macRegex : regexp.Regexp :=
  regexp.Cat regexp.BeginText
    (regexp.Cat (regexp.Repeat 5 (regexp.Cat (regexp.Repeat 2 hexClass) (regexp.Lit ":")))
       (regexp.Cat (regexp.Repeat 2 hexClass) regexp.EndText)).

(** [insertColons] inserts colons every [n] characters.  [i] is the byte
    offset of the rune [r]; [string(r)] is the encoding of [r].  Go's [%]
    on a non-negative [i] is [Z.rem]; both callers pass [n = 2]. *)
Definition insertColons (s : gostring) (n : Z) : gostring :=
  fold_left
    (fun result ir =>
       let '(i, r) := ir in
       let result :=
         if (i >? 0)%Z && (Z.rem i n =? 0)%Z then result ++ str ":" else result in
       result ++ utf8.EncodeRune r)
    (utf8.range s) [].

(** [parseMAC] validates and parses a MAC address string.  Each [let]
    is an assignment to the parameter [mac]. *)
Definition parseMAC (mac : gostring) : error + list byte :=
  (* Remove any separators *)
  let mac := strings.TrimSpace mac in
  let mac :=
    (* Handle Cisco-style dot format (AABB.CCDD.EEFF) *)
    if strings.Contains mac (str ".") then
      let mac := strings.ReplaceAll mac (str ".") (str "") in
      insertColons mac 2
    else
      (* Handle dash and colon formats *)
      strings.ReplaceAll mac (str "-") (str ":") in
  (* Validate format *)
  if negb (regexp.MatchString macRegex mac) then inl (InvalidFormat mac) else
  (* Parse hex bytes *)
  let mac := strings.ReplaceAll mac (str ":") (str "") in
  match hex.DecodeString mac with
  | (_, Some err) => inl (DecodeFailure err)
  | (macBytes, None) => inr macBytes
  end.

(** [ValidateMAC] validates a MAC address string format. *)
Definition ValidateMAC (mac : gostring) : option error :=
  let mac := strings.TrimSpace mac in
  let mac :=
    (* Handle Cisco-style dot format (AABB.CCDD.EEFF) *)
    if strings.Contains mac (str ".") then
      let mac := strings.ReplaceAll mac (str ".") (str "") in
      insertColons mac 2
    else
      (* Handle dash and colon formats *)
      strings.ReplaceAll mac (str "-") (str ":") in
  if negb (regexp.MatchString macRegex mac) then Some (InvalidFormat mac)
  else None.

(** The loop [for i, b := range bytes { parts[i] = fmt.Sprintf("%02X", b) }]
    of [NormalizeMAC]; [None] is the run-time panic of an index outside
    [parts]. *)
Fixpoint fill_parts (parts : list gostring) (i : nat) (bytes : list byte)
    : option (list gostring) :=
  match bytes with
  | [] => Some parts
  | b :: rest =>
    if (i <? length parts)%nat
    then fill_parts (store parts i (fmt.Sprintf_02X b)) (S i) rest
    else None
  end.

(** [NormalizeMAC] normalizes a MAC address to XX:XX:XX:XX:XX:XX format.
    The outer [option] is [None] when the function panics. *)
Definition NormalizeMAC (mac : gostring) : option (error + gostring) :=
  match parseMAC mac with
  | inl err => Some (inl err)
  | inr bytes =>
    let parts := repeat ([] : gostring) 6 in
    match fill_parts parts 0 bytes with
    | None => None
    | Some parts => Some (inr (strings.Join parts (str ":")))
    end
  end.

(** ** Package [net]: addresses *)

Module net.

Local Open Scope Z_scope.

(** [type IP []byte]; the [nil] address is the empty list. *)
Definition IP : Set := list byte.

Definition is_nil (ip : IP) : bool :=
  match ip with [] => true | _ :: _ => false end.

Definition IPv4len : nat := 4.
Definition IPv6len : nat := 16.

Definition v4InV6Prefix : list byte :=
  repeat x00 10 ++ [xFF; xFF].

(** [IPv4(a, b, c, d)]: the 16-byte form of the IPv4 address a.b.c.d. *)
Definition IPv4 (a b c d : Z) : IP :=
  v4InV6Prefix ++ [byte_of a; byte_of b; byte_of c; byte_of d].

Definition IPv4zero : IP := IPv4 0 0 0 0.

Definition IPv6loopback : IP := repeat x00 15 ++ [byte_of 1].

Definition bytes_eqb (a b : list byte) : bool :=
  if list_eq_dec ascii_dec a b then true else false.

(** [ip.To4()]: the 4-byte form of an IPv4 address, [nil] otherwise. *)
Definition To4 (ip : IP) : IP :=
  if (length ip =? IPv4len)%nat then ip
  else if (length ip =? IPv6len)%nat
          && forallb (fun b => byte_eqb b x00) (firstn 10 ip)
          && byte_eqb (at_ ip 10) xFF && byte_eqb (at_ ip 11) xFF
       then firstn 4 (skipn 12 ip)
  else [].

(** [ip.Equal(x)]. *)
Definition Equal (ip x : IP) : bool :=
  if (length ip =? length x)%nat then bytes_eqb ip x
  else if (length ip =? IPv4len)%nat && (length x =? IPv6len)%nat then
    bytes_eqb (firstn 12 x) v4InV6Prefix && bytes_eqb ip (skipn 12 x)
  else if (length ip =? IPv6len)%nat && (length x =? IPv4len)%nat then
    bytes_eqb (firstn 12 ip) v4InV6Prefix && bytes_eqb (skipn 12 ip) x
  else false.

(** [ip.IsLoopback()]. *)
Definition IsLoopback (ip : IP) : bool :=
  let ip4 := To4 ip in
  if negb (is_nil ip4) then byte_val (at_ ip4 0) =? 127
  else Equal ip IPv6loopback.

(** The scan of the dotted-decimal parser (package [net/netip],
    [parseIPv4]): [i0] tells that the index is 0, [prev] is the byte
    before the current one, [fields] are the octets read so far, which
    are [pos] many.  [None] is a parse error. *)
Fixpoint parseIPv4_scan (s : gostring) (i0 : bool) (prev : byte)
    (val pos digLen : Z) (fields : list byte) : option (list byte) :=
  match s with
  | [] =>
    if pos <? 3 then None            (* IPv4 address too short *)
    else Some (fields ++ [byte_of val])
  | c :: t =>
    let v := byte_val c in
    if (48 <=? v) && (v <=? 57) then
      if (digLen =? 1) && (val =? 0) then None   (* leading zero *)
      else
        let val := val * 10 + v - 48 in
        if val >? 255 then None                  (* value > 255 *)
        else parseIPv4_scan t false c val pos (digLen + 1) fields
    else if byte_eqb c "." then
      if i0 || is_nil t || byte_eqb prev "." then None  (* empty field *)
      else if pos =? 3 then None                        (* too long *)
      else parseIPv4_scan t false c 0 (pos + 1) 0 (fields ++ [byte_of val])
    else None                                           (* unexpected character *)
  end.

Definition parseIPv4 (s : gostring) : option (list byte) :=
  parseIPv4_scan s true x00 0 0 0 [].

(** [struct UDPAddr { IP IP; Port int; Zone string }], without the zone,
    which package [wol] never sets. *)
Record UDPAddr : Set := { IP_ : IP; Port : Z }.

(** [struct Interface], by the fields that identify it. *)
Record Interface : Set := { Index : Z; Name : gostring }.

(** The dynamic types behind the interface [net.Addr] in the result of
    [Addrs()]. *)
Inductive Addr : Set :=
| IPNet (ip : IP) (mask : list byte)
| IPAddr (ip : IP) (zone : gostring).

(** A socket, by its descriptor. *)
Definition UDPConn : Set := Z.

End net.

(** ** The operating system *)

(** A call that reaches the operating system or the clock. *)
Inductive event : Set :=
| CallInterfaceByName (name : gostring)
| CallAddrs (ifi : net.Interface)
| CallListenUDP (network : gostring) (laddr : net.UDPAddr)
| CallWriteToUDP (c : net.UDPConn) (b : list byte) (addr : net.UDPAddr)
| CallClose (c : net.UDPConn)
| CallSleep (d : Z).

Definition history : Set := list event.

(** What this development leaves open: the answers of the operating
    system, each a function of the calls made before it (any run of a
    program is a run against some such oracle, because the history grows
    with every call), and the IPv6 branch of [net.ParseIP]. *)
Class Platform : Type := {
  parseIPv6 : gostring -> net.IP;
  os_InterfaceByName : history -> gostring -> oserror + net.Interface;
  os_Addrs : history -> net.Interface -> oserror + list net.Addr;
  os_ListenUDP : history -> gostring -> net.UDPAddr -> oserror + net.UDPConn;
  os_WriteToUDP : history -> net.UDPConn -> list byte -> net.UDPAddr -> oserror + Z;
}.

(** The dispatch of [netip.ParseAddr] on the first of ['.'], [':'] and
    ['%'] in [s]. *)
Fixpoint ParseAddr_dispatch `{Platform} (whole rest : gostring) : net.IP :=
  match rest with
  | [] => []
  | c :: t =>
    if byte_eqb c "." then
      match net.parseIPv4 whole with
      | Some f => net.v4InV6Prefix ++ f
      | None => []
      end
    else if byte_eqb c ":" then parseIPv6 whole
    else if byte_eqb c "%" then []
    else ParseAddr_dispatch whole t
  end.

(** [net.ParseIP(s)]: the 16-byte address that [s] denotes, or [nil]. *)
Definition ParseIP `{Platform} (s : gostring) : net.IP := ParseAddr_dispatch s s.

(** ** Programs that call the operating system *)

Definition M (A : Type) : Type := history -> A * history.

Definition ret {A} (a : A) : M A := fun h => (a, h).

Definition bind {A B} (m : M A) (k : A -> M B) : M B :=
  fun h => let '(a, h') := m h in k a h'.

Notation "x <- m ;; k" := (bind m (fun x => k))
  (at level 61, m at next level, right associativity).
Notation "m ;;; k" := (bind m (fun _ => k))
  (at level 61, right associativity).

Definition InterfaceByName `{Platform} (name : gostring) : M (oserror + net.Interface) :=
  fun h => (os_InterfaceByName h name, h ++ [CallInterfaceByName name]).

Definition Addrs `{Platform} (ifi : net.Interface) : M (oserror + list net.Addr) :=
  fun h => (os_Addrs h ifi, h ++ [CallAddrs ifi]).

Definition ListenUDP `{Platform} (network : gostring) (laddr : net.UDPAddr)
    : M (oserror + net.UDPConn) :=
  fun h => (os_ListenUDP h network laddr, h ++ [CallListenUDP network laddr]).

Definition WriteToUDP `{Platform} (c : net.UDPConn) (b : list byte) (addr : net.UDPAddr)
    : M (oserror + Z) :=
  fun h => (os_WriteToUDP h c b addr, h ++ [CallWriteToUDP c b addr]).

Definition Close (c : net.UDPConn) : M unit :=
  fun h => (tt, h ++ [CallClose c]).

(** [time.Sleep(d)], [d] in nanoseconds. *)
Definition Sleep (d : Z) : M unit :=
  fun h => (tt, h ++ [CallSleep d]).

Definition Millisecond : Z := 1000000.

(** Go's [int]: 64 bits, two's complement. *)
Definition wrap64 (z : Z) : Z :=
  ((z + 9223372036854775808) mod 18446744073709551616 - 9223372036854775808)%Z.

(** [for i := 0; i < count; i++ { if err := body(i); err != nil { return err } }]
    for a body that assigns to neither [i] nor [count]: [i] takes the
    values [0 .. count-1] in turn, none when [count <= 0]; [n] is the
    number of turns left.  A body that returns an error leaves the
    function with it. *)
Fixpoint for_upto (n : nat) (i : Z) (body : Z -> M (option error)) : M (option error) :=
  match n with
  | O => ret None
  | S n' =>
    err <- body i ;;
    match err with
    | Some e => ret (Some e)
    | None => for_upto n' (wrap64 (i + 1)) body
    end
  end.

(** ** Package [wol]: the sender *)

(** [WOLSender] sends Wake-on-LAN magic packets. *)
Record WOLSender : Set := { iface : gostring; broadcast : gostring }.

(** [NewSender] creates a new WOL sender. *)
Definition NewSender `{Platform} (iface broadcast : gostring) : error + WOLSender :=
  (* Set default broadcast address *)
  let broadcast :=
    match broadcast with [] => str "255.255.255.255" | _ :: _ => broadcast end in
  (* Validate broadcast address *)
  if net.is_nil (ParseIP broadcast) then inl (InvalidBroadcastAddress broadcast)
  else inr {| iface := iface; broadcast := broadcast |}.

(** The loop of [sendPacket] that looks for a suitable IPv4 address to
    bind to: the first [*net.IPNet] whose IP has a 4-byte form and is not
    a loopback address; [nil] when there is none. *)
Fixpoint find_localIP (addrs : list net.Addr) : net.IP :=
  match addrs with
  | [] => []
  | addr :: rest =>
    match addr with
    | net.IPNet ip _ =>
      if negb (net.is_nil (net.To4 ip)) && negb (net.IsLoopback ip) then ip
      else find_localIP rest
    | net.IPAddr _ _ => find_localIP rest
    end
  end.

(** [sendPacket] sends a magic packet via UDP broadcast.  The first part
    yields the socket or the error returned before there is one; the
    deferred [conn.Close()] runs when the function returns after the
    write. *)
Definition sendPacket `{Platform} (w : WOLSender) (packet : list byte) : M (option error) :=
  conn <-
    (match iface w with
     | _ :: _ =>
       (* Set the interface to use for sending *)
       r <- InterfaceByName (iface w) ;;
       match r with
       | inl err => ret (inl (InterfaceNotFound (iface w) err))
       | inr ifi =>
         (* Get the interface addresses *)
         r <- Addrs ifi ;;
         match r with
         | inl err => ret (inl (AddrsFailure err))
         | inr addrs =>
           (* Find a suitable IPv4 address to bind to *)
           let localIP := find_localIP addrs in
           if net.is_nil localIP then ret (inl (NoUsableAddress (iface w)))
           else
             (* Bind to specific interface IP to control outgoing interface *)
             let addr := {| net.IP_ := localIP; net.Port := 0 |} in
             r <- ListenUDP (str "udp4") addr ;;
             match r with
             | inl err => ret (inl (SocketErrorOn (iface w) err))
             | inr conn => ret (inr conn)
             end
         end
       end
     | [] =>
       (* Bind to any available interface *)
       let addr := {| net.IP_ := net.IPv4zero; net.Port := 0 |} in
       r <- ListenUDP (str "udp4") addr ;;
       match r with
       | inl err => ret (inl (SocketError err))
       | inr conn => ret (inr conn)
       end
     end) ;;
  match conn with
  | inl e => ret (Some e)
  | inr conn =>
    (* Send to broadcast address *)
    let destAddr := {| net.IP_ := ParseIP (broadcast w); net.Port := 9 |} in
    r <- WriteToUDP conn packet destAddr ;;
    Close conn ;;;
    match r with
    | inl err => ret (Some (SendError err))
    | inr _ => ret None
    end
  end.

(** [SendRepeat] sends multiple Wake-on-LAN magic packets for reliability. *)
Definition SendRepeat `{Platform} (w : WOLSender) (mac : gostring) (count : Z)
    : M (option error) :=
  (* Validate and normalize MAC address *)
  match parseMAC mac with
  | inl err => ret (Some err)
  | inr macBytes =>
    (* Construct magic packet *)
    let magicPacket := constructMagicPacket macBytes in
    (* Send the packet *)
    err <- for_upto (Z.to_nat count) 0 (fun i =>
      err <- sendPacket w magicPacket ;;
      match err with
      | Some e => ret (Some e)
      | None =>
        (* Small delay between packets *)
        (if (i <? wrap64 (count - 1))%Z then Sleep (10 * Millisecond) else ret tt) ;;;
        ret None
      end) ;;
    match err with
    | Some e => ret (Some e)
    | None => ret None
    end
  end.

(** [Send] sends a Wake-on-LAN magic packet to the specified MAC address. *)
Definition Send `{Platform} (w : WOLSender) (mac : gostring) : M (option error) :=
  SendRepeat w mac 1.

(** ** Vocabulary of the specification *)

(** A hexadecimal digit, in either case. *)
Definition is_hex_digit (c : byte) : bool :=
  let v := byte_val c in
  ((48 <=? v) && (v <=? 57) || (65 <=? v) && (v <=? 70) || (97 <=? v) && (v <=? 102))%Z.

(** The value of a hexadecimal digit, the same for both cases of a letter. *)
Definition digit_value (c : byte) : Z :=
  let v := byte_val c in
  (if v <=? 57 then v - 48 else if v <=? 70 then v - 55 else v - 87)%Z.

(** The first [n] groups of [w] characters of [d]. *)
Fixpoint chunks (n w : nat) (d : gostring) : list gostring :=
  match n with
  | O => []
  | S n' => firstn w d :: chunks n' w (skipn w d)
  end.

(** The three notations of twelve digits [d]. *)
Definition colon_form (d : gostring) : gostring := strings.Join (chunks 6 2 d) (str ":").
Definition dash_form (d : gostring) : gostring := strings.Join (chunks 6 2 d) (str "-").
Definition dot_form (d : gostring) : gostring := strings.Join (chunks 3 4 d) (str ".").

Definition hex_digits (d : gostring) : Prop :=
  length d = 12%nat /\ Forall (fun c => is_hex_digit c = true) d.

(** [text] is written in one of the three accepted notations. *)
Definition accepted_notation (text : gostring) : Prop :=
  exists d, hex_digits d /\
    (text = colon_form d \/ text = dash_form d \/ text = dot_form d).

(** A logical MAC address is twelve digit values; [d] writes it when its
    characters are digits of these values, in whatever case. *)
Definition writes (d : gostring) (a : list Z) : Prop :=
  Forall2 (fun c v => is_hex_digit c = true /\ digit_value c = v) d a.

(** The octets of twelve digit values, left to right. *)
Fixpoint octets (a : list Z) : list byte :=
  match a with
  | hi :: lo :: rest => byte_of (16 * hi + lo) :: octets rest
  | _ => []
  end.

(** White space: the encoding of runes that Unicode counts as spaces. *)
Definition white (ws : gostring) : Prop :=
  exists rs, forallb unicode.IsSpace rs = true /\ ws = flat_map utf8.EncodeRune rs.

(** The text that [parseMAC] and [ValidateMAC] match against [macRegex]:
    the input trimmed, then either without its dots and with a colon
    after every second character, or with its dashes turned to colons. *)
Definition normalized (mac : gostring) : gostring :=
  let mac := strings.TrimSpace mac in
  if strings.Contains mac (str ".")
  then insertColons (strings.ReplaceAll mac (str ".") (str "")) 2
  else strings.ReplaceAll mac (str "-") (str ":").

(** A colon or a dash. *)
Definition is_sep (c : byte) : bool := byte_eqb c ":" || byte_eqb c "-".

(** Six pairs of digits with a colon or a dash, one or the other at each
    place, between them. *)
Definition six_pairs (t : gostring) : bool :=
  match t with
  | [a1; a2; s1; b1; b2; s2; c1; c2; s3; d1; d2; s4; e1; e2; s5; f1; f2] =>
    forallb is_hex_digit [a1; a2; b1; b2; c1; c2; d1; d2; e1; e2; f1; f2]
    && forallb is_sep [s1; s2; s3; s4; s5]
  | _ => false
  end.

(** What [parseMAC] accepts, read off the trimmed text: with a dot in
    it, twelve digits once the dots are left out; otherwise six pairs. *)
Definition relaxed_notation (text : gostring) : bool :=
  let t := strings.TrimSpace text in
  if existsb (byte_eqb ".") t then
    let d := filter (fun c => negb (byte_eqb "." c)) t in
    (length d =? 12)%nat && forallb is_hex_digit d
  else six_pairs t.

(** ASCII upper case. *)
Definition to_upper (c : byte) : byte :=
  let v := byte_val c in
  if ((97 <=? v) && (v <=? 122))%Z then byte_of (v - 32) else c.

Definition ToUpper (s : gostring) : gostring := map to_upper s.

(** The canonical text of an address: its octets as two upper-case
    hexadecimal digits each, with colons between them. *)
Definition upper_hex (v : Z) : byte :=
  nth (Z.to_nat v) (str "0123456789ABCDEF") x00.

Definition canonical (b : list byte) : gostring :=
  strings.Join
    (map (fun o => [upper_hex (byte_val o / 16); upper_hex (byte_val o mod 16)]) b)
    (str ":").

(** [n] send cycles in a row: a pause of 10 ms between two sends, none
    after the last, and the first failure ends the run with its error. *)
Fixpoint send_cycles `{Platform} (w : WOLSender) (packet : list byte) (n : nat)
    : M (option error) :=
  match n with
  | O => ret None
  | S k =>
    err <- sendPacket w packet ;;
    match err with
    | Some e => ret (Some e)
    | None =>
      match k with
      | O => ret None
      | S _ => Sleep 10000000 ;;; send_cycles w packet k
      end
    end
  end.

(** Counting the datagram writes and the pauses of a history. *)
Definition is_write (e : event) : bool :=
  match e with CallWriteToUDP _ _ _ => true | _ => false end.
Definition is_sleep (e : event) : bool :=
  match e with CallSleep _ => true | _ => false end.
Definition writes_of (h : history) : list event := filter is_write h.
Definition sleeps_of (h : history) : list event := filter is_sleep h.


(** Maximal value of Go's [int]. *)
Definition maxInt : Z := 9223372036854775807.

(** A sample platform: [eth0] has an IPv6 address, a loopback alias and
    192.168.1.10; [lo] has loopback addresses only; every socket call
    succeeds. *)
Definition sample_platform : Platform := {|
  parseIPv6 := fun _ => [];
  os_InterfaceByName := fun _ name =>
    if net.bytes_eqb name (str "eth0") then inr {| net.Index := 2; net.Name := name |}
    else if net.bytes_eqb name (str "lo") then inr {| net.Index := 1; net.Name := name |}
    else inl (str "no such network interface");
  os_Addrs := fun _ ifi =>
    if (net.Index ifi =? 2)%Z then
      inr [net.IPNet (map byte_of [254; 128; 0; 0; 0; 0; 0; 0; 0; 0; 0; 0; 0; 0; 0; 1]%Z)
             (repeat xFF 8 ++ repeat x00 8);
           net.IPNet (net.IPv4 127 0 0 2) (repeat xFF 13 ++ repeat x00 3);
           net.IPNet (net.IPv4 192 168 1 10) (repeat xFF 15 ++ [x00])]
    else
      inr [net.IPNet (net.IPv4 127 0 0 1) (repeat xFF 13 ++ repeat x00 3);
           net.IPNet net.IPv6loopback (repeat xFF 16)];
  os_ListenUDP := fun _ _ _ => inr 3%Z;
  os_WriteToUDP := fun _ _ b _ => inr (Z.of_nat (length b));
|}.

(** ** Auxiliary notions for the proofs *)

(** A byte below [0x80]. *)
Definition is_ascii (c : byte) : bool := (byte_val c <? 128)%Z.

(** A byte that is ASCII and no space, such as a digit. *)
Definition plain (c : byte) : bool :=
  is_ascii c && negb (strings.asciiSpace c) && negb (unicode.IsSpace (byte_val c)).

(** The runes of [unicode.IsSpace]. *)
Definition space_runes : list Z :=
  [9; 10; 11; 12; 13; 32; 133; 160; 5760;
   8192; 8193; 8194; 8195; 8196; 8197; 8198; 8199; 8200; 8201; 8202;
   8232; 8233; 8239; 8287; 12288]%Z.

(** The encoding of a sequence of runes. *)
Definition enc (rs : list Z) : gostring := flat_map utf8.EncodeRune rs.

(** The language of [macRegex], read off a text: six pairs of digits
    with colons between them. *)
Definition colon_shape (s : gostring) : bool :=
  match s with
  | [a1; a2; s1; b1; b2; s2; c1; c2; s3; d1; d2; s4; e1; e2; s5; f1; f2] =>
    forallb is_hex_digit [a1; a2; b1; b2; c1; c2; d1; d2; e1; e2; f1; f2]
    && forallb (byte_eqb ":") [s1; s2; s3; s4; s5]
  | _ => false
  end.

(** The digits of a text in colon form. *)
Definition digits_in (s : gostring) : gostring :=
  filter (fun c => negb (byte_eqb ":" c)) s.

(** What one turn of the loop of [insertColons] appends. *)
Definition colon_piece (n : Z) (ir : Z * Z) : gostring :=
  (if (fst ir >? 0)%Z && (Z.rem (fst ir) n =? 0)%Z then str ":" else [])
  ++ utf8.EncodeRune (snd ir).

(** [insertColons] on ASCII text: a colon before every byte at a positive
    offset that [n] divides. *)
Fixpoint colons_from (n i : Z) (s : gostring) : gostring :=
  match s with
  | [] => []
  | c :: t =>
    (if (i >? 0)%Z && (Z.rem i n =? 0)%Z then [":"%char; c] else [c])
    ++ colons_from n (i + 1) t
  end.

(** The body of the loop of [SendRepeat], as a function of [i]. *)
Definition repeat_body `{Platform} (w : WOLSender) (packet : list byte) (count : Z)
    : Z -> M (option error) :=
  fun i =>
    err <- sendPacket w packet ;;
    match err with
    | Some e => ret (Some e)
    | None =>
      (if (i <? wrap64 (count - 1))%Z then Sleep (10 * Millisecond) else ret tt) ;;;
      ret None
    end.

(** The history [h0] reached from [h] by [k] cycles that went well and
    the pause that follows them. *)
Definition after_cycles `{Platform} (w : WOLSender) (packet : list byte) (k : nat)
    (h h0 : history) : Prop :=
  match k with
  | O => h0 = h
  | S _ => exists h1, send_cycles w packet k h = (None, h1) /\ h0 = h1 ++ [CallSleep 10000000]
  end.

(** A sender on each interface of the sample platform, and one on none. *)
Definition sample_eth0 : WOLSender :=
  {| iface := str "eth0"; broadcast := str "255.255.255.255" |}.

(** * The code around package [wol] *)

(** [s == t] on strings. *)
Definition string_eqb (s t : gostring) : bool :=
  if list_eq_dec ascii_dec s t then true else false.

(** ** The texts of the errors of package [wol] *)

(** [strconv.IsPrint(r)] for a rune of Latin-1. *)
Definition IsPrint_latin1 (r : Z) : bool :=
  ((32 <=? r) && (r <=? 126) || (161 <=? r) && (r <=? 255) && negb (r =? 173))%Z.

(** [fmt.Sprintf("%#U", rune(b))] for a byte [b]: [U+00XX], followed by
    the quoted character when it is printable. *)
Definition Sprintf_sharpU (b : byte) : gostring :=
  str "U+00" ++ fmt.Sprintf_02X b ++
  (if IsPrint_latin1 (byte_val b)
   then str " '" ++ utf8.EncodeRune (byte_val b) ++ str "'"
   else []).

(** [err.Error()] for the errors of [encoding/hex]. *)
Definition hex_error_text (e : hex.error) : gostring :=
  match e with
  | hex.InvalidByteError b => str "encoding/hex: invalid byte: " ++ Sprintf_sharpU b
  | hex.ErrLength => str "encoding/hex: odd length hex string"
  end.

(** [err.Error()] for the errors of package [wol]: the format string of
    each [fmt.Errorf] with its arguments filled in. *)
Definition error_text (e : error) : gostring :=
  match e with
  | InvalidFormat mac => str "invalid MAC address format: " ++ mac
  | DecodeFailure cause => str "failed to parse MAC address: " ++ hex_error_text cause
  | InvalidBroadcastAddress broadcast => str "invalid broadcast address: " ++ broadcast
  | InterfaceNotFound iface cause =>
    str "interface " ++ iface ++ str " not found: " ++ cause
  | AddrsFailure cause => str "failed to get interface addresses: " ++ cause
  | NoUsableAddress iface => str "no suitable IPv4 address found on interface " ++ iface
  | SocketErrorOn iface cause =>
    str "failed to create UDP socket on " ++ iface ++ str ": " ++ cause
  | SocketError cause => str "failed to create UDP socket: " ++ cause
  | SendError cause => str "failed to send magic packet: " ++ cause
  end.

(** The errors of package [wol], under a name that stays free inside
    the modules below. *)
Definition wol_error : Set := error.

(** ** Package [regexp], with the counted repetition [r{min,max}] *)

Module regexp_counted.

(** The syntax of the pattern of [validateDevice]: what [regexp.Regexp]
    has, and [r{min,max}]. *)
Inductive Regexp : Set :=
| Plain (r : regexp.Regexp)
| Cat (r1 r2 : Regexp)
| Repeat (n : nat) (r : Regexp)
| RepeatRange (min max : nat) (r : Regexp).

(** [match_here r bot s k], as in [regexp]: [r{min,max}] is [min] times
    [r] and then up to [max - min] times more. *)
Fixpoint match_here (r : Regexp) (bot : bool) (s : gostring)
    (k : bool -> gostring -> bool) {struct r} : bool :=
  match r with
  | Plain r0 => regexp.match_here r0 bot s k
  | Cat r1 r2 => match_here r1 bot s (fun bot' s' => match_here r2 bot' s' k)
  | Repeat n r1 =>
    (fix rep (n : nat) (bot : bool) (s : gostring) {struct n} : bool :=
       match n with
       | O => k bot s
       | S n' => match_here r1 bot s (rep n')
       end) n bot s
  | RepeatRange min max r1 =>
    (fix rep (n : nat) (bot : bool) (s : gostring) {struct n} : bool :=
       match n with
       | O =>
         (fix more (m : nat) (bot : bool) (s : gostring) {struct m} : bool :=
            match m with
            | O => k bot s
            | S m' => match_here r1 bot s (more m') || k bot s
            end) (max - min)%nat bot s
       | S n' => match_here r1 bot s (rep n')
       end) min bot s
  end.

Fixpoint search (r : Regexp) (bot : bool) (s : gostring) : bool :=
  match_here r bot s (fun _ _ => true) ||
  match s with
  | [] => false
  | _ :: t => search r false t
  end.

Definition MatchString (re : Regexp) (s : gostring) : bool := search re true s.

End regexp_counted.

(** ** Package [store] *)

(** The module is [store_] because [store] is the assignment to an
    element of a slice. *)
Module store_.

Local Open Scope Z_scope.

(** [Device] represents a wake-on-LAN device. *)
Record Device : Set := {
  Name : gostring;
  MAC : gostring;
  IP : gostring;
  Group : gostring;
}.

(** [Store] manages device persistence.  [devices] is a slice of
    pointers: [None] is the nil pointer, which the JSON [null] gives.
    The mutex is left out: what follows is one call at a time. *)
Record Store : Set := {
  filePath : gostring;
  devices : list (option Device);
}.

(** The errors that the package makes with [fmt.Errorf]. *)
Inductive error : Set :=
| LoadFailed (cause : error)
    (* "failed to load store: %w" *)
| ReadFailed (cause : oserror)
    (* "failed to read store file: %w" *)
| ParseFailed (cause : oserror)
    (* "failed to parse store file: %w" *)
| MkdirFailed (cause : oserror)
    (* "failed to create directory: %w" *)
| MarshalFailed (cause : oserror)
    (* "failed to marshal devices: %w" *)
| WriteFailed (cause : oserror)
    (* "failed to write store file: %w" *)
| AlreadyExists (mac : gostring)
    (* "device with MAC %s already exists" *)
| NotFound (mac : gostring).
    (* "device with MAC %s not found" *)

(** [err.Error()] for these. *)
Fixpoint error_text (e : error) : gostring :=
  match e with
  | LoadFailed cause => str "failed to load store: " ++ error_text cause
  | ReadFailed cause => str "failed to read store file: " ++ cause
  | ParseFailed cause => str "failed to parse store file: " ++ cause
  | MkdirFailed cause => str "failed to create directory: " ++ cause
  | MarshalFailed cause => str "failed to marshal devices: " ++ cause
  | WriteFailed cause => str "failed to write store file: " ++ cause
  | AlreadyExists mac => str "device with MAC " ++ mac ++ str " already exists"
  | NotFound mac => str "device with MAC " ++ mac ++ str " not found"
  end.

(** The calls of the file system. *)
Inductive fs_call : Set :=
| CallStat (name : gostring)
| CallReadFile (name : gostring)
| CallMkdirAll (path : gostring) (perm : Z)
| CallWriteFile (name : gostring) (data : gostring) (perm : Z).

Definition fs_history : Set := list fs_call.

(** What is left open: the answers of the file system, each a function
    of the calls made before it, whether [os.IsNotExist] holds of an
    error of the file system, and the JSON text of a list of devices. *)
Class FileSystem : Type := {
  os_Stat : fs_history -> gostring -> option oserror;
  os_IsNotExist : oserror -> bool;
  os_ReadFile : fs_history -> gostring -> oserror + gostring;
  os_MkdirAll : fs_history -> gostring -> Z -> option oserror;
  os_WriteFile : fs_history -> gostring -> gostring -> Z -> option oserror;
  json_Unmarshal : gostring -> oserror + list (option Device);
  json_MarshalIndent : list (option Device) -> oserror + gostring;
}.

(** [s[:idx]]; [None] is the run-time panic of a bound out of range. *)
Definition slice_to {A} (s : list A) (idx : Z) : option (list A) :=
  if (0 <=? idx) && (idx <=? Z.of_nat (length s)) then Some (firstn (Z.to_nat idx) s)
  else None.

(** [for idx > 0 && path[idx] != '/' { idx-- }]: the value of [idx]
    after the loop; [fuel] bounds the number of turns. *)
Fixpoint dirPath_loop (fuel : nat) (path : gostring) (idx : Z) : Z :=
  match fuel with
  | O => idx
  | S fuel' =>
    if (idx >? 0) && negb (byte_eqb (at_ path (Z.to_nat idx)) "/")
    then dirPath_loop fuel' path (idx - 1)
    else idx
  end.

(** [dirPath] returns the directory path from a file path. *)
Definition dirPath (path : gostring) : option gostring :=
  let idx := Z.of_nat (length path) - 1 in
  let idx := dirPath_loop (length path) path idx in
  slice_to path idx.

Definition set_devices (s : Store) (devices : list (option Device)) : Store :=
  {| filePath := filePath s; devices := devices |}.

(** [saveLocked] saves devices to file.  The outer [option] is [None]
    when the function panics. *)
Definition saveLocked `{FileSystem} (s : Store) (h : fs_history)
    : option (option error * fs_history) :=
  (* Create directory if it doesn't exist *)
  match dirPath (filePath s) with
  | None => None
  | Some dir =>
    let '(err, h) :=
      if negb (string_eqb dir (str ""))
      then (os_MkdirAll h dir 493 (* 0755 *), h ++ [CallMkdirAll dir 493])
      else (None, h) in
    match err with
    | Some err => Some (Some (MkdirFailed err), h)
    | None =>
      (* Marshal to JSON *)
      match json_MarshalIndent (devices s) with
      | inl err => Some (Some (MarshalFailed err), h)
      | inr data =>
        (* Write to file *)
        match os_WriteFile h (filePath s) data 420 (* 0644 *) with
        | Some err =>
          Some (Some (WriteFailed err), h ++ [CallWriteFile (filePath s) data 420])
        | None => Some (None, h ++ [CallWriteFile (filePath s) data 420])
        end
      end
    end
  end.

(** [Load] loads devices from the JSON file. *)
Definition Load `{FileSystem} (s : Store) (h : fs_history)
    : option error * Store * fs_history :=
  (* Check if file exists *)
  let err := os_Stat h (filePath s) in
  let h := h ++ [CallStat (filePath s)] in
  if match err with Some err => os_IsNotExist err | None => false end
  then (None, set_devices s [], h)
  else
    (* Read file *)
    let r := os_ReadFile h (filePath s) in
    let h := h ++ [CallReadFile (filePath s)] in
    match r with
    | inl err => (Some (ReadFailed err), s, h)
    | inr data =>
      (* Handle empty file *)
      if (length data =? 0)%nat then (None, set_devices s [], h)
      else
        (* Parse JSON *)
        match json_Unmarshal data with
        | inl err => (Some (ParseFailed err), s, h)
        | inr devices => (None, set_devices s devices, h)
        end
    end.

(** [os.IsNotExist] of an error of [Load]: the function looks through
    [*PathError], [*LinkError] and [*SyscallError] only, and the errors
    of [Load] are made by [fmt.Errorf]. *)
Definition IsNotExist_wrapped (err : error) : bool := false.

(** [NewStore] creates a new store instance. *)
Definition NewStore `{FileSystem} (filePath : gostring) (h : fs_history)
    : (error + Store) * fs_history :=
  let s := {| filePath := filePath; devices := [] |} in
  (* Load existing data if file exists *)
  let '(err, s, h) := Load s h in
  match err with
  | Some err =>
    (* If file doesn't exist, that's ok - start with empty store *)
    if negb (IsNotExist_wrapped err) then (inl (LoadFailed err), h)
    else (inr s, h)
  | None => (inr s, h)
  end.

(** [List] returns all devices; [None] is the panic of [*d] for a nil [d]. *)
Fixpoint List_loop (devices : list (option Device)) : option (list Device) :=
  match devices with
  | [] => Some []
  | None :: _ => None
  | Some d :: rest =>
    match List_loop rest with
    | Some result => Some (d :: result)
    | None => None
    end
  end.
Definition List (s : Store) : option (list Device) := List_loop (devices s).

(** The loop of [Add] that checks for a duplicate MAC. *)
Fixpoint has_MAC (devices : list (option Device)) (mac : gostring) : option bool :=
  match devices with
  | [] => Some false
  | None :: _ => None
  | Some d :: rest => if string_eqb (MAC d) mac then Some true else has_MAC rest mac
  end.

(** [Add] adds a new device to the store. *)
Definition Add `{FileSystem} (device : Device) (s : Store) (h : fs_history)
    : option (option error * Store * fs_history) :=
  (* Check for duplicate MAC *)
  match has_MAC (devices s) (MAC device) with
  | None => None
  | Some true => Some (Some (AlreadyExists (MAC device)), s, h)
  | Some false =>
    (* Add device *)
    let s := set_devices s (devices s ++ [Some device]) in
    (* Save to file *)
    match saveLocked s h with
    | None => None
    | Some (Some err, h) =>
      (* Rollback on save error *)
      Some (Some err, set_devices s (firstn (length (devices s) - 1) (devices s)), h)
    | Some (None, h) => Some (None, s, h)
    end
  end.

(** The loop of [Delete]: the devices kept and whether one was found. *)
Fixpoint Delete_loop (devices : list (option Device)) (mac : gostring)
    : option (list (option Device) * bool) :=
  match devices with
  | [] => Some ([], false)
  | None :: _ => None
  | Some d :: rest =>
    match Delete_loop rest mac with
    | None => None
    | Some (newDevices, found) =>
      if negb (string_eqb (MAC d) mac) then Some (Some d :: newDevices, found)
      else Some (newDevices, true)
    end
  end.

(** [Delete] removes a device by MAC address. *)
Definition Delete `{FileSystem} (mac : gostring) (s : Store) (h : fs_history)
    : option (option error * Store * fs_history) :=
  (* Find and remove device *)
  match Delete_loop (devices s) mac with
  | None => None
  | Some (newDevices, found) =>
    if negb found then Some (Some (NotFound mac), s, h)
    else
      let oldDevices := devices s in
      let s := set_devices s newDevices in
      (* Save to file *)
      match saveLocked s h with
      | None => None
      | Some (Some err, h) =>
        (* Rollback on save error *)
        Some (Some err, set_devices s oldDevices, h)
      | Some (None, h) => Some (None, s, h)
      end
  end.

(** [GetByMAC] finds a device by MAC address and returns a copy. *)
Fixpoint GetByMAC_loop (devices : list (option Device)) (mac : gostring)
    : option (error + Device) :=
  match devices with
  | [] => Some (inl (NotFound mac))
  | None :: _ => None
  | Some d :: rest =>
    if string_eqb (MAC d) mac then Some (inr d) else GetByMAC_loop rest mac
  end.
Definition GetByMAC (s : Store) (mac : gostring) : option (error + Device) :=
  GetByMAC_loop (devices s) mac.

(** [GetByGroup] returns all devices in a group. *)
Fixpoint GetByGroup_loop (devices : list (option Device)) (group : gostring)
    : option (list Device) :=
  match devices with
  | [] => Some []
  | None :: _ => None
  | Some d :: rest =>
    match GetByGroup_loop rest group with
    | None => None
    | Some result => if string_eqb (Group d) group then Some (d :: result) else Some result
    end
  end.
Definition GetByGroup (s : Store) (group : gostring) : option (list Device) :=
  GetByGroup_loop (devices s) group.

(** The loop of [Update]: the first device with the MAC is replaced by
    [updated] with that MAC, and the loop ends there. *)
Fixpoint Update_loop (devices : list (option Device)) (mac : gostring) (updated : Device)
    : option (list (option Device) * bool) :=
  match devices with
  | [] => Some ([], false)
  | None :: _ => None
  | Some d :: rest =>
    if string_eqb (MAC d) mac then
      (* Keep the original MAC *)
      let updated :=
        {| Name := Name updated; MAC := mac; IP := IP updated; Group := Group updated |} in
      Some (Some updated :: rest, true)
    else
      match Update_loop rest mac updated with
      | None => None
      | Some (devices', found) => Some (Some d :: devices', found)
      end
  end.

(** [Update] updates an existing device. *)
Definition Update `{FileSystem} (mac : gostring) (updated : Device)
    (s : Store) (h : fs_history) : option (option error * Store * fs_history) :=
  (* Find and update device *)
  match Update_loop (devices s) mac updated with
  | None => None
  | Some (devices', found) =>
    let s := set_devices s devices' in
    if negb found then Some (Some (NotFound mac), s, h)
    else
      (* Save to file *)
      match saveLocked s h with
      | None => None
      | Some (Some err, h) => Some (Some err, s, h)
      | Some (None, h) => Some (None, s, h)
      end
  end.

(** [Count] returns the number of devices. *)
Definition Count (s : Store) : Z := Z.of_nat (length (devices s)).

End store_.

(** ** Package [net/http], as far as the handlers use it *)

Module http.

Definition MethodGet : gostring := str "GET".
Definition MethodPost : gostring := str "POST".

Definition StatusOK : Z := 200.
Definition StatusBadRequest : Z := 400.
Definition StatusNotFound : Z := 404.
Definition StatusMethodNotAllowed : Z := 405.
Definition StatusInternalServerError : Z := 500.

(** Of a request, its method and the bytes of its body. *)
Record Request : Set := { Method : gostring; Body : gostring }.

End http.

(** ** Package [web]: the handlers *)

Module web.

(** The errors that [validateDevice] makes with [fmt.Errorf]. *)
Inductive error : Set :=
| NameRequired                  (* "device name is required" *)
| MACRequired                   (* "MAC address is required" *)
| InvalidMAC (cause : wol_error) (* "invalid MAC address: %w" *)
| InvalidIPFormat.              (* "invalid IP address format" *)

(** [err.Error()] for these. *)
Definition device_error_text (e : error) : gostring :=
  match e with
  | NameRequired => str "device name is required"
  | MACRequired => str "MAC address is required"
  | InvalidMAC cause => str "invalid MAC address: " ++ error_text cause
  | InvalidIPFormat => str "invalid IP address format"
  end.

(** [regexp.MustCompile(`^(\d{1,3}\.){3}\d{1,3}$`)]; [\d] is [[0-9]]. *)
Definition digitClass : regexp_counted.Regexp :=
  regexp_counted.Plain (regexp.Class [("0", "9")]%char).

Definition ipRegex : regexp_counted.Regexp :=
  regexp_counted.Cat (regexp_counted.Plain regexp.BeginText)
    (regexp_counted.Cat
       (regexp_counted.Repeat 3
          (regexp_counted.Cat (regexp_counted.RepeatRange 1 3 digitClass)
             (regexp_counted.Plain (regexp.Lit "."))))
       (regexp_counted.Cat (regexp_counted.RepeatRange 1 3 digitClass)
          (regexp_counted.Plain regexp.EndText))).

(** [validateDevice] validates a device before adding/updating. *)
Definition validateDevice (device : store_.Device) : option error :=
  if string_eqb (store_.Name device) (str "") then Some NameRequired
  else if string_eqb (store_.MAC device) (str "") then Some MACRequired
  else
    match ValidateMAC (store_.MAC device) with
    | Some err => Some (InvalidMAC err)
    | None =>
      (* Validate IP if provided *)
      if negb (string_eqb (store_.IP device) (str ""))
         && negb (regexp_counted.MatchString ipRegex (store_.IP device))
      then Some InvalidIPFormat
      else None
    end.

(** What [interface{}] holds in the [Data] of a response: nothing, or
    the devices of the list. *)
Inductive payload : Set :=
| nil_data
| devices_data (devices : list store_.Device).

(** [Response] represents a standard API response. *)
Record Response : Set := {
  Success : bool;
  Data : payload;
  Error : gostring;
  Message : gostring;
}.

(** The calls that a handler makes on its [http.ResponseWriter];
    [Encode data] is [json.NewEncoder(w).Encode(data)]. *)
Inductive call : Set :=
| HeaderSet (key value : gostring)
| WriteHeader (status : Z)
| Encode (data : Response).

(** [respondWithStatus] sends a response with a specific status code. *)
Definition respondWithStatus (data : Response) (status : Z) : list call :=
  [HeaderSet (str "Content-Type") (str "application/json");
   WriteHeader status;
   Encode data].

(** [respond] sends a response with default status code. *)
Definition respond (data : Response) : list call :=
  (* Determine status code based on success *)
  let status := if negb (Success data) then http.StatusBadRequest else http.StatusOK in
  [HeaderSet (str "Content-Type") (str "application/json");
   WriteHeader status;
   Encode data].

(** [respondError] sends an error response. *)
Definition respondError (message : gostring) (status : Z) : list call :=
  respondWithStatus
    {| Success := false; Data := nil_data; Error := message; Message := str "" |} status.

(** [respondSuccess] sends a success response. *)
Definition respondSuccess (data : payload) : list call :=
  respond {| Success := true; Data := data; Error := str ""; Message := str "" |}.

(** What is left open of [encoding/json]: the result of decoding the
    body of a request into [struct { MAC string }], the value of the
    field or the error, and into a [store_.Device]. *)
Class Decoder : Type := {
  decode_MAC : gostring -> oserror + gostring;
  decode_Device : gostring -> oserror + store_.Device;
}.

(** [Handler] handles HTTP requests.  The store that its other field
    points to is not part of the value. *)
Record Handler : Set := { wol : WOLSender }.

(** [wakeHandler] sends a WOL magic packet.  The result is the calls on
    the response writer, all of which come after the calls of the
    sender. *)
Definition wakeHandler `{Platform} `{Decoder} (h : Handler) (r : http.Request)
    : M (list call) :=
  if negb (string_eqb (http.Method r) http.MethodPost) then
    ret (respondError (str "Method not allowed") http.StatusMethodNotAllowed)
  else
    match decode_MAC (http.Body r) with
    | inl _ => ret (respondError (str "Invalid request body") http.StatusBadRequest)
    | inr req_MAC =>
      (* Validate MAC *)
      match ValidateMAC req_MAC with
      | Some err => ret (respondError (error_text err) http.StatusBadRequest)
      | None =>
        (* Send magic packet (3 times for reliability) *)
        err <- SendRepeat (wol h) req_MAC 3 ;;
        match err with
        | Some err =>
          ret (respondError (str "Failed to send WOL packet: " ++ error_text err)
                 http.StatusInternalServerError)
        | None =>
          ret (respond {| Success := true; Data := nil_data; Error := str "";
                          Message := str "WOL packet sent to " ++ req_MAC |})
        end
      end
    end.

(** [listHandler] returns the list of all devices.  The store that
    [h.store] points to is [s]; a handler returns [None] when it
    panics, and otherwise its calls on the response writer, the store
    and the history of the file system after it. *)
Definition listHandler (h : Handler) (r : http.Request) (s : store_.Store)
    (fh : store_.fs_history) : option (list call * store_.Store * store_.fs_history) :=
  if negb (string_eqb (http.Method r) http.MethodGet) then
    Some (respondError (str "Method not allowed") http.StatusMethodNotAllowed, s, fh)
  else
    match store_.List s with
    | None => None
    | Some devices => Some (respondSuccess (devices_data devices), s, fh)
    end.

(** [addHandler] adds a new device. *)
Definition addHandler `{Decoder} `{store_.FileSystem} (h : Handler) (r : http.Request)
    (s : store_.Store) (fh : store_.fs_history)
    : option (list call * store_.Store * store_.fs_history) :=
  if negb (string_eqb (http.Method r) http.MethodPost) then
    Some (respondError (str "Method not allowed") http.StatusMethodNotAllowed, s, fh)
  else
    match decode_Device (http.Body r) with
    | inl _ => Some (respondError (str "Invalid request body") http.StatusBadRequest, s, fh)
    | inr device =>
      (* Validate device *)
      match validateDevice device with
      | Some err =>
        Some (respondError (device_error_text err) http.StatusBadRequest, s, fh)
      | None =>
        (* Check if device exists (for updates) *)
        match store_.GetByMAC s (store_.MAC device) with
        | None => None
        | Some (inr _) =>
          (* Update existing device *)
          match store_.Update (store_.MAC device) device s fh with
          | None => None
          | Some (Some err, s, fh) =>
            Some (respondError (store_.error_text err) http.StatusInternalServerError,
                  s, fh)
          | Some (None, s, fh) => Some (respondSuccess nil_data, s, fh)
          end
        | Some (inl _) =>
          (* Add new device *)
          match store_.Add device s fh with
          | None => None
          | Some (Some err, s, fh) =>
            Some (respondError (store_.error_text err) http.StatusInternalServerError,
                  s, fh)
          | Some (None, s, fh) => Some (respondSuccess nil_data, s, fh)
          end
        end
      end
    end.

(** [deleteHandler] deletes a device. *)
Definition deleteHandler `{Decoder} `{store_.FileSystem} (h : Handler) (r : http.Request)
    (s : store_.Store) (fh : store_.fs_history)
    : option (list call * store_.Store * store_.fs_history) :=
  if negb (string_eqb (http.Method r) http.MethodPost) then
    Some (respondError (str "Method not allowed") http.StatusMethodNotAllowed, s, fh)
  else
    match decode_MAC (http.Body r) with
    | inl _ => Some (respondError (str "Invalid request body") http.StatusBadRequest, s, fh)
    | inr req_MAC =>
      if string_eqb req_MAC (str "") then
        Some (respondError (str "MAC address is required") http.StatusBadRequest, s, fh)
      else
        match store_.Delete req_MAC s fh with
        | None => None
        | Some (Some err, s, fh) =>
          Some (respondError (store_.error_text err) http.StatusNotFound, s, fh)
        | Some (None, s, fh) => Some (respondSuccess nil_data, s, fh)
        end
    end.

End web.

(** ** Package [strings], continued *)

Module strings2.

Local Open Scope Z_scope.

(** What is left open of package [unicode]: the part of [EqualFold] that
    compares runes, entered at the first byte from [0x80] on with what
    is left of the two texts, and [Map(unicode.ToLower, s)]. *)
Class Unicode : Type := {
  EqualFold_runes : gostring -> gostring -> bool;
  Map_ToLower : gostring -> gostring;
}.

(** [EqualFold(s, t)]: the loop over the bytes that both texts have,
    left for the comparison of runes at a byte that is not ASCII, and
    the test [len(s) == len(t)] after it. *)
Fixpoint EqualFold `{Unicode} (s t : gostring) : bool :=
  match s, t with
  | sr :: s', tr :: t' =>
    if Z.lor (byte_val sr) (byte_val tr) >=? utf8.RuneSelf then EqualFold_runes s t
    else if byte_eqb tr sr then EqualFold s' t'   (* Easy case. *)
    else
      (* Make sr < tr to simplify what follows. *)
      let '(sr, tr) := if byte_val tr <? byte_val sr then (tr, sr) else (sr, tr) in
      (* ASCII only, sr/tr must be upper/lower case *)
      if (65 <=? byte_val sr) && (byte_val sr <=? 90)
         && (byte_val tr =? byte_val sr + 97 - 65)
      then EqualFold s' t'
      else false
  | [], [] => true
  | _, _ => false
  end.

(** [ToLower(s)]: in a text of ASCII bytes the upper-case letters are
    replaced; any other text goes through [Map]. *)
Definition ToLower `{Unicode} (s : gostring) : gostring :=
  let isASCII := forallb (fun c => byte_val c <? utf8.RuneSelf) s in
  let hasUpper := existsb (fun c => (65 <=? byte_val c) && (byte_val c <=? 90)) s in
  if isASCII then
    if negb hasUpper then s
    else map (fun c => if (65 <=? byte_val c) && (byte_val c <=? 90)
                       then byte_of (byte_val c + (97 - 65)) else c) s
  else Map_ToLower s.

(** The ASCII fast path of [Fields]: [cur] is [s[fieldStart:i]]. *)
Fixpoint Fields_ascii (s cur : gostring) : list gostring :=
  match s with
  | [] => match cur with [] => [] | _ :: _ => [cur] end
  | c :: t =>
    if strings.asciiSpace c
    then match cur with [] => [] | _ :: _ => [cur] end ++ Fields_ascii t []
    else Fields_ascii t (cur ++ [c])
  end.

(** The loop of [FieldsFunc] over [for end, rune := range s]: the spans
    recorded and the value of [start] after it. *)
Fixpoint FieldsFunc_spans (f : Z -> bool) (rs : list (Z * Z)) (start : Z)
    : list (Z * Z) * Z :=
  match rs with
  | [] => ([], start)
  | (end_, rune) :: rest =>
    if f rune then
      if start >=? 0 then
        let '(spans, st) := FieldsFunc_spans f rest (- start - 1) (* ^start *) in
        ((start, end_) :: spans, st)
      else FieldsFunc_spans f rest start
    else
      if start <? 0 then FieldsFunc_spans f rest end_
      else FieldsFunc_spans f rest start
  end.

(** [FieldsFunc(s, f)]. *)
Definition FieldsFunc (s : gostring) (f : Z -> bool) : list gostring :=
  let '(spans, start) := FieldsFunc_spans f (utf8.range s) (-1) in
  (* Last field might end at EOF. *)
  let spans := if start >=? 0 then spans ++ [(start, Z.of_nat (length s))] else spans in
  map (fun span => skipn (Z.to_nat (fst span)) (firstn (Z.to_nat (snd span)) s)) spans.

(** [Fields(s)]: [s] split around each run of white space. *)
Definition Fields (s : gostring) : list gostring :=
  if existsb (fun c => byte_val c >=? utf8.RuneSelf) s
  then FieldsFunc s unicode.IsSpace
  else Fields_ascii s [].

End strings2.

(** ** Package [arp] *)

Module arp.

(** [Entry] represents an ARP table entry. *)
Record Entry : Set := {
  IP : gostring;
  MAC : gostring;
  Device : gostring;
  Flags : gostring;
}.

(** [DefaultARPPath] is the default path to the ARP table. *)
Definition DefaultARPPath : gostring := str "/proc/net/arp".

(** [macRegex = regexp.MustCompile(`^([0-9A-Fa-f]{2}:){5}[0-9A-Fa-f]{2}$`)] *)
Definition macRegex : regexp.Regexp :=
  regexp.Cat regexp.BeginText
    (regexp.Cat (regexp.Repeat 5 (regexp.Cat (regexp.Repeat 2 hexClass) (regexp.Lit ":")))
       (regexp.Cat (regexp.Repeat 2 hexClass) regexp.EndText)).

(** [invalidMACs] contains MAC addresses that should be filtered out. *)
Definition invalidMACs : list gostring :=
  [str "00:00:00:00:00:00"; str "ff:ff:ff:ff:ff:ff"].

(** The errors that the package makes with [fmt.Errorf]. *)
Inductive error : Set :=
| OpenFailed (cause : oserror)
    (* "failed to open ARP table: %w" *)
| ReadFailed (cause : oserror)
    (* "error reading ARP table: %w" *)
| InvalidEntryFormat (line : gostring)
    (* "invalid ARP entry format: %s" *)
| IPNotFound (ip : gostring).
    (* "IP %s not found in ARP table" *)

(** What is left open: for a path, the error of [os.Open], or the lines
    that the scanner yields one after the other and the value of
    [scanner.Err()] after the last. *)
Class Table : Type := {
  scan : gostring -> oserror + (list gostring * option oserror);
}.

(** [parseLine] parses a single line from the ARP table. *)
Definition parseLine (line : gostring) : error + Entry :=
  let fields := strings2.Fields line in
  if (length fields <? 6)%nat then inl (InvalidEntryFormat line)
  else
    inr {| IP := nth 0 fields [];
           Flags := nth 2 fields [];
           MAC := nth 3 fields [];
           Device := nth 5 fields [] |}.

(** [isValidEntry] checks if an ARP entry is valid for use. *)
Definition isValidEntry `{strings2.Unicode} (entry : Entry) : bool :=
  (* Check MAC address format *)
  if negb (regexp.MatchString macRegex (MAC entry)) then false
  (* Check for invalid MAC addresses *)
  else if existsb (fun invalid => strings2.EqualFold (MAC entry) invalid) invalidMACs
  then false
  (* Check for incomplete entries (flags 0x0) *)
  else if string_eqb (Flags entry) (str "0x0") then false
  else true.

(** The loop of [ParsePath] over the lines after the header. *)
Fixpoint ParsePath_loop `{strings2.Unicode} (lines : list gostring) : list Entry :=
  match lines with
  | [] => []
  | text :: rest =>
    let line := strings.TrimSpace text in
    (* Skip empty lines and comments *)
    if string_eqb line (str "") || strings.HasPrefix line (str "#")
    then ParsePath_loop rest
    else
      match parseLine line with
      | inl _ => ParsePath_loop rest
      | inr entry =>
        (* Filter out invalid entries *)
        if isValidEntry entry then entry :: ParsePath_loop rest
        else ParsePath_loop rest
      end
  end.

(** [ParsePath] parses the ARP table from a specific file path. *)
Definition ParsePath `{Table} `{strings2.Unicode} (path : gostring) : error + list Entry :=
  match scan path with
  | inl err => inl (OpenFailed err)
  | inr (lines, err) =>
    (* Skip header line *)
    let entries := ParsePath_loop (tl lines) in
    match err with
    | Some err => inl (ReadFailed err)
    | None => inr entries
    end
  end.

(** [Parse] parses the ARP table at the default path. *)
Definition Parse `{Table} `{strings2.Unicode} : error + list Entry :=
  ParsePath DefaultARPPath.

(** [GetLocalEntries] returns ARP entries for local network devices. *)
Definition GetLocalEntries `{Table} `{strings2.Unicode} : error + list Entry :=
  match Parse with
  | inl err => inl err
  | inr entries =>
    (* Filter for local interfaces only *)
    inr (filter (fun entry =>
                   if string_eqb (Device entry) (str "lo") then false   (* Skip loopback *)
                   else if string_eqb (Device entry) (str "") then false
                   else true) entries)
  end.

(** [GetByDevice] returns ARP entries for a specific device. *)
Definition GetByDevice `{Table} `{strings2.Unicode} (device : gostring)
    : error + list Entry :=
  match Parse with
  | inl err => inl err
  | inr entries => inr (filter (fun entry => string_eqb (Device entry) device) entries)
  end.

(** [GetByIP] returns an ARP entry for a specific IP address. *)
Definition GetByIP `{Table} `{strings2.Unicode} (ip : gostring) : error + Entry :=
  match Parse with
  | inl err => inl err
  | inr entries =>
    match find (fun entry => string_eqb (IP entry) ip) entries with
    | Some entry => inr entry
    | None => inl (IPNotFound ip)
    end
  end.

(** [FindByMAC] finds ARP entries that match a MAC address. *)
Definition FindByMAC `{Table} `{strings2.Unicode} (mac : gostring) : error + list Entry :=
  match Parse with
  | inl err => inl err
  | inr entries =>
    (* Normalize the search MAC *)
    let mac := strings2.ToLower (strings.ReplaceAll mac (str ":") (str "")) in
    let mac := strings2.ToLower (strings.ReplaceAll mac (str "-") (str "")) in
    let mac := strings2.ToLower (strings.ReplaceAll mac (str ".") (str "")) in
    inr (filter (fun entry =>
                   (* Normalize entry MAC *)
                   let entryMAC :=
                     strings2.ToLower (strings.ReplaceAll (MAC entry) (str ":") (str "")) in
                   string_eqb entryMAC mac) entries)
  end.

End arp.

(** ** Vocabulary of the further properties *)

(** *** Sockets in a history *)

(** The sockets that the calls [evs], made after the history [h],
    opened: one for each [net.ListenUDP] that the operating system
    answered with a connection. *)
Fixpoint sockets_opened `{Platform} (h : history) (evs : list event) : list net.UDPConn :=
  match evs with
  | [] => []
  | e :: rest =>
    match e with
    | CallListenUDP network laddr =>
      match os_ListenUDP h network laddr with
      | inr c => [c]
      | inl _ => []
      end
    | _ => []
    end ++ sockets_opened (h ++ [e]) rest
  end.

(** The sockets written to and the sockets closed, in the order of the calls. *)
Definition sockets_written (evs : list event) : list net.UDPConn :=
  flat_map (fun e => match e with CallWriteToUDP c _ _ => [c] | _ => [] end) evs.
Definition sockets_closed (evs : list event) : list net.UDPConn :=
  flat_map (fun e => match e with CallClose c => [c] | _ => [] end) evs.

(** The writes among the calls [evs], made after the history [h], that
    the operating system accepted: those for which [WriteToUDP] returned
    no error. *)
Fixpoint writes_accepted `{Platform} (h : history) (evs : list event) : list event :=
  match evs with
  | [] => []
  | e :: rest =>
    match e with
    | CallWriteToUDP c b addr =>
      match os_WriteToUDP h c b addr with
      | inr _ => [e]
      | inl _ => []
      end
    | _ => []
    end ++ writes_accepted (h ++ [e]) rest
  end.

(** The calls that only ask about the interfaces. *)
Definition is_lookup (e : event) : bool :=
  match e with CallInterfaceByName _ | CallAddrs _ => true | _ => false end.

(** The errors of [sendPacket] before it has a socket, and all its errors. *)
Definition setup_error (e : error) : bool :=
  match e with
  | InterfaceNotFound _ _ | AddrsFailure _ | NoUsableAddress _
  | SocketErrorOn _ _ | SocketError _ => true
  | _ => false
  end.
Definition transmission_error (e : error) : bool :=
  setup_error e || match e with SendError _ => true | _ => false end.

(** *** Groups of bytes *)

(** [s] cut into groups of [n] bytes, the last one possibly shorter;
    [fuel] bounds the number of groups. *)
Fixpoint groups_of (fuel n : nat) (s : gostring) : list gostring :=
  match fuel, s with
  | S f, _ :: _ => firstn n s :: groups_of f n (skipn n s)
  | _, _ => []
  end.
Definition groups (n : nat) (s : gostring) : list gostring := groups_of (length s) n s.

(** *** Dotted quads *)

(** A decimal digit. *)
Definition is_digit (c : byte) : bool :=
  ((48 <=? byte_val c) && (byte_val c <=? 57))%Z.

(** One to three decimal digits. *)
Definition digit_group (g : gostring) : bool :=
  (1 <=? length g)%nat && (length g <=? 3)%nat && forallb is_digit g.

(** Four groups of one to three digits with dots between them. *)
Definition dotted_quad (s : gostring) : Prop :=
  exists g1 g2 g3 g4,
    s = g1 ++ str "." ++ g2 ++ str "." ++ g3 ++ str "." ++ g4 /\
    forallb digit_group [g1; g2; g3; g4] = true.

(** The digits at the start of [s], at most [n] of them, and the rest. *)
Fixpoint span_digits (n : nat) (s : gostring) : gostring * gostring :=
  match n, s with
  | S n', c :: t =>
    if is_digit c then let '(g, r) := span_digits n' t in (c :: g, r) else ([], s)
  | _, _ => ([], s)
  end.

(** The pattern of [validateDevice] read from left to right. *)
Definition group_then (k : gostring -> bool) (s : gostring) : bool :=
  match span_digits 3 s with
  | ([], _) => false
  | (_ :: _, r) => k r
  end.
Definition dot_then (k : gostring -> bool) (s : gostring) : bool :=
  match s with
  | c :: t => byte_eqb "." c && k t
  | [] => false
  end.
Definition at_end (s : gostring) : bool :=
  match s with [] => true | _ :: _ => false end.
Definition quad_shape (s : gostring) : bool :=
  group_then (dot_then (group_then (dot_then (group_then (dot_then (group_then at_end)))))) s.

(** *** The devices of a store, and sample environments *)

(** The MAC texts of a list of devices. *)
Definition MACs (ds : list store_.Device) : list gostring := map store_.MAC ds.

(** The test of the loops of the store: the device has this MAC text. *)
Definition has_mac (mac : gostring) (d : store_.Device) : bool :=
  string_eqb (store_.MAC d) mac.

(** A device with its MAC text set. *)
Definition with_MAC (mac : gostring) (d : store_.Device) : store_.Device :=
  {| store_.Name := store_.Name d; store_.MAC := mac;
     store_.IP := store_.IP d; store_.Group := store_.Group d |}.

(** The first device that has the MAC text replaced. *)
Fixpoint replace_first (mac : gostring) (new : store_.Device) (ds : list store_.Device)
    : list store_.Device :=
  match ds with
  | [] => []
  | d :: rest => if has_mac mac d then new :: rest else d :: replace_first mac new rest
  end.

(** A file system in which every call succeeds, with some fixed JSON text. *)
Definition sample_fs : store_.FileSystem := {|
  store_.os_Stat := fun _ _ => None;
  store_.os_IsNotExist := fun _ => false;
  store_.os_ReadFile := fun _ _ => inr (str "[]");
  store_.os_MkdirAll := fun _ _ _ => None;
  store_.os_WriteFile := fun _ _ _ _ => None;
  store_.json_Unmarshal := fun _ => inr [];
  store_.json_MarshalIndent := fun devices => inr (str "[]");
|}.

Definition sample_pc : store_.Device :=
  {| store_.Name := str "pc"; store_.MAC := str "AA:BB:CC:DD:EE:FF";
     store_.IP := str "192.168.1.100"; store_.Group := str "" |}.
Definition sample_nas : store_.Device :=
  {| store_.Name := str "nas"; store_.MAC := str "aa-bb-cc-dd-ee-ff";
     store_.IP := str ""; store_.Group := str "lab" |}.
Definition sample_store : store_.Store :=
  {| store_.filePath := str "/data/devices.json"; store_.devices := [Some sample_pc] |}.

(** A decoder that takes the body of the request for the MAC text. *)
Definition sample_decoder : web.Decoder := {|
  web.decode_MAC := fun body => inr body;
  web.decode_Device := fun body =>
    inr {| store_.Name := str "nas"; store_.MAC := body;
           store_.IP := str ""; store_.Group := str "" |};
|}.

Definition sample_handler : web.Handler := {| web.wol := sample_eth0 |}.

(** An error of saving. *)
Definition save_error (e : store_.error) : bool :=
  match e with
  | store_.MkdirFailed _ | store_.MarshalFailed _ | store_.WriteFailed _ => true
  | _ => false
  end.

(** A file system that holds the two sample devices: every call
    succeeds, the file reads as the text that is written to it, and
    that text decodes to the two devices. *)
Definition sample_disk : store_.FileSystem := {|
  store_.os_Stat := fun _ _ => None;
  store_.os_IsNotExist := fun _ => false;
  store_.os_ReadFile := fun _ _ => inr (str "[pc, nas]");
  store_.os_MkdirAll := fun _ _ _ => None;
  store_.os_WriteFile := fun _ _ _ _ => None;
  store_.json_Unmarshal := fun _ => inr [Some sample_pc; Some sample_nas];
  store_.json_MarshalIndent := fun devices => inr (str "[pc, nas]");
|}.

(** Devices that [validateDevice] accepts. *)
Definition valid_devices (ds : list store_.Device) : Prop :=
  Forall (fun d => web.validateDevice d = None) ds.

(** *** Lower case and separators, and a sample table *)

(** ASCII lower case. *)
Definition to_lower (c : byte) : byte :=
  let v := byte_val c in
  if ((65 <=? v) && (v <=? 90))%Z then byte_of (v + 32) else c.

(** The lower-case digit of a value. *)
Definition lower_hex (v : Z) : byte :=
  nth (Z.to_nat v) (str "0123456789abcdef") x00.

(** One of the three separators that [FindByMAC] takes out. *)
Definition is_sep3 (c : byte) : bool :=
  byte_eqb ":" c || byte_eqb "-" c || byte_eqb "." c.

(** A text without white space at its ends, as [parseMAC] sees it. *)
Definition trimmed (s : gostring) : Prop := strings.TrimSpace s = s.

(** Whether a text parses to the bytes [b]. *)
Definition parses_to (b : list byte) (text : gostring) : bool :=
  match parseMAC text with
  | inr b' => net.bytes_eqb b' b
  | inl _ => false
  end.

(** A rune comparison and a mapping that are never right: no property
    below may depend on them. *)
Definition sample_unicode : strings2.Unicode := {|
  strings2.EqualFold_runes := fun _ _ => true;
  strings2.Map_ToLower := fun _ => [];
|}.

(** A table of four lines after the header. *)
Definition sample_table : arp.Table := {|
  arp.scan := fun _ =>
    inr ([str "IP address       HW type     Flags       HW address            Mask     Device";
          str "192.168.1.10     0x1         0x2         aa:bb:cc:dd:ee:ff     *        eth0";
          str "192.168.1.11     0x1         0x0         00:11:22:33:44:55     *        eth0";
          str "127.0.0.1        0x1         0x2         00:11:22:33:44:66     *        lo";
          str "192.168.1.12     0x1         0x2         FF:FF:FF:FF:FF:FF     *        eth0"],
         None);
|}.

(** One turn of the loop of [EqualFold] on the bytes [a] and [b]: [None]
    when the loop is left for the comparison of runes, and otherwise
    whether the bytes are equal under folding. *)
Definition fold_step (a b : byte) : option bool :=
  if (Z.lor (byte_val a) (byte_val b) >=? utf8.RuneSelf)%Z then None
  else if byte_eqb b a then Some true
  else
    let '(sr, tr) := if (byte_val b <? byte_val a)%Z then (b, a) else (a, b) in
    Some ((65 <=? byte_val sr)%Z && (byte_val sr <=? 90)%Z
          && (byte_val tr =? byte_val sr + 97 - 65)%Z).

(** The offsets of [range]: increasing, from [lo] on and below [L]. *)
Fixpoint offsets_from (lo L : Z) (rs : list (Z * Z)) : Prop :=
  match rs with
  | [] => True
  | (e, _) :: rest => (lo <= e < L)%Z /\ offsets_from (e + 1) L rest
  end.

(** A column of a line: bytes of ASCII that are not white space, and at
    least one of them; and what stands between two columns: white space
    of ASCII, at least one byte. *)
Definition column (t : gostring) : Prop := t <> [] /\ forallb plain t = true.
Definition blank (b : gostring) : Prop :=
  b <> [] /\ forallb (fun c => is_ascii c && strings.asciiSpace c) b = true.

(** * Properties *)

(** ** The magic packet *)

Lemma constructMagicPacket_six (a b c d e f : byte) :
  constructMagicPacket [a; b; c; d; e; f] =
  repeat xFF 6 ++ concat (repeat [a; b; c; d; e; f] 16).
Proof. reflexivity. Qed.

Lemma length_six {A} (l : list A) :
  length l = 6%nat -> exists a b c d e f, l = [a; b; c; d; e; f].
Proof.
  destruct l as [|a [|b [|c [|d [|e [|f [|g l]]]]]]]; simpl; try discriminate.
  intros _. now exists a, b, c, d, e, f.
Qed.

(** C1. For every 6-byte MAC, [constructMagicPacket] returns exactly 102
    bytes: indices 0..5 hold 0xFF and, for every [i] in 0..15, indices
    [6+6i .. 6+6i+5] hold the six input bytes in order. *)
Theorem constructMagicPacket_layout (mac : list byte) :
  length mac = 6%nat ->
  let packet := constructMagicPacket mac in
  length packet = 102%nat /\
  (forall k, (k < 6)%nat -> nth_error packet k = Some xFF) /\
  (forall i j, (i < 16)%nat -> (j < 6)%nat ->
     nth_error packet (6 + 6 * i + j) = nth_error mac j) /\
  packet = repeat xFF 6 ++ concat (repeat mac 16).
Proof.
  intros Hlen.
  destruct (length_six mac Hlen) as (a & b & c & d & e & f & ->).
  cbv zeta. rewrite constructMagicPacket_six.
  split; [reflexivity|]. split; [|split; [|reflexivity]].
  - intros k Hk.
    do 6 (destruct k as [|k]; [reflexivity|]). lia.
  - intros i j Hi Hj.
    do 16 (destruct i as [|i];
           [do 6 (destruct j as [|j]; [reflexivity|]); lia|]).
    lia.
Qed.

Lemma constructMagicPacket_layout_witness :
  let mac := map byte_of [170; 187; 204; 221; 238; 255]%Z in
  let packet := constructMagicPacket mac in
  length packet = 102%nat /\
  (forall k, (k < 6)%nat -> nth_error packet k = Some xFF) /\
  (forall i j, (i < 16)%nat -> (j < 6)%nat ->
     nth_error packet (6 + 6 * i + j) = nth_error mac j) /\
  packet = repeat xFF 6 ++ concat (repeat mac 16).
Proof.
  apply (constructMagicPacket_layout (map byte_of [170; 187; 204; 221; 238; 255]%Z)).
  reflexivity.
Defined.

(** ** The pattern [macRegex] *)

(** A property of a single byte is settled by going through the 256
    bytes. *)
Ltac by_byte c :=
  destruct c as [[|] [|] [|] [|] [|] [|] [|] [|]]; vm_compute;
  try reflexivity; try discriminate; try tauto.

Lemma hex_class_spec (c : byte) :
  existsb (regexp.in_range c) [("0", "9"); ("A", "F"); ("a", "f")]%char = is_hex_digit c.
Proof. by_byte c. Qed.

Lemma search_anchored (s : gostring) (r : regexp.Regexp) :
  regexp.search (regexp.Cat regexp.BeginText r) false s = false.
Proof. induction s as [|c s IH]; simpl; auto. Qed.

Lemma MatchString_anchored (r : regexp.Regexp) (s : gostring) :
  regexp.MatchString (regexp.Cat regexp.BeginText r) s
  = regexp.match_here r true s (fun _ _ => true).
Proof.
  unfold regexp.MatchString. destruct s as [|c s]; simpl.
  - now rewrite orb_false_r.
  - now rewrite search_anchored, orb_false_r.
Qed.

Lemma match_hex2 (bot : bool) (s : gostring) (k : bool -> gostring -> bool) :
  regexp.match_here (regexp.Repeat 2 hexClass) bot s k =
  match s with
  | a :: b :: t => is_hex_digit a && (is_hex_digit b && k false t)
  | _ => false
  end.
Proof.
  destruct s as [|a [|b t]]; cbn [regexp.match_here hexClass];
    rewrite ?hex_class_spec, ?andb_false_r; reflexivity.
Qed.

Lemma match_group (bot : bool) (s : gostring) (k : bool -> gostring -> bool) :
  regexp.match_here (regexp.Cat (regexp.Repeat 2 hexClass) (regexp.Lit ":")) bot s k =
  match s with
  | a :: b :: c :: t => is_hex_digit a && (is_hex_digit b && (byte_eqb ":" c && k false t))
  | _ => false
  end.
Proof.
  change (regexp.match_here (regexp.Cat ?r1 ?r2) bot s k)
    with (regexp.match_here r1 bot s (fun bot' s' => regexp.match_here r2 bot' s' k)).
  rewrite match_hex2.
  destruct s as [|a [|b [|c t]]]; cbn [regexp.match_here];
    rewrite ?andb_false_r; reflexivity.
Qed.

Lemma match_Cat r1 r2 bot s k :
  regexp.match_here (regexp.Cat r1 r2) bot s k
  = regexp.match_here r1 bot s (fun bot' s' => regexp.match_here r2 bot' s' k).
Proof. reflexivity. Qed.

Lemma match_Repeat_S n r bot s k :
  regexp.match_here (regexp.Repeat (S n) r) bot s k
  = regexp.match_here r bot s (fun bot' s' => regexp.match_here (regexp.Repeat n r) bot' s' k).
Proof. reflexivity. Qed.

Lemma match_Repeat_O r bot s k :
  regexp.match_here (regexp.Repeat 0 r) bot s k = k bot s.
Proof. reflexivity. Qed.

Lemma macRegex_shape (s : gostring) :
  regexp.MatchString macRegex s = colon_shape s.
Proof.
  unfold macRegex. rewrite MatchString_anchored, match_Cat.
  do 5 (rewrite match_Repeat_S, match_group;
        destruct s as [|? [|? [|? s]]];
        [cbn [colon_shape]; rewrite ?andb_false_r; reflexivity..|]).
  rewrite match_Repeat_O, match_Cat, match_hex2.
  destruct s as [|? [|? s]];
    [cbn [colon_shape forallb]; rewrite ?andb_false_r; reflexivity..|].
  destruct s; cbn [regexp.match_here colon_shape forallb].
  - btauto.
  - rewrite ?andb_false_r. reflexivity.
Qed.

(** ** Bytes and bits *)

Lemma byte_val_range (c : byte) : (0 <= byte_val c < 256)%Z.
Proof.
  unfold byte_val. pose proof (N_ascii_bounded c). lia.
Qed.

Lemma byte_of_val (c : byte) : byte_of (byte_val c) = c.
Proof.
  unfold byte_of, byte_val. pose proof (N_ascii_bounded c).
  rewrite Z.mod_small by lia. rewrite N2Z.id. apply ascii_N_embedding.
Qed.

Lemma byte_val_of (z : Z) : byte_val (byte_of z) = (z mod 256)%Z.
Proof.
  unfold byte_of, byte_val.
  pose proof (Z.mod_pos_bound z 256 eq_refl).
  rewrite N_ascii_embedding by lia. lia.
Qed.

Lemma byte_eqb_eq (a b : byte) : byte_eqb a b = true <-> a = b.
Proof. apply Ascii.eqb_eq. Qed.

Lemma byte_eqb_refl (a : byte) : byte_eqb a a = true.
Proof. apply Ascii.eqb_refl. Qed.

(** ** [strings.Contains] and [strings.ReplaceAll] with a one-byte pattern *)

Lemma HasPrefix_nil (s : gostring) : strings.HasPrefix s [] = true.
Proof. now destruct s. Qed.

Lemma HasPrefix_single (s : gostring) (c : byte) :
  strings.HasPrefix s [c] = match s with x :: _ => byte_eqb c x | [] => false end.
Proof.
  destruct s as [|x s]; [reflexivity|].
  cbn [strings.HasPrefix]. now rewrite HasPrefix_nil, andb_true_r.
Qed.

Lemma Contains_single (s : gostring) (c : byte) :
  strings.Contains s [c] = existsb (byte_eqb c) s.
Proof.
  induction s as [|x s IH]; [reflexivity|].
  cbn [strings.Contains existsb].
  now rewrite IH, HasPrefix_single.
Qed.

Lemma replace_from_single (s : gostring) (o : byte) (new : gostring) :
  strings.replace_from s [o] new 0 =
  flat_map (fun c => if byte_eqb o c then new else [c]) s.
Proof.
  induction s as [|x s IH]; [reflexivity|].
  cbn [strings.replace_from flat_map length Nat.sub].
  rewrite HasPrefix_single, IH. now destruct (byte_eqb o x).
Qed.

Lemma ReplaceAll_single (s : gostring) (o : byte) (new : gostring) :
  strings.ReplaceAll s [o] new =
  flat_map (fun c => if byte_eqb o c then new else [c]) s.
Proof. apply replace_from_single. Qed.

Lemma ReplaceAll_delete (s : gostring) (o : byte) :
  strings.ReplaceAll s [o] [] = filter (fun c => negb (byte_eqb o c)) s.
Proof.
  rewrite ReplaceAll_single.
  induction s as [|x s IH]; [reflexivity|].
  cbn [flat_map filter]. rewrite IH. now destruct (byte_eqb o x).
Qed.

Lemma ReplaceAll_subst (s : gostring) (o n : byte) :
  strings.ReplaceAll s [o] [n] = map (fun c => if byte_eqb o c then n else c) s.
Proof.
  rewrite ReplaceAll_single.
  induction s as [|x s IH]; [reflexivity|].
  cbn [flat_map map]. rewrite IH. now destruct (byte_eqb o x).
Qed.

(** Bitwise or is at least each of its arguments; masks are remainders. *)
Lemma lor_lower_l (a b : Z) : (0 <= b -> a <= Z.lor a b)%Z.
Proof.
  intros Hb. pose proof (Zbitwise.Z.sub_lor_l_same_r b a) as E.
  rewrite Z.lor_comm in E.
  assert (0 <= Z.land b (Z.lnot a))%Z by (apply Z.land_nonneg; auto).
  lia.
Qed.

Lemma lor_lower_r (a b : Z) : (0 <= a -> b <= Z.lor a b)%Z.
Proof. intros. rewrite Z.lor_comm. now apply lor_lower_l. Qed.

Lemma land_63 (x : Z) : Z.land x 63 = (x mod 64)%Z.
Proof. change 63%Z with (Z.ones 6). now rewrite Z.land_ones by lia. Qed.
Lemma land_31 (x : Z) : Z.land x 31 = (x mod 32)%Z.
Proof. change 31%Z with (Z.ones 5). now rewrite Z.land_ones by lia. Qed.
Lemma land_15 (x : Z) : Z.land x 15 = (x mod 16)%Z.
Proof. change 15%Z with (Z.ones 4). now rewrite Z.land_ones by lia. Qed.
Lemma land_7 (x : Z) : Z.land x 7 = (x mod 8)%Z.
Proof. change 7%Z with (Z.ones 3). now rewrite Z.land_ones by lia. Qed.

(** ** UTF-8

    An ASCII byte decodes to itself and is its own encoding; a byte from
    [0x80] on decodes to a rune from U+0080 on, whose encoding has such
    bytes again. *)

Lemma Decode_ascii (c : byte) (t : gostring) :
  is_ascii c = true -> utf8.DecodeRuneInString (c :: t) = (byte_val c, 1%nat).
Proof.
  unfold is_ascii, utf8.DecodeRuneInString, utf8.RuneSelf. now intros ->.
Qed.

Ltac nonneg :=
  repeat first
    [ apply Z.lor_nonneg; split
    | apply Z.shiftl_nonneg
    | apply Z.land_nonneg; right; lia
    | lia ].

Ltac lor_ge :=
  first
    [ solve [ rewrite ?Z.shiftl_mul_pow2 by lia;
              rewrite ?land_31, ?land_15, ?land_7, ?land_63;
              Z.div_mod_to_equations; lia ]
    | eapply Z.le_trans; [|apply lor_lower_l; solve [nonneg]]; lor_ge
    | eapply Z.le_trans; [|apply lor_lower_r; solve [nonneg]]; lor_ge ].

Lemma Decode_nonascii (c : byte) (t : gostring) :
  is_ascii c = false -> (128 <= fst (utf8.DecodeRuneInString (c :: t)))%Z.
Proof.
  unfold is_ascii, utf8.DecodeRuneInString, utf8.RuneSelf. intros ->.
  pose proof (byte_val_range c) as Hc.
  pose proof (byte_val_range (at_ (c :: t) 1)) as H1.
  pose proof (byte_val_range (at_ (c :: t) 2)) as H2.
  pose proof (byte_val_range (at_ (c :: t) 3)) as H3.
  set (s0 := byte_val c) in *. set (s1 := byte_val (at_ (c :: t) 1)) in *.
  set (s2 := byte_val (at_ (c :: t) 2)) in *. set (s3 := byte_val (at_ (c :: t) 3)) in *.
  assert (Hk : forall x, (0 <= Z.land x 63)%Z) by (intro x; rewrite land_63; pose proof (Z.mod_pos_bound x 64 eq_refl); lia).
  assert (Hs : forall x n, (0 <= x -> 0 <= Z.shiftl x n)%Z)
    by (intros; now apply Z.shiftl_nonneg).
  unfold utf8.first, utf8.locb, utf8.hicb, utf8.RuneError.
  repeat match goal with
  | |- context [if ?b then _ else _] =>
    let E := fresh "E" in destruct b eqn:E; cbn [fst snd];
    try (cbn in E; discriminate E); try lia
  end.
  all: repeat match goal with
       | H : (_ && _)%bool = true |- _ => apply andb_prop in H; destruct H
       | H : (_ || _)%bool = false |- _ => apply orb_false_elim in H; destruct H
       | H : (_ <=? _)%Z = true |- _ => apply Z.leb_le in H
       | H : (_ <? _)%Z = false |- _ => apply Z.ltb_ge in H
       | H : (_ =? _)%Z = true |- _ => apply Z.eqb_eq in H
       end.
  all: lor_ge.
Qed.

Lemma Encode_ascii (c : byte) :
  is_ascii c = true -> utf8.EncodeRune (byte_val c) = [c].
Proof.
  unfold is_ascii, utf8.EncodeRune. intros H. apply Z.ltb_lt in H.
  pose proof (byte_val_range c).
  replace ((0 <=? byte_val c)%Z && (byte_val c <=? 127)%Z) with true
    by (symmetry; apply andb_true_intro; split; [apply Z.leb_le|apply Z.leb_le]; lia).
  now rewrite byte_of_val.
Qed.

Lemma low_byte_nonascii (x : Z) :
  is_ascii (byte_of (Z.lor 128 (Z.land x 63))) = false.
Proof.
  unfold is_ascii. rewrite byte_val_of. apply Z.ltb_ge.
  assert (0 <= Z.land x 63 < 64)%Z
    by (rewrite land_63; apply Z.mod_pos_bound; lia).
  assert (128 <= Z.lor 128 (Z.land x 63))%Z by (apply lor_lower_l; lia).
  assert (Z.lor 128 (Z.land x 63) < 256)%Z.
  { pose proof (Zbitwise.Z.add_lor_land 128 (Z.land x 63)).
    assert (0 <= Z.land 128 (Z.land x 63))%Z by (apply Z.land_nonneg; lia).
    lia. }
  rewrite Z.mod_small by lia. lia.
Qed.

Lemma Encode_nonascii (r : Z) :
  (128 <= r)%Z -> existsb (fun b => negb (is_ascii b)) (utf8.EncodeRune r) = true.
Proof.
  intros Hr. unfold utf8.EncodeRune.
  replace ((0 <=? r)%Z && (r <=? 127)%Z) with false
    by (symmetry; apply andb_false_intro2; apply Z.leb_gt; lia).
  repeat match goal with
  | |- context [if ?b then _ else _] => destruct b
  end; cbn [existsb]; rewrite !low_byte_nonascii; cbn [negb];
    rewrite ?orb_true_r; reflexivity.
Qed.

(** Ranging over a string, byte after byte up to the first that is not
    ASCII. *)
Lemma range_from_ascii (c : byte) (t : gostring) (i : Z) :
  is_ascii c = true ->
  utf8.range_from (c :: t) i 0 = (i, byte_val c) :: utf8.range_from t (i + 1) 0.
Proof.
  intros H. cbn [utf8.range_from]. now rewrite (Decode_ascii c t H).
Qed.

Lemma range_from_nonascii (c : byte) (t : gostring) (i : Z) :
  is_ascii c = false ->
  exists r rest, (128 <= r)%Z /\ utf8.range_from (c :: t) i 0 = (i, r) :: rest.
Proof.
  intros H. cbn [utf8.range_from].
  pose proof (Decode_nonascii c t H) as Hr.
  destruct (utf8.DecodeRuneInString (c :: t)) as [r size]. cbn [fst] in Hr.
  eauto.
Qed.

(** ** [insertColons] *)

Lemma insertColons_fold (n : Z) (l : list (Z * Z)) (acc : gostring) :
  fold_left
    (fun result ir =>
       let '(i, r) := ir in
       let result :=
         if (i >? 0)%Z && (Z.rem i n =? 0)%Z then result ++ str ":" else result in
       result ++ utf8.EncodeRune r) l acc
  = acc ++ flat_map (colon_piece n) l.
Proof.
  revert acc. induction l as [|[i r] l IH]; intros acc; cbn [fold_left flat_map].
  - now rewrite app_nil_r.
  - rewrite IH. unfold colon_piece at 2. cbn [fst snd].
    destruct ((i >? 0)%Z && (Z.rem i n =? 0)%Z);
      now rewrite <- ?app_assoc.
Qed.

Lemma insertColons_flat_map (s : gostring) (n : Z) :
  insertColons s n = flat_map (colon_piece n) (utf8.range s).
Proof. unfold insertColons. now rewrite insertColons_fold. Qed.

Lemma insertColons_ascii_from (n i : Z) (s : gostring) :
  forallb is_ascii s = true ->
  flat_map (colon_piece n) (utf8.range_from s i 0) = colons_from n i s.
Proof.
  revert i. induction s as [|c t IH]; intros i H; [reflexivity|].
  cbn [forallb] in H. apply andb_prop in H. destruct H as [Hc Ht].
  rewrite (range_from_ascii c t i Hc). cbn [flat_map colons_from].
  rewrite (IH _ Ht). unfold colon_piece. cbn [fst snd].
  rewrite (Encode_ascii c Hc).
  now destruct ((i >? 0)%Z && (Z.rem i n =? 0)%Z).
Qed.

Lemma insertColons_ascii (s : gostring) (n : Z) :
  forallb is_ascii s = true -> insertColons s n = colons_from n 0 s.
Proof.
  intros H. rewrite insertColons_flat_map. now apply insertColons_ascii_from.
Qed.

Lemma insertColons_nonascii_from (n i : Z) (s : gostring) :
  forallb is_ascii s = false ->
  forallb is_ascii (flat_map (colon_piece n) (utf8.range_from s i 0)) = false.
Proof.
  revert i. induction s as [|c t IH]; intros i H; [discriminate|].
  cbn [forallb] in H. destruct (is_ascii c) eqn:Hc.
  - rewrite (range_from_ascii c t i Hc). cbn [flat_map].
    rewrite forallb_app, (IH _ H). apply andb_false_r.
  - destruct (range_from_nonascii c t i Hc) as (r & rest & Hr & ->).
    cbn [flat_map]. unfold colon_piece at 1. cbn [fst snd].
    rewrite !forallb_app.
    pose proof (Encode_nonascii r Hr) as He.
    assert (forallb is_ascii (utf8.EncodeRune r) = false) as ->.
    { clear -He. induction (utf8.EncodeRune r) as [|b l IHl]; [discriminate|].
      cbn [existsb forallb] in *. destruct (is_ascii b); [|reflexivity].
      cbn [negb orb andb] in *. auto. }
    now rewrite andb_false_r.
Qed.

Lemma insertColons_nonascii (s : gostring) (n : Z) :
  forallb is_ascii s = false -> forallb is_ascii (insertColons s n) = false.
Proof.
  intros H. rewrite insertColons_flat_map. now apply insertColons_nonascii_from.
Qed.

Lemma hex_is_ascii (c : byte) : is_hex_digit c = true -> is_ascii c = true.
Proof. by_byte c. Qed.

Lemma colon_is_ascii (c : byte) : byte_eqb ":" c = true -> is_ascii c = true.
Proof. by_byte c. Qed.

Lemma colon_shape_ascii (s : gostring) :
  colon_shape s = true -> forallb is_ascii s = true.
Proof.
  do 18 (destruct s as [|? s]; try discriminate).
  cbn [colon_shape forallb]. intros H.
  repeat match goal with
  | H : (_ && _)%bool = true |- _ => apply andb_prop in H; destruct H
  end.
  repeat match goal with
  | H : is_hex_digit _ = true |- _ => apply hex_is_ascii in H; rewrite H; clear H
  | H : byte_eqb ":" _ = true |- _ => apply colon_is_ascii in H; rewrite H; clear H
  end.
  reflexivity.
Qed.

Lemma colon_shape_colons (s : gostring) :
  colon_shape (colons_from 2 0 s) = (length s =? 12)%nat && forallb is_hex_digit s.
Proof.
  do 13 (destruct s as [|? s];
         [cbn -[is_hex_digit]; rewrite ?andb_false_r; first [reflexivity|btauto]|]).
  cbn -[is_hex_digit]. rewrite ?andb_false_r.
  destruct s; reflexivity.
Qed.

Lemma colon_shape_insertColons (s : gostring) :
  colon_shape (insertColons s 2) = (length s =? 12)%nat && forallb is_hex_digit s.
Proof.
  destruct (forallb is_ascii s) eqn:Ha.
  - rewrite insertColons_ascii by assumption. apply colon_shape_colons.
  - pose proof (insertColons_nonascii s 2 Ha) as Hn.
    destruct (colon_shape (insertColons s 2)) eqn:Hs.
    + apply colon_shape_ascii in Hs. congruence.
    + symmetry. apply andb_false_intro2.
      destruct (forallb is_hex_digit s) eqn:Hh; [|reflexivity].
      exfalso. rewrite forallb_forall in Hh.
      assert (forallb is_ascii s = true); [|congruence].
      apply forallb_forall. intros x Hx. apply hex_is_ascii. auto.
Qed.

(** ** The normalized text and the pattern *)

Lemma hex_not_dash (c : byte) : is_hex_digit c = true -> byte_eqb "-" c = false.
Proof. by_byte c. Qed.
Lemma hex_not_colon (c : byte) : is_hex_digit c = true -> byte_eqb ":" c = false.
Proof. by_byte c. Qed.
Lemma hex_not_dot (c : byte) : is_hex_digit c = true -> byte_eqb "." c = false.
Proof. by_byte c. Qed.

Lemma dash_to_colon_hex (c : byte) :
  is_hex_digit (if byte_eqb "-" c then ":"%char else c) = is_hex_digit c.
Proof. by_byte c. Qed.

Lemma dash_to_colon_sep (c : byte) :
  byte_eqb ":" (if byte_eqb "-" c then ":"%char else c) = is_sep c.
Proof. by_byte c. Qed.

Lemma colon_shape_dashes (t : gostring) :
  colon_shape (strings.ReplaceAll t (str "-") (str ":")) = six_pairs t.
Proof.
  change (str "-") with ["-"%char]. change (str ":") with [":"%char].
  rewrite ReplaceAll_subst.
  do 18 (destruct t as [|? t]; try reflexivity).
  cbn [map colon_shape six_pairs forallb].
  now rewrite !dash_to_colon_hex, !dash_to_colon_sep.
Qed.

Lemma digits_in_hex (c : byte) (s : gostring) :
  is_hex_digit c = true -> digits_in (c :: s) = c :: digits_in s.
Proof.
  intros H. unfold digits_in. cbn [filter]. now rewrite (hex_not_colon c H).
Qed.

Lemma digits_in_colon (s : gostring) : digits_in (":"%char :: s) = digits_in s.
Proof. reflexivity. Qed.

Ltac digits_in_step :=
  repeat first [ rewrite digits_in_colon | rewrite digits_in_hex by assumption ].

Lemma relaxed_notation_spec (text : gostring) :
  relaxed_notation text = colon_shape (normalized text).
Proof.
  unfold relaxed_notation, normalized.
  change (str ".") with ["."%char]. change (str "") with (@nil ascii).
  rewrite Contains_single.
  destruct (existsb (byte_eqb ".") (strings.TrimSpace text)).
  - now rewrite colon_shape_insertColons, ReplaceAll_delete.
  - now rewrite colon_shape_dashes.
Qed.

Lemma colon_shape_inv (s : gostring) :
  colon_shape s = true ->
  hex_digits (digits_in s) /\ s = colon_form (digits_in s).
Proof.
  do 18 (destruct s as [|? s]; try discriminate).
  cbn [colon_shape forallb]. intros H.
  repeat match goal with
  | H : (_ && _)%bool = true |- _ => apply andb_prop in H; destruct H
  end.
  repeat match goal with
  | H : byte_eqb ":" ?c = true |- _ => apply byte_eqb_eq in H; subst c
  end.
  digits_in_step. change (digits_in []) with (@nil ascii).
  split; [split; [reflexivity|]|reflexivity].
  repeat constructor; assumption.
Qed.

Lemma hex_digits_inv (d : gostring) :
  hex_digits d ->
  exists a1 a2 b1 b2 c1 c2 d1 d2 e1 e2 f1 f2,
    d = [a1; a2; b1; b2; c1; c2; d1; d2; e1; e2; f1; f2] /\
    forallb is_hex_digit d = true.
Proof.
  intros [Hl Hf].
  do 13 (destruct d as [|? d]; try discriminate Hl).
  do 12 eexists. split; [reflexivity|].
  apply forallb_forall. now apply Forall_forall.
Qed.

Ltac split_andb :=
  repeat match goal with
  | H : (_ && _)%bool = true |- _ => apply andb_prop in H; destruct H
  end.

Lemma colon_form_shape (d : gostring) :
  hex_digits d -> colon_shape (colon_form d) = true /\ digits_in (colon_form d) = d.
Proof.
  intros Hd. destruct (hex_digits_inv d Hd) as (a1&a2&b1&b2&c1&c2&d1&d2&e1&e2&f1&f2&->&H).
  cbn [forallb] in H. split_andb.
  change (colon_form [a1; a2; b1; b2; c1; c2; d1; d2; e1; e2; f1; f2])
    with [a1; a2; ":"%char; b1; b2; ":"%char; c1; c2; ":"%char;
          d1; d2; ":"%char; e1; e2; ":"%char; f1; f2].
  split.
  - cbn [colon_shape forallb].
    repeat match goal with H : is_hex_digit _ = true |- _ => rewrite H; clear H end.
    reflexivity.
  - digits_in_step. reflexivity.
Qed.

(** ** Decoding the digits *)

Lemma reverseHexTable_hex_b (c : byte) :
  is_hex_digit c = true ->
  ((hex.reverseHexTable c =? digit_value c) && (0 <=? digit_value c)
   && (digit_value c <=? 15))%Z = true.
Proof. by_byte c. Qed.

Lemma reverseHexTable_hex (c : byte) :
  is_hex_digit c = true ->
  hex.reverseHexTable c = digit_value c /\ (0 <= digit_value c <= 15)%Z.
Proof.
  intros H. apply reverseHexTable_hex_b in H. split_andb.
  apply Z.eqb_eq in H. apply Z.leb_le in H0, H1. auto.
Qed.

Lemma lor_shiftl_4 (a b : Z) :
  (0 <= a <= 15 -> 0 <= b <= 15 -> Z.lor (Z.shiftl a 4) b = 16 * a + b)%Z.
Proof.
  intros Ha Hb.
  assert (Z.land (Z.shiftl a 4) b = 0)%Z as E.
  { apply Z.bits_inj'. intros n Hn. rewrite Z.land_spec, Z.bits_0.
    destruct (Z.ltb_spec n 4).
    - rewrite Z.shiftl_spec_low by lia. reflexivity.
    - apply andb_false_intro2.
      destruct (Z.eq_dec b 0) as [->|]; [apply Z.bits_0|].
      apply Z.bits_above_log2; [lia|].
      assert (Z.log2 b < 4)%Z
        by (apply Z.log2_lt_pow2; [lia|change (2 ^ 4)%Z with 16%Z; lia]).
      lia. }
  pose proof (Zbitwise.Z.add_lor_land (Z.shiftl a 4) b) as H.
  rewrite E in H. rewrite Z.shiftl_mul_pow2 in * by lia.
  change (2 ^ 4)%Z with 16%Z in *. lia.
Qed.

Lemma Decode_pair (h l : byte) (rest : gostring) :
  is_hex_digit h = true -> is_hex_digit l = true ->
  hex.Decode (h :: l :: rest) =
  (byte_of (16 * digit_value h + digit_value l) :: fst (hex.Decode rest),
   snd (hex.Decode rest)).
Proof.
  intros Hh Hl.
  destruct (reverseHexTable_hex h Hh) as [Eh Rh].
  destruct (reverseHexTable_hex l Hl) as [El Rl].
  cbn [hex.Decode]. rewrite Eh, El.
  replace (digit_value h >? 15)%Z with false by (symmetry; rewrite Z.gtb_ltb; apply Z.ltb_ge; lia).
  replace (digit_value l >? 15)%Z with false by (symmetry; rewrite Z.gtb_ltb; apply Z.ltb_ge; lia).
  rewrite lor_shiftl_4 by assumption.
  now destruct (hex.Decode rest).
Qed.

Lemma DecodeString_digits (d : gostring) :
  hex_digits d ->
  hex.DecodeString d = (octets (map digit_value d), None).
Proof.
  intros Hd. destruct (hex_digits_inv d Hd) as (a1&a2&b1&b2&c1&c2&d1&d2&e1&e2&f1&f2&->&H).
  cbn [forallb] in H. split_andb. unfold hex.DecodeString.
  repeat (rewrite Decode_pair by assumption; cbn [fst snd]).
  reflexivity.
Qed.

Lemma octets_length (d : gostring) :
  hex_digits d -> length (octets (map digit_value d)) = 6%nat.
Proof.
  intros Hd. destruct (hex_digits_inv d Hd) as (a1&a2&b1&b2&c1&c2&d1&d2&e1&e2&f1&f2&->&_).
  reflexivity.
Qed.

(** [parseMAC], read as one test on the normalized text. *)
Lemma parseMAC_normalized (mac : gostring) :
  parseMAC mac =
  if colon_shape (normalized mac)
  then inr (octets (map digit_value (digits_in (normalized mac))))
  else inl (InvalidFormat (normalized mac)).
Proof.
  unfold parseMAC. fold (normalized mac). rewrite macRegex_shape.
  destruct (colon_shape (normalized mac)) eqn:Hs; cbn [negb]; [|reflexivity].
  destruct (colon_shape_inv _ Hs) as [Hd _].
  change (str ":") with [":"%char]. change (str "") with (@nil ascii).
  rewrite ReplaceAll_delete. fold (digits_in (normalized mac)).
  now rewrite (DecodeString_digits _ Hd).
Qed.

Lemma ValidateMAC_normalized (mac : gostring) :
  ValidateMAC mac =
  if colon_shape (normalized mac) then None
  else Some (InvalidFormat (normalized mac)).
Proof.
  unfold ValidateMAC. fold (normalized mac). rewrite macRegex_shape.
  now destruct (colon_shape (normalized mac)).
Qed.

(** ** White space *)

Ltac in_list := cbn [In space_runes]; repeat first [left; reflexivity | right].

Lemma IsSpace_In (r : Z) : unicode.IsSpace r = true -> In r space_runes.
Proof.
  unfold unicode.IsSpace. intros H.
  destruct ((0 <=? r)%Z && (r <=? 255)%Z).
  - repeat (apply orb_prop in H; destruct H as [H|H]);
      apply Z.eqb_eq in H; subst r; in_list.
  - repeat (apply orb_prop in H; destruct H as [H|H]);
      try (apply Z.eqb_eq in H; subst r; in_list).
    apply andb_prop in H. destruct H as [H1 H2].
    apply Z.leb_le in H1, H2.
    assert (r = 8192 \/ r = 8193 \/ r = 8194 \/ r = 8195 \/ r = 8196 \/ r = 8197 \/
            r = 8198 \/ r = 8199 \/ r = 8200 \/ r = 8201 \/ r = 8202)%Z as Hr by lia.
    repeat (destruct Hr as [->|Hr]; [in_list|]). subst r. in_list.
Qed.

Ltac each_space H :=
  apply IsSpace_In in H; cbn [space_runes In] in H;
  repeat (destruct H as [H|H]; [subst|]); [..|contradiction].

Lemma range_from_space (r : Z) (rest : gostring) (i : Z) :
  unicode.IsSpace r = true ->
  utf8.range_from (utf8.EncodeRune r ++ rest) i 0 =
  (i, r) :: utf8.range_from rest (i + Z.of_nat (length (utf8.EncodeRune r))) 0.
Proof.
  intros H. each_space H.
  all: match goal with |- context [utf8.EncodeRune ?r] =>
         let e := eval vm_compute in (utf8.EncodeRune r) in
         change (utf8.EncodeRune r) with e end.
  all: cbn [app length utf8.range_from].
  all: match goal with |- context [utf8.DecodeRuneInString ?s] =>
         let d := eval cbn in (utf8.DecodeRuneInString s) in
         change (utf8.DecodeRuneInString s) with d end.
  all: cbn [Nat.sub]; do 2 f_equal; lia.
Qed.

Lemma hex_plain (c : byte) : is_hex_digit c = true -> plain c = true.
Proof. by_byte c. Qed.

Lemma plain_inv (c : byte) :
  plain c = true ->
  is_ascii c = true /\ strings.asciiSpace c = false /\ unicode.IsSpace (byte_val c) = false.
Proof.
  unfold plain. intros H. split_andb.
  repeat split; auto; now apply negb_true_iff.
Qed.

Lemma find_nonspace (rs : list Z) (c : byte) (rest : gostring) (i : Z) :
  forallb unicode.IsSpace rs = true -> plain c = true ->
  find (fun ir => Bool.eqb (unicode.IsSpace (snd ir)) false)
       (utf8.range_from (enc rs ++ c :: rest) i 0)
  = Some ((i + Z.of_nat (length (enc rs)))%Z, byte_val c).
Proof.
  intros Hrs Hc. destruct (plain_inv c Hc) as (Ha & _ & Hn).
  revert i Hrs. induction rs as [|r rs IH]; intros i Hrs.
  - cbn [enc flat_map app length]. rewrite (range_from_ascii c rest i Ha).
    cbn [find snd]. rewrite Hn. cbn. do 2 f_equal. lia.
  - cbn [forallb] in Hrs. apply andb_prop in Hrs. destruct Hrs as [Hr Hrs].
    cbn [enc flat_map]. fold (enc rs). rewrite <- app_assoc.
    rewrite (range_from_space r _ i Hr). cbn [find snd]. rewrite Hr. cbn [Bool.eqb].
    rewrite (IH _ Hrs). rewrite length_app. do 2 f_equal. lia.
Qed.

Lemma TrimLeftFunc_spaces (rs : list Z) (c : byte) (rest : gostring) :
  forallb unicode.IsSpace rs = true -> plain c = true ->
  strings.TrimLeftFunc (enc rs ++ c :: rest) unicode.IsSpace = c :: rest.
Proof.
  intros Hrs Hc. unfold strings.TrimLeftFunc, strings.indexFunc, utf8.range.
  rewrite (find_nonspace rs c rest 0 Hrs Hc).
  replace (0 + Z.of_nat (length (enc rs)) =? -1)%Z with false
    by (symmetry; apply Z.eqb_neq; lia).
  replace (Z.to_nat (0 + Z.of_nat (length (enc rs)))) with (length (enc rs) + 0)%nat by lia.
  now rewrite skipn_app, skipn_all2, Nat.add_comm, Nat.add_sub by lia.
Qed.

(** The last rune of a text that ends with the encoding of a space. *)

Lemma at_app (x l : gostring) (k : nat) (i : nat) :
  i = (length x + k)%nat -> at_ (x ++ l) i = at_ l k.
Proof.
  intros ->. unfold at_. rewrite app_nth2 by lia. f_equal. lia.
Qed.

Lemma skipn_app_at (x l : gostring) (i : nat) :
  i = length x -> skipn i (x ++ l) = l.
Proof.
  intros ->. rewrite skipn_app, skipn_all, Nat.sub_diag. reflexivity.
Qed.

Lemma DecodeLast_app1 (x : gostring) (b : byte) :
  is_ascii b = true ->
  utf8.DecodeLastRuneInString (x ++ [b]) = (byte_val b, 1%nat).
Proof.
  intros Hb. unfold utf8.DecodeLastRuneInString.
  rewrite length_app. cbn [length].
  replace (Z.of_nat (length x + 1) =? 0)%Z with false by (symmetry; apply Z.eqb_neq; lia).
  rewrite (at_app x [b] 0) by lia. cbn [at_ nth].
  unfold is_ascii in Hb. unfold utf8.RuneSelf. now rewrite Hb.
Qed.

Lemma DecodeLast_app2 (x : gostring) (b0 b1 : byte) :
  is_ascii b1 = false -> utf8.RuneStart b0 = true ->
  utf8.DecodeLastRuneInString (x ++ [b0; b1]) =
  let '(r, size) := utf8.DecodeRuneInString [b0; b1] in
  if negb (size =? 2)%nat then (utf8.RuneError, 1%nat) else (r, size).
Proof.
  intros Hb H0. unfold utf8.DecodeLastRuneInString.
  rewrite length_app. cbn [length].
  set (e := Z.of_nat (length x + 2)).
  assert (He : e = (Z.of_nat (length x) + 2)%Z) by lia.
  replace (e =? 0)%Z with false by (symmetry; apply Z.eqb_neq; lia).
  rewrite (at_app x [b0; b1] 1) by lia. cbn [at_ nth].
  unfold is_ascii in Hb. unfold utf8.RuneSelf. rewrite Hb.
  set (lim := if (e - Z.of_nat utf8.UTFMax <? 0)%Z then 0%Z else (e - Z.of_nat utf8.UTFMax)%Z).
  assert (Hlim : (lim <= e - 1 - 1)%Z).
  { subst lim. unfold utf8.UTFMax. destruct (Z.ltb_spec (e - Z.of_nat 4) 0); lia. }
  change utf8.UTFMax with 4%nat. cbn [utf8.back_to_start].
  replace (e - 1 - 1 >=? lim)%Z with true by (symmetry; apply Z.geb_le; lia).
  rewrite (at_app x [b0; b1] 0) by lia. cbn [at_ nth]. rewrite H0.
  replace (e - 1 - 1 <? 0)%Z with false by (symmetry; apply Z.ltb_ge; lia).
  rewrite skipn_app_at by lia.
  destruct (utf8.DecodeRuneInString [b0; b1]) as [r size].
  replace (e - 1 - 1 + Z.of_nat size =? e)%Z with (size =? 2)%nat; [reflexivity|].
  destruct (Nat.eqb_spec size 2); symmetry; [apply Z.eqb_eq|apply Z.eqb_neq]; lia.
Qed.

Lemma DecodeLast_app3 (x : gostring) (b0 b1 b2 : byte) :
  is_ascii b2 = false -> utf8.RuneStart b1 = false -> utf8.RuneStart b0 = true ->
  utf8.DecodeLastRuneInString (x ++ [b0; b1; b2]) =
  let '(r, size) := utf8.DecodeRuneInString [b0; b1; b2] in
  if negb (size =? 3)%nat then (utf8.RuneError, 1%nat) else (r, size).
Proof.
  intros Hb H1 H0. unfold utf8.DecodeLastRuneInString.
  rewrite length_app. cbn [length].
  set (e := Z.of_nat (length x + 3)).
  assert (He : e = (Z.of_nat (length x) + 3)%Z) by lia.
  replace (e =? 0)%Z with false by (symmetry; apply Z.eqb_neq; lia).
  rewrite (at_app x [b0; b1; b2] 2) by lia. cbn [at_ nth].
  unfold is_ascii in Hb. unfold utf8.RuneSelf. rewrite Hb.
  set (lim := if (e - Z.of_nat utf8.UTFMax <? 0)%Z then 0%Z else (e - Z.of_nat utf8.UTFMax)%Z).
  assert (Hlim : (lim <= e - 1 - 1 - 1)%Z).
  { subst lim. unfold utf8.UTFMax. destruct (Z.ltb_spec (e - Z.of_nat 4) 0); lia. }
  change utf8.UTFMax with 4%nat. cbn [utf8.back_to_start].
  replace (e - 1 - 1 >=? lim)%Z with true by (symmetry; apply Z.geb_le; lia).
  rewrite (at_app x [b0; b1; b2] 1) by lia. cbn [at_ nth]. rewrite H1.
  replace (e - 1 - 1 - 1 >=? lim)%Z with true by (symmetry; apply Z.geb_le; lia).
  rewrite (at_app x [b0; b1; b2] 0) by lia. cbn [at_ nth]. rewrite H0.
  replace (e - 1 - 1 - 1 <? 0)%Z with false by (symmetry; apply Z.ltb_ge; lia).
  rewrite skipn_app_at by lia.
  destruct (utf8.DecodeRuneInString [b0; b1; b2]) as [r size].
  replace (e - 1 - 1 - 1 + Z.of_nat size =? e)%Z with (size =? 3)%nat; [reflexivity|].
  destruct (Nat.eqb_spec size 3); symmetry; [apply Z.eqb_eq|apply Z.eqb_neq]; lia.
Qed.

Lemma DecodeLast_space (x : gostring) (r : Z) :
  unicode.IsSpace r = true ->
  utf8.DecodeLastRuneInString (x ++ utf8.EncodeRune r)
  = (r, length (utf8.EncodeRune r)).
Proof.
  intros H. each_space H.
  all: match goal with |- context [utf8.EncodeRune ?r] =>
         let e := eval vm_compute in (utf8.EncodeRune r) in
         change (utf8.EncodeRune r) with e end.
  all: first [ rewrite DecodeLast_app1 by reflexivity
             | rewrite DecodeLast_app2 by reflexivity
             | rewrite DecodeLast_app3 by reflexivity ].
  all: reflexivity.
Qed.

Lemma enc_app (rs1 rs2 : list Z) : enc (rs1 ++ rs2) = enc rs1 ++ enc rs2.
Proof. unfold enc. apply flat_map_app. Qed.

Lemma enc_single (r : Z) : enc [r] = utf8.EncodeRune r.
Proof. unfold enc. cbn. apply app_nil_r. Qed.

Lemma firstn_app_at {A} (x l : list A) (i : nat) :
  i = length x -> firstn i (x ++ l) = x.
Proof.
  intros ->. rewrite firstn_app, firstn_all, Nat.sub_diag. cbn. apply app_nil_r.
Qed.

Lemma Encode_space_length (r : Z) :
  unicode.IsSpace r = true -> (1 <= length (utf8.EncodeRune r))%nat.
Proof. intros H. each_space H; vm_compute; lia. Qed.

Lemma lastIndex_spaces (rs : list Z) :
  forall (pre : gostring) (c : byte) (tail : gostring) (fuel : nat),
  forallb unicode.IsSpace rs = true -> plain c = true -> (length rs < fuel)%nat ->
  strings.lastIndexFunc_loop fuel (pre ++ [c] ++ enc rs ++ tail) unicode.IsSpace false
    (Z.of_nat (length (pre ++ [c] ++ enc rs)))
  = Z.of_nat (length pre).
Proof.
  induction rs as [|r rs IH] using rev_ind; intros pre c tail fuel Hrs Hc Hf.
  - destruct (plain_inv c Hc) as (Ha & _ & Hn).
    destruct fuel as [|fuel]; [cbn in Hf; lia|].
    cbn [enc flat_map]. rewrite app_nil_r. cbn [app strings.lastIndexFunc_loop].
    replace (pre ++ c :: tail) with ((pre ++ [c]) ++ tail) by (now rewrite <- app_assoc).
    rewrite length_app. cbn [length].
    replace (Z.of_nat (length pre + 1) >? 0)%Z with true by (symmetry; apply Z.gtb_lt; lia).
    rewrite firstn_app_at by (rewrite length_app; cbn [length]; lia).
    rewrite (DecodeLast_app1 pre c Ha). cbv beta iota. rewrite Hn. cbn [Bool.eqb]. lia.
  - rewrite forallb_app in Hrs. apply andb_prop in Hrs. destruct Hrs as [Hrs Hr].
    cbn [forallb] in Hr. rewrite andb_true_r in Hr.
    rewrite length_app in Hf. cbn [length] in Hf.
    destruct fuel as [|fuel]; [lia|].
    rewrite enc_app, enc_single.
    pose proof (Encode_space_length r Hr) as Hl.
    cbn [strings.lastIndexFunc_loop].
    set (i := Z.of_nat (length (pre ++ [c] ++ enc rs ++ utf8.EncodeRune r))).
    assert (Hi : i = (Z.of_nat (length (pre ++ [c] ++ enc rs))
                      + Z.of_nat (length (utf8.EncodeRune r)))%Z).
    { subst i. rewrite !length_app. lia. }
    replace (i >? 0)%Z with true by (symmetry; apply Z.gtb_lt; lia).
    replace (pre ++ [c] ++ (enc rs ++ utf8.EncodeRune r) ++ tail)
      with ((pre ++ [c] ++ enc rs ++ utf8.EncodeRune r) ++ tail)
      by (now rewrite <- !app_assoc).
    rewrite firstn_app_at by (subst i; lia).
    replace (pre ++ [c] ++ enc rs ++ utf8.EncodeRune r)
      with ((pre ++ [c] ++ enc rs) ++ utf8.EncodeRune r)
      by (now rewrite <- !app_assoc).
    rewrite (DecodeLast_space _ r Hr). rewrite Hr. cbn [Bool.eqb].
    replace (i - Z.of_nat (length (utf8.EncodeRune r)))%Z
      with (Z.of_nat (length (pre ++ [c] ++ enc rs))) by lia.
    replace (((pre ++ [c] ++ enc rs) ++ utf8.EncodeRune r) ++ tail)
      with (pre ++ [c] ++ enc rs ++ (utf8.EncodeRune r ++ tail))
      by (now rewrite <- !app_assoc).
    apply IH; auto. lia.
Qed.

Lemma enc_length (rs : list Z) :
  forallb unicode.IsSpace rs = true -> (length rs <= length (enc rs))%nat.
Proof.
  induction rs as [|r rs IH]; intros H; [cbn; lia|].
  cbn [forallb] in H. apply andb_prop in H. destruct H as [Hr Hrs].
  cbn [enc flat_map length]. fold (enc rs). rewrite length_app.
  pose proof (Encode_space_length r Hr). specialize (IH Hrs). lia.
Qed.

Lemma TrimRightFunc_spaces (rs : list Z) (pre : gostring) (c : byte) :
  forallb unicode.IsSpace rs = true -> plain c = true ->
  strings.TrimRightFunc (pre ++ [c] ++ enc rs) unicode.IsSpace = pre ++ [c].
Proof.
  intros Hrs Hc. unfold strings.TrimRightFunc, strings.lastIndexFunc.
  pose proof (lastIndex_spaces rs pre c [] (length (pre ++ [c] ++ enc rs)) Hrs Hc) as H.
  rewrite !app_nil_r in H. rewrite H.
  2:{ pose proof (enc_length rs Hrs). rewrite !length_app. cbn [length]. lia. }
  destruct (plain_inv c Hc) as (Ha & _ & _).
  replace (Z.of_nat (length pre) >=? 0)%Z with true by (symmetry; apply Z.geb_le; lia).
  rewrite Nat2Z.id. rewrite (at_app pre _ 0) by lia. cbn [app at_ nth].
  unfold is_ascii in Ha. unfold utf8.RuneSelf.
  replace (byte_val c >=? 128)%Z with false
    by (symmetry; rewrite Z.geb_leb; apply Z.leb_gt; now apply Z.ltb_lt).
  cbn [andb].
  replace (Z.to_nat (Z.of_nat (length pre) + 1)) with (length (pre ++ [c]))
    by (rewrite length_app; cbn [length]; lia).
  replace (pre ++ c :: enc rs) with ((pre ++ [c]) ++ enc rs) by (now rewrite <- app_assoc).
  now apply firstn_app_at.
Qed.

Lemma TrimFunc_spaces (rs1 rs2 : list Z) (pre : gostring) (c c' : byte) :
  forallb unicode.IsSpace rs1 = true -> forallb unicode.IsSpace rs2 = true ->
  plain c = true -> plain c' = true ->
  strings.TrimFunc (enc rs1 ++ (c :: pre ++ [c']) ++ enc rs2) unicode.IsSpace
  = c :: pre ++ [c'].
Proof.
  intros H1 H2 Hc Hc'. unfold strings.TrimFunc.
  cbn [app]. rewrite (TrimLeftFunc_spaces rs1 c _ H1 Hc).
  replace (c :: (pre ++ [c']) ++ enc rs2) with ((c :: pre) ++ [c'] ++ enc rs2)
    by (cbn [app]; now rewrite <- app_assoc).
  now rewrite (TrimRightFunc_spaces rs2 (c :: pre) c' H2 Hc').
Qed.

(** The two loops of [TrimSpace]. *)

Lemma is_ascii_geb (b : byte) : (byte_val b >=? utf8.RuneSelf)%Z = negb (is_ascii b).
Proof.
  unfold is_ascii, utf8.RuneSelf. rewrite Z.geb_leb.
  destruct (Z.ltb_spec (byte_val b) 128); [apply Z.leb_gt|apply Z.leb_le]; lia.
Qed.

Lemma TrimSpace_start_space (b : byte) (s : gostring) :
  is_ascii b = true -> strings.asciiSpace b = true ->
  strings.TrimSpace_start (b :: s) = strings.TrimSpace_start s.
Proof. intros Ha Hs. cbn [strings.TrimSpace_start]. now rewrite is_ascii_geb, Ha, Hs. Qed.

Lemma TrimSpace_start_high (b : byte) (s : gostring) :
  is_ascii b = false ->
  strings.TrimSpace_start (b :: s) = inl (strings.TrimFunc (b :: s) unicode.IsSpace).
Proof. intros Ha. cbn [strings.TrimSpace_start]. now rewrite is_ascii_geb, Ha. Qed.

Lemma TrimSpace_start_plain (c : byte) (s : gostring) :
  plain c = true -> strings.TrimSpace_start (c :: s) = inr (c :: s).
Proof.
  intros Hc. destruct (plain_inv c Hc) as (Ha & Hs & _).
  cbn [strings.TrimSpace_start]. now rewrite is_ascii_geb, Ha, Hs.
Qed.

Lemma TrimSpace_stop_space (b : byte) (s : gostring) :
  is_ascii b = true -> strings.asciiSpace b = true ->
  strings.TrimSpace_stop (b :: s) = strings.TrimSpace_stop s.
Proof. intros Ha Hs. cbn [strings.TrimSpace_stop]. now rewrite is_ascii_geb, Ha, Hs. Qed.

Lemma TrimSpace_stop_high (b : byte) (s : gostring) :
  is_ascii b = false ->
  strings.TrimSpace_stop (b :: s) = strings.TrimRightFunc (rev (b :: s)) unicode.IsSpace.
Proof. intros Ha. cbn [strings.TrimSpace_stop]. now rewrite is_ascii_geb, Ha. Qed.

Lemma TrimSpace_stop_plain (c : byte) (s : gostring) :
  plain c = true -> strings.TrimSpace_stop (c :: s) = rev (c :: s).
Proof.
  intros Hc. destruct (plain_inv c Hc) as (Ha & Hs & _).
  cbn [strings.TrimSpace_stop]. now rewrite is_ascii_geb, Ha, Hs.
Qed.

(** The encoding of a space: one ASCII space, or a sequence that starts
    and ends with a byte from [0x80] on. *)
Lemma Encode_space_shape (r : Z) :
  unicode.IsSpace r = true ->
  (exists b, utf8.EncodeRune r = [b] /\ is_ascii b = true /\ strings.asciiSpace b = true)
  \/ (exists b0 mid bl, utf8.EncodeRune r = b0 :: mid ++ [bl]
        /\ is_ascii b0 = false /\ is_ascii bl = false).
Proof.
  intros H. each_space H.
  all: match goal with |- context [utf8.EncodeRune ?r] =>
         let e := eval vm_compute in (utf8.EncodeRune r) in
         change (utf8.EncodeRune r) with e end.
  all: first [ left; eexists; split; [reflexivity|split; reflexivity]
             | right; exists "194"%char, [];
               eexists; split; [reflexivity|split; reflexivity]
             | right; do 2 eexists; eexists; split;
               [instantiate (2 := [_]); reflexivity|split; reflexivity] ].
Qed.

Lemma TrimSpace_stop_spaces (rs : list Z) :
  forall (pre : gostring) (c : byte),
  forallb unicode.IsSpace rs = true -> plain c = true ->
  strings.TrimSpace_stop (rev (pre ++ [c] ++ enc rs)) = pre ++ [c].
Proof.
  induction rs as [|r rs IH] using rev_ind; intros pre c Hrs Hc.
  - cbn [enc flat_map]. rewrite app_nil_r, rev_app_distr. cbn [rev app].
    rewrite (TrimSpace_stop_plain c _ Hc). cbn [rev]. now rewrite rev_involutive.
  - pose proof Hrs as Hall.
    rewrite forallb_app in Hrs. apply andb_prop in Hrs. destruct Hrs as [Hrs Hr].
    cbn [forallb] in Hr. rewrite andb_true_r in Hr.
    destruct (Encode_space_shape r Hr) as [(b & E & Ha & Hs)|(b0 & mid & bl & E & _ & Hl)].
    + rewrite enc_app, enc_single, E.
      replace (pre ++ [c] ++ enc rs ++ [b]) with ((pre ++ [c] ++ enc rs) ++ [b])
        by (now rewrite <- !app_assoc).
      rewrite rev_app_distr. cbn [rev app].
      rewrite (TrimSpace_stop_space b _ Ha Hs). now apply IH.
    + assert (exists t, rev (pre ++ [c] ++ enc (rs ++ [r])) = bl :: t) as [t Et].
      { rewrite enc_app, enc_single, E.
        replace (pre ++ [c] ++ enc rs ++ b0 :: mid ++ [bl])
          with ((pre ++ [c] ++ enc rs ++ b0 :: mid) ++ [bl])
          by (rewrite <- ?app_assoc; cbn [app]; now rewrite <- ?app_assoc).
        rewrite rev_app_distr. cbn [rev app]. eauto. }
      rewrite Et, (TrimSpace_stop_high bl t Hl), <- Et, rev_involutive.
      now apply TrimRightFunc_spaces.
Qed.

(** [TrimSpace] removes the white space around a text that starts and
    ends with a plain character. *)
Lemma TrimSpace_spaces (rs1 rs2 : list Z) (pre : gostring) (c c' : byte) :
  forallb unicode.IsSpace rs1 = true -> forallb unicode.IsSpace rs2 = true ->
  plain c = true -> plain c' = true ->
  strings.TrimSpace (enc rs1 ++ (c :: pre ++ [c']) ++ enc rs2) = c :: pre ++ [c'].
Proof.
  intros H1 H2 Hc Hc'.
  induction rs1 as [|r rs1 IH].
  - cbn [enc flat_map app]. unfold strings.TrimSpace.
    rewrite (TrimSpace_start_plain c _ Hc).
    replace (c :: (pre ++ [c']) ++ enc rs2)
      with ((c :: pre) ++ [c'] ++ enc rs2)
      by (cbn [app]; now rewrite <- app_assoc).
    now apply (TrimSpace_stop_spaces rs2 (c :: pre) c').
  - pose proof H1 as Hall.
    cbn [forallb] in H1. apply andb_prop in H1. destruct H1 as [Hr H1].
    destruct (Encode_space_shape r Hr) as [(b & E & Ha & Hs)|(b0 & mid & bl & E & Hh & _)].
    + cbn [enc flat_map]. fold (enc rs1). rewrite E. cbn [app].
      unfold strings.TrimSpace. rewrite (TrimSpace_start_space b _ Ha Hs).
      now apply IH.
    + assert (exists t, enc (r :: rs1) ++ (c :: pre ++ [c']) ++ enc rs2 = b0 :: t) as [t Et].
      { cbn [enc flat_map]. rewrite E. cbn [app]. eauto. }
      unfold strings.TrimSpace. rewrite Et, (TrimSpace_start_high b0 t Hh), <- Et.
      now apply (TrimFunc_spaces (r :: rs1) rs2 pre c c').
Qed.

(** ** The three notations *)

Lemma white_enc (ws : gostring) :
  white ws -> exists rs, forallb unicode.IsSpace rs = true /\ ws = enc rs.
Proof. intros (rs & H & ->). now exists rs. Qed.

Lemma filter_keep {A} (f : A -> bool) (x : A) (l : list A) :
  f x = true -> filter f (x :: l) = x :: filter f l.
Proof. intros H. cbn [filter]. now rewrite H. Qed.

Lemma filter_drop {A} (f : A -> bool) (x : A) (l : list A) :
  f x = false -> filter f (x :: l) = filter f l.
Proof. intros H. cbn [filter]. now rewrite H. Qed.

Ltac hex_facts :=
  repeat match goal with
  | H : is_hex_digit ?c = true |- _ =>
    rewrite ?(hex_not_dot c H), ?(hex_not_dash c H), ?(hex_not_colon c H);
    revert H
  end; intros.

Section ThreeNotations.
Variables a1 a2 b1 b2 c1 c2 d1 d2 e1 e2 f1 f2 : byte.
Local Abbreviation d := [a1; a2; b1; b2; c1; c2; d1; d2; e1; e2; f1; f2] (only parsing).
Hypothesis Hd : forallb is_hex_digit d = true.
Variables ws1 ws2 : gostring.
Hypothesis Hw1 : white ws1.
Hypothesis Hw2 : white ws2.

Lemma TrimSpace_colon_form :
  strings.TrimSpace (ws1 ++ colon_form d ++ ws2) = colon_form d.
Proof.
  destruct (white_enc ws1 Hw1) as (rs1 & H1 & ->).
  destruct (white_enc ws2 Hw2) as (rs2 & H2 & ->).
  cbn [forallb] in Hd. split_andb.
  change (colon_form [a1; a2; b1; b2; c1; c2; d1; d2; e1; e2; f1; f2])
    with (a1 :: [a2; ":"; b1; b2; ":"; c1; c2; ":"; d1; d2; ":"; e1; e2; ":"; f1]%char ++ [f2]).
  apply TrimSpace_spaces; auto using hex_plain.
Qed.

Lemma TrimSpace_dash_form :
  strings.TrimSpace (ws1 ++ dash_form d ++ ws2) = dash_form d.
Proof.
  destruct (white_enc ws1 Hw1) as (rs1 & H1 & ->).
  destruct (white_enc ws2 Hw2) as (rs2 & H2 & ->).
  cbn [forallb] in Hd. split_andb.
  change (dash_form [a1; a2; b1; b2; c1; c2; d1; d2; e1; e2; f1; f2])
    with (a1 :: [a2; "-"; b1; b2; "-"; c1; c2; "-"; d1; d2; "-"; e1; e2; "-"; f1]%char ++ [f2]).
  apply TrimSpace_spaces; auto using hex_plain.
Qed.

Lemma TrimSpace_dot_form :
  strings.TrimSpace (ws1 ++ dot_form d ++ ws2) = dot_form d.
Proof.
  destruct (white_enc ws1 Hw1) as (rs1 & H1 & ->).
  destruct (white_enc ws2 Hw2) as (rs2 & H2 & ->).
  cbn [forallb] in Hd. split_andb.
  change (dot_form [a1; a2; b1; b2; c1; c2; d1; d2; e1; e2; f1; f2])
    with (a1 :: [a2; b1; b2; "."; c1; c2; d1; d2; "."; e1; e2; f1]%char ++ [f2]).
  apply TrimSpace_spaces; auto using hex_plain.
Qed.

Lemma normalized_colon_form :
  normalized (ws1 ++ colon_form d ++ ws2) = colon_form d.
Proof.
  unfold normalized. rewrite TrimSpace_colon_form.
  change (str ".") with ["."%char]. change (str "-") with ["-"%char].
  change (str ":") with [":"%char].
  rewrite Contains_single, ReplaceAll_subst.
  cbn [forallb] in Hd. split_andb.
  change (colon_form [a1; a2; b1; b2; c1; c2; d1; d2; e1; e2; f1; f2])
    with [a1; a2; ":"; b1; b2; ":"; c1; c2; ":"; d1; d2; ":"; e1; e2; ":"; f1; f2]%char.
  cbn [existsb map]. hex_facts. reflexivity.
Qed.

Lemma normalized_dash_form :
  normalized (ws1 ++ dash_form d ++ ws2) = colon_form d.
Proof.
  unfold normalized. rewrite TrimSpace_dash_form.
  change (str ".") with ["."%char]. change (str "-") with ["-"%char].
  change (str ":") with [":"%char].
  rewrite Contains_single, ReplaceAll_subst.
  cbn [forallb] in Hd. split_andb.
  change (dash_form [a1; a2; b1; b2; c1; c2; d1; d2; e1; e2; f1; f2])
    with [a1; a2; "-"; b1; b2; "-"; c1; c2; "-"; d1; d2; "-"; e1; e2; "-"; f1; f2]%char.
  cbn [existsb map]. hex_facts. reflexivity.
Qed.

Lemma normalized_dot_form :
  normalized (ws1 ++ dot_form d ++ ws2) = colon_form d.
Proof.
  unfold normalized. rewrite TrimSpace_dot_form.
  change (str ".") with ["."%char]. change (str "") with (@nil ascii).
  rewrite Contains_single, ReplaceAll_delete.
  pose proof Hd as Hall.
  cbn [forallb] in Hd. split_andb.
  change (dot_form [a1; a2; b1; b2; c1; c2; d1; d2; e1; e2; f1; f2])
    with [a1; a2; b1; b2; "."; c1; c2; d1; d2; "."; e1; e2; f1; f2]%char.
  cbn [existsb]. hex_facts. change (byte_eqb "." ".") with true.
  rewrite !orb_true_r. cbn [orb].
  assert (filter (fun c => negb (byte_eqb "." c))
            [a1; a2; b1; b2; "."; c1; c2; d1; d2; "."; e1; e2; f1; f2]%char
          = [a1; a2; b1; b2; c1; c2; d1; d2; e1; e2; f1; f2]) as ->.
  { repeat first
      [ rewrite filter_drop by reflexivity
      | rewrite filter_keep by (rewrite hex_not_dot by assumption; reflexivity) ].
    reflexivity. }
  rewrite insertColons_ascii.
  - reflexivity.
  - apply forallb_forall. intros x Hx. apply hex_is_ascii.
    rewrite forallb_forall in Hall. auto.
Qed.
End ThreeNotations.

Lemma hex_digits_forallb (d : gostring) :
  hex_digits d -> forallb is_hex_digit d = true.
Proof. intros [_ H]. apply forallb_forall. now apply Forall_forall. Qed.

Lemma parseMAC_of_normalized (text d : gostring) :
  hex_digits d -> normalized text = colon_form d ->
  parseMAC text = inr (octets (map digit_value d)).
Proof.
  intros Hd E. rewrite parseMAC_normalized, E.
  destruct (colon_form_shape d Hd) as [-> ->]. reflexivity.
Qed.

Lemma parseMAC_colon_form (d ws1 ws2 : gostring) :
  hex_digits d -> white ws1 -> white ws2 ->
  parseMAC (ws1 ++ colon_form d ++ ws2) = inr (octets (map digit_value d)).
Proof.
  intros Hd H1 H2. apply parseMAC_of_normalized; [assumption|].
  pose proof (hex_digits_forallb d Hd) as Hf.
  destruct (hex_digits_inv d Hd) as (a1&a2&b1&b2&c1&c2&d1&d2&e1&e2&f1&f2&->&_).
  now apply normalized_colon_form.
Qed.

Lemma parseMAC_dash_form (d ws1 ws2 : gostring) :
  hex_digits d -> white ws1 -> white ws2 ->
  parseMAC (ws1 ++ dash_form d ++ ws2) = inr (octets (map digit_value d)).
Proof.
  intros Hd H1 H2. apply parseMAC_of_normalized; [assumption|].
  pose proof (hex_digits_forallb d Hd) as Hf.
  destruct (hex_digits_inv d Hd) as (a1&a2&b1&b2&c1&c2&d1&d2&e1&e2&f1&f2&->&_).
  now apply normalized_dash_form.
Qed.

Lemma parseMAC_dot_form (d ws1 ws2 : gostring) :
  hex_digits d -> white ws1 -> white ws2 ->
  parseMAC (ws1 ++ dot_form d ++ ws2) = inr (octets (map digit_value d)).
Proof.
  intros Hd H1 H2. apply parseMAC_of_normalized; [assumption|].
  pose proof (hex_digits_forallb d Hd) as Hf.
  destruct (hex_digits_inv d Hd) as (a1&a2&b1&b2&c1&c2&d1&d2&e1&e2&f1&f2&->&_).
  now apply normalized_dot_form.
Qed.

Lemma writes_inv (d : gostring) (a : list Z) :
  length a = 12%nat -> writes d a -> hex_digits d /\ map digit_value d = a.
Proof.
  intros Hl Hw. unfold writes in Hw. split; [split|].
  - rewrite (Forall2_length Hw). exact Hl.
  - clear Hl. induction Hw as [|c v d a [Hc _] _ IH]; constructor; auto.
  - clear Hl. induction Hw as [|c v d a [_ Hv] _ IH]; cbn [map]; congruence.
Qed.

(** C2. One logical address, written with colons, with dashes or in
    dot-grouped form, in any letter case and with any white space around
    it, parses to the same six octets, in the order written. *)
Theorem parseMAC_notation_invariant
    (a : list Z) (dc dd dp l1 r1 l2 r2 l3 r3 : gostring) :
  length a = 12%nat ->
  writes dc a -> writes dd a -> writes dp a ->
  white l1 -> white r1 -> white l2 -> white r2 -> white l3 -> white r3 ->
  parseMAC (l1 ++ colon_form dc ++ r1) = inr (octets a) /\
  parseMAC (l2 ++ dash_form dd ++ r2) = inr (octets a) /\
  parseMAC (l3 ++ dot_form dp ++ r3) = inr (octets a).
Proof.
  intros Hl Hc Hd Hp W1 W2 W3 W4 W5 W6.
  destruct (writes_inv dc a Hl Hc) as [Hdc Ec].
  destruct (writes_inv dd a Hl Hd) as [Hdd Ed].
  destruct (writes_inv dp a Hl Hp) as [Hdp Ep].
  repeat split.
  - rewrite <- Ec. now apply parseMAC_colon_form.
  - rewrite <- Ed. now apply parseMAC_dash_form.
  - rewrite <- Ep. now apply parseMAC_dot_form.
Qed.

(** ** Acceptance and rejection *)

Lemma parseMAC_cases (text : gostring) :
  (colon_shape (normalized text) = true /\
   hex_digits (digits_in (normalized text)) /\
   normalized text = colon_form (digits_in (normalized text)) /\
   parseMAC text = inr (octets (map digit_value (digits_in (normalized text)))))
  \/ (colon_shape (normalized text) = false /\
      parseMAC text = inl (InvalidFormat (normalized text))).
Proof.
  rewrite parseMAC_normalized.
  destruct (colon_shape (normalized text)) eqn:Hs; [left|right; auto].
  destruct (colon_shape_inv _ Hs) as [Hd E]. auto.
Qed.

(** C9. [ValidateMAC] accepts and rejects exactly the inputs that
    [parseMAC] accepts and rejects, with the same error, and yields no
    bytes. *)
Theorem ValidateMAC_iff_parseMAC (text : gostring) :
  (ValidateMAC text = None <-> exists b, parseMAC text = inr b) /\
  ValidateMAC text = match parseMAC text with inl e => Some e | inr _ => None end.
Proof.
  rewrite ValidateMAC_normalized, parseMAC_normalized.
  destruct (colon_shape (normalized text)); split; try reflexivity.
  - split; eauto.
  - split; [discriminate|]. intros [b H]. discriminate.
Qed.

(** C4, as written, fails: the error carries the rewritten text. *)
Lemma InvalidFormat_carries_rewritten_text :
  parseMAC (str "AA-BB-CC-DD-EE") = inl (InvalidFormat (str "AA:BB:CC:DD:EE")) /\
  ValidateMAC (str "AA-BB-CC-DD-EE") = Some (InvalidFormat (str "AA:BB:CC:DD:EE")) /\
  parseMAC (str " AABB.CCDD.EEF ") = inl (InvalidFormat (str "AA:BB:CC:DD:EE:F")) /\
  str "AA:BB:CC:DD:EE" <> str "AA-BB-CC-DD-EE" /\
  str "AA:BB:CC:DD:EE:F" <> str " AABB.CCDD.EEF ".
Proof. repeat split; try reflexivity; discriminate. Qed.

(** C4, amended. Whenever [parseMAC] or [ValidateMAC] rejects an input,
    the error is [InvalidFormat] with the normalized text: the input
    trimmed, with its dashes turned to colons or, when it has a dot,
    without its dots and with colons put in again. *)
Theorem InvalidFormat_carries_normalized (text : gostring) (e : error) :
  (parseMAC text = inl e -> e = InvalidFormat (normalized text)) /\
  (ValidateMAC text = Some e -> e = InvalidFormat (normalized text)).
Proof.
  rewrite ValidateMAC_normalized, parseMAC_normalized.
  destruct (colon_shape (normalized text)); split; intros H;
    first [discriminate H | now inversion H].
Qed.

Lemma not_accepted_13 (text : gostring) :
  length text = 13%nat -> ~ accepted_notation text.
Proof.
  intros Hl (d & Hd & H).
  destruct (hex_digits_inv d Hd) as (a1&a2&b1&b2&c1&c2&d1&d2&e1&e2&f1&f2&->&_).
  destruct H as [H|[H|H]]; rewrite H in Hl; discriminate Hl.
Qed.

(** C3, as written, fails: two groups of six digits around a dot are
    none of the three notations, and parse. *)
Lemma parseMAC_accepts_other_groups :
  ~ accepted_notation (str "AABBCC.DDEEFF") /\
  strings.TrimSpace (str "AABBCC.DDEEFF") = str "AABBCC.DDEEFF" /\
  parseMAC (str "AABBCC.DDEEFF") = inr (map byte_of [170; 187; 204; 221; 238; 255]%Z).
Proof.
  split; [apply not_accepted_13; reflexivity|]. split; reflexivity.
Qed.

(** C3, amended. A text that, once trimmed, is neither six pairs of
    hexadecimal digits separated by colons or dashes nor a text with a
    dot whose other characters are twelve hexadecimal digits is rejected
    with [InvalidFormat] and yields no bytes; every other text parses;
    [parseMAC] returns no other error, and the bytes it returns are six. *)
Theorem parseMAC_rejects (text : gostring) :
  (relaxed_notation text = false ->
     parseMAC text = inl (InvalidFormat (normalized text))) /\
  (relaxed_notation text = true ->
     exists b, parseMAC text = inr b /\ length b = 6%nat) /\
  (forall e, parseMAC text = inl e -> exists m, e = InvalidFormat m) /\
  (forall b, parseMAC text = inr b -> length b = 6%nat).
Proof.
  rewrite relaxed_notation_spec.
  destruct (parseMAC_cases text) as [(Hs & Hd & _ & ->)|(Hs & ->)]; rewrite Hs.
  - pose proof (octets_length _ Hd) as Hl.
    repeat split; try discriminate; eauto.
    intros b [= <-]. exact Hl.
  - repeat split; try discriminate; auto.
    intros e [= <-]. eauto.
Qed.

(** ** [NormalizeMAC] *)

Lemma Sprintf_02X_spec (o : byte) :
  fmt.Sprintf_02X o = [upper_hex (byte_val o / 16); upper_hex (byte_val o mod 16)].
Proof. by_byte o. Qed.

Lemma upper_hex_digit (c : byte) :
  is_hex_digit c = true -> upper_hex (digit_value c) = to_upper c.
Proof. by_byte c. Qed.

Lemma octet_text (h l : byte) :
  is_hex_digit h = true -> is_hex_digit l = true ->
  let o := byte_of (16 * digit_value h + digit_value l) in
  [upper_hex (byte_val o / 16); upper_hex (byte_val o mod 16)] = [to_upper h; to_upper l].
Proof.
  intros Hh Hl o. subst o.
  destruct (reverseHexTable_hex h Hh) as [_ Rh].
  destruct (reverseHexTable_hex l Hl) as [_ Rl].
  rewrite byte_val_of, Z.mod_small by lia.
  replace ((16 * digit_value h + digit_value l) / 16)%Z with (digit_value h)
    by (apply Z.div_unique with (r := digit_value l); lia).
  replace ((16 * digit_value h + digit_value l) mod 16)%Z with (digit_value l)
    by (apply Z.mod_unique with (q := digit_value h); lia).
  now rewrite !upper_hex_digit.
Qed.

Lemma canonical_octets (d : gostring) :
  hex_digits d -> canonical (octets (map digit_value d)) = ToUpper (colon_form d).
Proof.
  intros Hd. destruct (hex_digits_inv d Hd) as (a1&a2&b1&b2&c1&c2&d1&d2&e1&e2&f1&f2&->&H).
  cbn [forallb] in H. split_andb.
  unfold canonical. cbn [map octets].
  rewrite !octet_text by assumption.
  assert (is_colon : to_upper ":" = ":"%char) by reflexivity.
  change (colon_form [a1; a2; b1; b2; c1; c2; d1; d2; e1; e2; f1; f2])
    with [a1; a2; ":"; b1; b2; ":"; c1; c2; ":"; d1; d2; ":"; e1; e2; ":"; f1; f2]%char.
  unfold ToUpper. cbn [map strings.Join app str list_ascii_of_string].
  now rewrite !is_colon.
Qed.

Lemma fill_parts_six (b : list byte) :
  length b = 6%nat ->
  fill_parts (repeat ([] : gostring) 6) 0 b = Some (map fmt.Sprintf_02X b).
Proof.
  intros Hl. destruct (length_six b Hl) as (a & b' & c & d & e & f & ->). reflexivity.
Qed.

Lemma NormalizeMAC_canonical (text : gostring) (b : list byte) :
  parseMAC text = inr b ->
  NormalizeMAC text = Some (inr (canonical b)) /\
  canonical b = ToUpper (normalized text).
Proof.
  intros Hp. unfold NormalizeMAC. rewrite Hp.
  destruct (parseMAC_cases text) as [(Hs & Hd & E & Hp')|(_ & Hp')];
    rewrite Hp in Hp'; [|discriminate].
  injection Hp' as ->.
  rewrite fill_parts_six by (now apply octets_length).
  split.
  - unfold canonical. do 3 f_equal. apply map_ext. apply Sprintf_02X_spec.
  - rewrite E at 2. now apply canonical_octets.
Qed.

Lemma white_nil : white [].
Proof. exists []. split; reflexivity. Qed.

(** C8. [NormalizeMAC] of a valid colon-form text is that text in upper
    case; of any text that parses, it is the canonical text of the six
    bytes, which is the normalized text in upper case, whatever the
    notation and the case of the input. *)
Theorem NormalizeMAC_upper :
  (forall d, hex_digits d ->
     NormalizeMAC (colon_form d) = Some (inr (ToUpper (colon_form d)))) /\
  (forall text b, parseMAC text = inr b ->
     NormalizeMAC text = Some (inr (canonical b)) /\
     canonical b = ToUpper (normalized text)) /\
  (forall t1 t2 b, parseMAC t1 = inr b -> parseMAC t2 = inr b ->
     NormalizeMAC t1 = NormalizeMAC t2).
Proof.
  split; [|split].
  - intros d Hd.
    pose proof (parseMAC_colon_form d [] [] Hd white_nil white_nil) as Hp.
    cbn [app] in Hp. rewrite app_nil_r in Hp.
    destruct (NormalizeMAC_canonical _ _ Hp) as [-> _].
    now rewrite canonical_octets.
  - apply NormalizeMAC_canonical.
  - intros t1 t2 b H1 H2.
    destruct (NormalizeMAC_canonical _ _ H1) as [-> _].
    destruct (NormalizeMAC_canonical _ _ H2) as [-> _]. reflexivity.
Qed.

(** ** The sender *)

Lemma wrap64_small (z : Z) :
  (- 9223372036854775808 <= z <= maxInt)%Z -> wrap64 z = z.
Proof.
  unfold wrap64, maxInt. intros H. rewrite Z.mod_small; lia.
Qed.

Section Sender.
Context `{P : Platform}.
Variable w : WOLSender.

Lemma for_upto_cycles (packet : list byte) (count : Z) (n : nat) :
  forall (i : Z) (h : history),
  (0 <= i)%Z -> (count = i + Z.of_nat n)%Z -> (count <= maxInt)%Z ->
  for_upto n i (repeat_body w packet count) h = send_cycles w packet n h.
Proof.
  induction n as [|k IH]; intros i h Hi Hc Hm; [reflexivity|].
  cbn [for_upto send_cycles]. unfold repeat_body at 1. unfold bind, ret.
  destruct (sendPacket w packet h) as [[e|] h1]; [reflexivity|].
  rewrite wrap64_small by (unfold maxInt in *; lia).
  destruct k as [|k].
  - replace (i <? count - 1)%Z with false by (symmetry; apply Z.ltb_ge; lia).
    reflexivity.
  - replace (i <? count - 1)%Z with true by (symmetry; apply Z.ltb_lt; lia).
    unfold Sleep. change (10 * Millisecond)%Z with 10000000%Z.
    rewrite wrap64_small by (unfold maxInt in *; lia).
    apply IH; lia.
Qed.

Lemma SendRepeat_parsed (mac : gostring) (b : list byte) (count : Z) (h : history) :
  parseMAC mac = inr b -> (count <= maxInt)%Z ->
  SendRepeat w mac count h = send_cycles w (constructMagicPacket b) (Z.to_nat count) h.
Proof.
  intros Hp Hc. unfold SendRepeat. rewrite Hp.
  unfold bind at 1. fold (repeat_body w (constructMagicPacket b) count).
  destruct (Z.le_gt_cases count 0) as [Hn|Hn].
  - replace (Z.to_nat count) with 0%nat by lia. reflexivity.
  - rewrite for_upto_cycles by lia.
    now destruct (send_cycles w (constructMagicPacket b) (Z.to_nat count) h) as [[e|] h'].
Qed.

Lemma SendRepeat_unparsed (mac : gostring) (e : error) (count : Z) (h : history) :
  parseMAC mac = inl e -> SendRepeat w mac count h = (Some e, h).
Proof. intros Hp. unfold SendRepeat. now rewrite Hp. Qed.

(** What one call of [sendPacket] adds to the history. *)
Lemma sendPacket_events (packet : list byte) (h : history) :
  exists evs,
    snd (sendPacket w packet h) = h ++ evs /\
    sleeps_of evs = [] /\
    match fst (sendPacket w packet h) with
    | None =>
      exists c,
        writes_of evs =
          [CallWriteToUDP c packet
             {| net.IP_ := ParseIP (broadcast w); net.Port := 9 |}] /\
        last evs (CallSleep 0) = CallClose c
    | Some _ => (length (writes_of evs) <= 1)%nat
    end.
Proof.
  unfold sendPacket, bind, ret, InterfaceByName, Addrs, ListenUDP, WriteToUDP, Close.
  destruct (iface w) as [|c0 name].
  - destruct (os_ListenUDP h _ _) as [err|conn]; cbn [fst snd].
    + eexists. split; [reflexivity|]. split; [reflexivity|]. cbn. lia.
    + destruct (os_WriteToUDP _ conn packet _) as [err|n]; cbn [fst snd];
        (eexists; split; [rewrite <- !app_assoc; reflexivity|]);
        (split; [reflexivity|]); cbn; eauto.
  - destruct (os_InterfaceByName h _) as [err|ifi]; cbn [fst snd].
    { eexists. split; [reflexivity|]. split; [reflexivity|]. cbn. lia. }
    destruct (os_Addrs _ ifi) as [err|addrs]; cbn [fst snd].
    { eexists. split; [rewrite <- !app_assoc; reflexivity|].
      split; [reflexivity|]. cbn. lia. }
    destruct (net.is_nil (find_localIP addrs)); cbn [fst snd].
    { eexists. split; [rewrite <- !app_assoc; reflexivity|].
      split; [reflexivity|]. cbn. lia. }
    destruct (os_ListenUDP _ _ _) as [err|conn]; cbn [fst snd].
    { eexists. split; [rewrite <- !app_assoc; reflexivity|].
      split; [reflexivity|]. cbn. lia. }
    destruct (os_WriteToUDP _ conn packet _) as [err|n]; cbn [fst snd];
      (eexists; split; [rewrite <- !app_assoc; reflexivity|]);
      (split; [reflexivity|]); cbn; eauto.
Qed.

Lemma last_app_nonempty {A} (l1 l2 : list A) (d : A) :
  l2 <> [] -> last (l1 ++ l2) d = last l2 d.
Proof.
  intros Hn. induction l1 as [|x l1 IH]; [reflexivity|].
  cbn [app]. rewrite <- IH. destruct (l1 ++ l2) eqn:E; [|reflexivity].
  apply app_eq_nil in E. destruct E. contradiction.
Qed.

Lemma writes_of_app (h1 h2 : history) : writes_of (h1 ++ h2) = writes_of h1 ++ writes_of h2.
Proof. apply filter_app. Qed.

Lemma sleeps_of_app (h1 h2 : history) : sleeps_of (h1 ++ h2) = sleeps_of h1 ++ sleeps_of h2.
Proof. apply filter_app. Qed.

(** A run of [n] cycles that ends well. *)
Lemma send_cycles_ok (packet : list byte) (n : nat) :
  forall h h', (0 < n)%nat -> send_cycles w packet n h = (None, h') ->
  exists evs,
    h' = h ++ evs /\
    length (writes_of evs) = n /\
    Forall (fun e => exists c, e = CallWriteToUDP c packet
              {| net.IP_ := ParseIP (broadcast w); net.Port := 9 |}) (writes_of evs) /\
    sleeps_of evs = repeat (CallSleep 10000000) (n - 1) /\
    exists c, last evs (CallSleep 0) = CallClose c.
Proof.
  induction n as [|k IH]; intros h h' Hn Hrun; [lia|].
  cbn [send_cycles] in Hrun. unfold bind, ret in Hrun.
  destruct (sendPacket_events packet h) as (evs & Eh & Es & Hw).
  destruct (sendPacket w packet h) as [[e|] h1]; cbn [fst snd] in *; [discriminate|].
  destruct Hw as (c & Ew & El). subst h1.
  destruct k as [|k].
  - injection Hrun as <-. exists evs. rewrite Ew, Es. cbn.
    repeat split; eauto.
  - unfold Sleep in Hrun.
    destruct (IH _ _ ltac:(lia) Hrun) as (evs' & -> & Hl & Hf & Hs & c' & Hc').
    exists (evs ++ [CallSleep 10000000] ++ evs').
    rewrite !writes_of_app, !sleeps_of_app, Ew, Es.
    split; [now rewrite <- !app_assoc|].
    split; [cbn; now rewrite Hl|].
    split; [cbn; constructor; eauto|].
    split; [cbn; rewrite Hs; cbn; now rewrite Nat.sub_0_r|].
    exists c'. rewrite app_assoc, last_app_nonempty; [assumption|].
    intros ->. cbn in Hl. lia.
Qed.
End Sender.

Section SenderClaims.
Context `{P : Platform}.
Variable w : WOLSender.

(** A run that fails: some cycles went well, each followed by its
    pause, and the next send returned the error, after which nothing
    was done. *)
Lemma send_cycles_err (packet : list byte) (n : nat) :
  forall h h' e, send_cycles w packet n h = (Some e, h') ->
  exists k h0, (k < n)%nat /\ after_cycles w packet k h h0 /\
               sendPacket w packet h0 = (Some e, h').
Proof.
  induction n as [|m IH]; intros h h' e Hrun; [discriminate|].
  cbn [send_cycles] in Hrun. unfold bind, ret in Hrun.
  destruct (sendPacket w packet h) as [[e1|] h1] eqn:Es.
  - injection Hrun as <- <-. exists 0%nat, h. repeat split; [lia|assumption].
  - destruct m as [|m]; [discriminate|].
    unfold Sleep in Hrun.
    destruct (IH _ _ _ Hrun) as (k & h0 & Hk & Ha & Hs).
    exists (S k), h0. split; [lia|]. split; [|assumption].
    cbn [after_cycles send_cycles]. unfold bind, ret. rewrite Es.
    destruct k as [|k].
    + cbn [after_cycles] in Ha. subst h0. eauto.
    + cbn [after_cycles] in Ha. destruct Ha as (h2 & Hr & ->).
      exists h2. split; [|reflexivity]. unfold Sleep. exact Hr.
Qed.

(** C5. For a text that parses and a positive count [N], [SendRepeat]
    runs [N] send cycles in a row with a pause of 10 ms between two
    sends and none after the last: when all go well the history gains
    [N] datagram writes of the magic packet and [N-1] pauses and ends
    with the closing of the last socket; the first send that fails
    ends the run and its error is the result; and [Send] is
    [SendRepeat] with count 1. *)
Theorem SendRepeat_cycles (mac : gostring) (b : list byte) (N : Z) (h : history) :
  parseMAC mac = inr b -> (0 < N <= maxInt)%Z ->
  let packet := constructMagicPacket b in
  SendRepeat w mac N h = send_cycles w packet (Z.to_nat N) h /\
  Send w mac h = SendRepeat w mac 1 h /\
  (forall h', SendRepeat w mac N h = (None, h') ->
     exists evs,
       h' = h ++ evs /\
       Z.of_nat (length (writes_of evs)) = N /\
       Forall (fun e => exists c, e = CallWriteToUDP c packet
                 {| net.IP_ := ParseIP (broadcast w); net.Port := 9 |}) (writes_of evs) /\
       sleeps_of evs = repeat (CallSleep 10000000) (Z.to_nat (N - 1)) /\
       exists c, last evs (CallSleep 0) = CallClose c) /\
  (forall e h', SendRepeat w mac N h = (Some e, h') ->
     exists k h0, (Z.of_nat k < N)%Z /\ after_cycles w packet k h h0 /\
                  sendPacket w packet h0 = (Some e, h')).
Proof.
  intros Hp HN packet.
  pose proof (SendRepeat_parsed w mac b N h Hp ltac:(lia)) as E. fold packet in E.
  split; [exact E|]. split; [reflexivity|]. rewrite E. split.
  - intros h' Hrun.
    destruct (send_cycles_ok w packet (Z.to_nat N) h h' ltac:(lia) Hrun)
      as (evs & -> & Hl & Hf & Hs & Hc).
    exists evs. repeat split; auto; [lia|].
    rewrite Hs. f_equal. lia.
  - intros e h' Hrun.
    destruct (send_cycles_err packet _ _ _ _ Hrun) as (k & h0 & Hk & Ha & Hs).
    exists k, h0. repeat split; auto. lia.
Qed.

(** C10. For a count that is zero or negative, [SendRepeat] still
    parses the text first and returns its [InvalidFormat] error; for a
    text that parses it returns no error, and in either case the
    history is left as it was: no datagram is written and there is no
    pause. *)
Theorem SendRepeat_nonpositive (mac : gostring) (N : Z) (h : history) :
  (N <= 0)%Z ->
  SendRepeat w mac N h =
    (match parseMAC mac with inl e => Some e | inr _ => None end, h) /\
  (forall e, parseMAC mac = inl e -> e = InvalidFormat (normalized mac)).
Proof.
  intros HN. split.
  - destruct (parseMAC mac) as [e|b] eqn:Hp.
    + now apply SendRepeat_unparsed.
    + rewrite (SendRepeat_parsed w mac b N h Hp) by (unfold maxInt; lia).
      replace (Z.to_nat N) with 0%nat by lia. reflexivity.
  - intros e He. destruct (parseMAC_cases mac) as [(_ & _ & _ & Hp)|(_ & Hp)];
      congruence.
Qed.

Lemma ParseAddr_dispatch_ext (Q : Platform) (whole rest : gostring) :
  (forall s, @parseIPv6 Q s = @parseIPv6 P s) ->
  @ParseAddr_dispatch Q whole rest = @ParseAddr_dispatch P whole rest.
Proof.
  intros H. induction rest as [|c t IH]; [reflexivity|].
  cbn [ParseAddr_dispatch]. now rewrite IH, H.
Qed.

(** A text with neither a dot nor a colon is no address, whatever the
    IPv6 parser says. *)
Lemma ParseAddr_dispatch_plain (whole rest : gostring) :
  (forall c, In c rest -> c <> "."%char /\ c <> ":"%char) ->
  ParseAddr_dispatch whole rest = [].
Proof.
  induction rest as [|c t IH]; intros H; [reflexivity|].
  cbn [ParseAddr_dispatch].
  destruct (H c (or_introl eq_refl)) as [Hdot Hcolon].
  destruct (byte_eqb c ".") eqn:E1; [apply byte_eqb_eq in E1; congruence|].
  destruct (byte_eqb c ":") eqn:E2; [apply byte_eqb_eq in E2; congruence|].
  destruct (byte_eqb c "%"); [reflexivity|].
  apply IH. intros c' Hc'. apply H. now right.
Qed.

(** C6. With an empty broadcast argument the sender gets
    "255.255.255.255".  Every text that is not empty and that
    [net.ParseIP] does not read as an address is refused with
    [InvalidBroadcastAddress] of that text, and no sender is made; these
    are the only refusals.  Among them are "not-an-ip" and every other
    text without a dot and without a colon.  The interface name is
    stored as given: whether the construction succeeds does not depend
    on the name nor on what the operating system answers. *)
Theorem NewSender_broadcast (name : gostring) :
  NewSender name [] = inr {| iface := name; broadcast := str "255.255.255.255" |} /\
  NewSender name (str "not-an-ip") = inl (InvalidBroadcastAddress (str "not-an-ip")) /\
  (forall b, b <> [] -> net.is_nil (ParseIP b) = true ->
     NewSender name b = inl (InvalidBroadcastAddress b)) /\
  (forall b e, NewSender name b = inl e ->
     b <> [] /\ net.is_nil (ParseIP b) = true /\ e = InvalidBroadcastAddress b) /\
  (forall b, b <> [] -> (forall c, In c b -> c <> "."%char /\ c <> ":"%char) ->
     NewSender name b = inl (InvalidBroadcastAddress b)) /\
  (forall b s, NewSender name b = inr s ->
     iface s = name /\
     forall name', NewSender name' b = inr {| iface := name'; broadcast := broadcast s |}) /\
  (forall (Q : Platform) b,
     (forall s, @parseIPv6 Q s = @parseIPv6 P s) ->
     @NewSender Q name b = @NewSender P name b).
Proof.
  split; [reflexivity|]. split; [reflexivity|].
  assert (Hrefuse : forall b, b <> [] -> net.is_nil (ParseIP b) = true ->
            NewSender name b = inl (InvalidBroadcastAddress b)).
  { intros b Hb Hn. unfold NewSender.
    destruct b as [|c t]; [contradiction|]. now rewrite Hn. }
  split; [exact Hrefuse|]. split; [|split; [|split]].
  - intros b e. destruct b as [|c t]; [discriminate|].
    unfold NewSender.
    destruct (net.is_nil (ParseIP (c :: t))) eqn:Hn; [|discriminate].
    intros [= <-]. split; [discriminate|]. split; reflexivity.
  - intros b Hb Hc. apply Hrefuse; [assumption|].
    unfold ParseIP. now rewrite ParseAddr_dispatch_plain.
  - intros b s. unfold NewSender.
    destruct (net.is_nil _); [discriminate|].
    intros [= <-]. cbn [iface broadcast]. split; reflexivity.
  - intros Q b H. unfold NewSender, ParseIP.
    now rewrite (ParseAddr_dispatch_ext Q _ _ H).
Qed.




(** A name that names no interface fails before any address is looked
    at, with the error of the lookup wrapped. *)
Lemma sendPacket_unknown_interface (packet : list byte) (h : history) (err : oserror) :
  iface w <> [] -> os_InterfaceByName h (iface w) = inl err ->
  sendPacket w packet h =
    (Some (InterfaceNotFound (iface w) err), h ++ [CallInterfaceByName (iface w)]).
Proof.
  intros Hi Hif. unfold sendPacket, bind, ret, InterfaceByName.
  destruct (iface w) as [|c0 name]; [contradiction|]. now rewrite Hif.
Qed.

End SenderClaims.

(** ** The theorems at concrete inputs *)

Lemma white_sample (rs : list Z) :
  forallb unicode.IsSpace rs = true -> white (enc rs).
Proof. intros H. exists rs. split; [exact H|reflexivity]. Qed.

Lemma parseMAC_notation_invariant_witness :
  parseMAC (str " AA:bb:CC:dd:EE:0f" ++ map byte_of [194; 160]%Z)
    = inr (map byte_of [170; 187; 204; 221; 238; 15]%Z) /\
  parseMAC (map byte_of [227; 128; 128]%Z ++ str "aa-bb-cc-dd-ee-0f")
    = inr (map byte_of [170; 187; 204; 221; 238; 15]%Z) /\
  parseMAC (str "AaBb.CcDd.Ee0F ")
    = inr (map byte_of [170; 187; 204; 221; 238; 15]%Z).
Proof.
  apply (parseMAC_notation_invariant
           [10; 10; 11; 11; 12; 12; 13; 13; 14; 14; 0; 15]%Z
           (str "AAbbCCddEE0f") (str "aabbccddee0f") (str "AaBbCcDdEe0F")
           (enc [32%Z]) (enc [160%Z]) (enc [12288%Z]) (enc []) (enc []) (enc [32%Z]));
    try reflexivity;
    try (apply white_sample; reflexivity);
    repeat constructor.
Defined.

Lemma parseMAC_rejects_witness :
  parseMAC (str "AA:BB:CC:DD:EE") = inl (InvalidFormat (str "AA:BB:CC:DD:EE")) /\
  (exists b, parseMAC (str "AA.BB.CC.DD.EE.FF") = inr b /\ length b = 6%nat).
Proof.
  split.
  - apply (proj1 (parseMAC_rejects (str "AA:BB:CC:DD:EE"))). reflexivity.
  - apply (proj1 (proj2 (parseMAC_rejects (str "AA.BB.CC.DD.EE.FF")))). reflexivity.
Defined.

Lemma InvalidFormat_carries_normalized_witness :
  InvalidFormat (str "GG:BB:CC:DD:EE:FF") = InvalidFormat (normalized (str " GG-BB-CC-DD-EE-FF")) /\
  InvalidFormat (str "AA:BB:C") = InvalidFormat (normalized (str "AABB.C")).
Proof.
  split.
  - apply (proj1 (InvalidFormat_carries_normalized (str " GG-BB-CC-DD-EE-FF") _)).
    reflexivity.
  - apply (proj2 (InvalidFormat_carries_normalized (str "AABB.C") _)).
    reflexivity.
Defined.

Lemma NormalizeMAC_upper_witness :
  NormalizeMAC (str "aa:bb:cc:dd:ee:0f") = Some (inr (str "AA:BB:CC:DD:EE:0F")) /\
  NormalizeMAC (str " aabb.ccdd.ee0f") = Some (inr (str "AA:BB:CC:DD:EE:0F")).
Proof.
  split.
  - apply (proj1 NormalizeMAC_upper (str "aabbccddee0f")).
    split; [reflexivity|]. repeat constructor.
  - apply (proj1 (proj2 NormalizeMAC_upper) (str " aabb.ccdd.ee0f")
             (map byte_of [170; 187; 204; 221; 238; 15]%Z)).
    reflexivity.
Defined.

Lemma ValidateMAC_iff_parseMAC_witness :
  ValidateMAC (str "AABB.CCDD.EEFF") = None.
Proof.
  apply (proj1 (ValidateMAC_iff_parseMAC (str "AABB.CCDD.EEFF"))).
  exists (map byte_of [170; 187; 204; 221; 238; 255]%Z). reflexivity.
Defined.

Lemma SendRepeat_cycles_witness :
  SendRepeat (H := sample_platform) sample_eth0 (str "AA:BB:CC:DD:EE:FF") 3 []
  = send_cycles (H := sample_platform) sample_eth0
      (constructMagicPacket (map byte_of [170; 187; 204; 221; 238; 255]%Z)) 3 [].
Proof.
  refine (proj1 (@SendRepeat_cycles sample_platform sample_eth0
                   (str "AA:BB:CC:DD:EE:FF")
                   (map byte_of [170; 187; 204; 221; 238; 255]%Z) 3 []
                   eq_refl _)).
  unfold maxInt. lia.
Defined.

Lemma SendRepeat_nonpositive_witness :
  SendRepeat (H := sample_platform) sample_eth0 (str "AA:BB:CC:DD:EE:FF") (-2) [] = (None, []) /\
  SendRepeat (H := sample_platform) sample_eth0 (str "AA:BB:CC:DD:EE") 0 []
  = (Some (InvalidFormat (str "AA:BB:CC:DD:EE")), []).
Proof.
  split.
  - refine (proj1 (@SendRepeat_nonpositive sample_platform sample_eth0
                     (str "AA:BB:CC:DD:EE:FF") (-2) [] _)). lia.
  - refine (proj1 (@SendRepeat_nonpositive sample_platform sample_eth0
                     (str "AA:BB:CC:DD:EE") 0 [] _)). lia.
Defined.

Lemma NewSender_broadcast_witness :
  NewSender (H := sample_platform) (str "eth7") (str "192.168.1.255")
  = inr {| iface := str "eth7"; broadcast := str "192.168.1.255" |} /\
  NewSender (H := sample_platform) (str "eth0") (str "192.168.1.256")
  = inl (InvalidBroadcastAddress (str "192.168.1.256")) /\
  NewSender (H := sample_platform) (str "eth0") (str "broadcast")
  = inl (InvalidBroadcastAddress (str "broadcast")).
Proof.
  destruct (@NewSender_broadcast sample_platform (str "eth0"))
    as (_ & _ & Hrefuse & _ & Hplain & Hname & _).
  split; [|split].
  - apply (proj2 (Hname (str "192.168.1.255")
                    {| iface := str "eth0"; broadcast := str "192.168.1.255" |}
                    eq_refl)).
  - apply Hrefuse; [discriminate|reflexivity].
  - apply Hplain; [discriminate|].
    intros c Hc. cbv in Hc.
    repeat (destruct Hc as [<-|Hc]; [split; discriminate|]). contradiction.
Defined.


(** * Further properties *)

(** ** The magic packet for an input of any length *)

Lemma copy_length {A} (dst src : list A) : length (copy dst src) = length dst.
Proof.
  revert src. induction dst as [|x dst IH]; intros [|y src]; cbn [copy length]; auto.
Qed.

Lemma copy_prefix {A} (six rest dst : list A) :
  (length six <= length dst)%nat ->
  copy dst (six ++ rest) = six ++ copy (skipn (length six) dst) rest.
Proof.
  revert dst. induction six as [|x six IH]; intros dst Hl; [reflexivity|].
  destruct dst as [|y dst]; cbn [length] in Hl; [lia|].
  cbn [app copy length skipn]. f_equal. apply IH. lia.
Qed.

Lemma copy_at_end {A} (pre tail src : list A) (off : nat) :
  off = length pre -> copy_at (pre ++ tail) off src = pre ++ copy tail src.
Proof.
  intros ->. unfold copy_at.
  rewrite firstn_app, firstn_all, Nat.sub_diag, skipn_app, skipn_all, Nat.sub_diag.
  cbn [firstn skipn app]. now rewrite app_nil_r.
Qed.

Lemma copies_loop (six rest : list byte) (n : nat) :
  length six = 6%nat ->
  forall (k : nat) (pre tail : list byte),
  length pre = (6 + k * 6)%nat -> length tail = (6 * n)%nat ->
  fold_left (fun acc i => copy_at acc (6 + i * 6) (six ++ rest)) (seq k n) (pre ++ tail)
  = pre ++ concat (repeat six n).
Proof.
  intros H6. induction n as [|n IH]; intros k pre tail Hp Ht.
  - destruct tail; [|discriminate]. reflexivity.
  - cbn [seq fold_left repeat concat].
    rewrite copy_at_end by lia.
    rewrite copy_prefix by lia. rewrite H6.
    rewrite app_assoc. rewrite IH.
    + now rewrite <- app_assoc.
    + rewrite length_app. lia.
    + rewrite copy_length, length_skipn. lia.
Qed.

Lemma sync_stream :
  for_range 0 6 (fun i packet => store packet i xFF) (make (6 + 16 * 6))
  = repeat xFF 6 ++ repeat x00 96.
Proof. reflexivity. Qed.

Lemma constructMagicPacket_long (six rest : list byte) :
  length six = 6%nat ->
  constructMagicPacket (six ++ rest) = repeat xFF 6 ++ concat (repeat six 16).
Proof.
  intros H6. unfold constructMagicPacket. cbv zeta. rewrite sync_stream.
  unfold for_range. apply copies_loop; auto.
Qed.

Lemma constructMagicPacket_padded (mac : list byte) :
  constructMagicPacket mac
  = repeat xFF 6 ++ concat (repeat (firstn 6 (mac ++ repeat x00 6)) 16).
Proof.
  destruct mac as [|a [|b [|c [|d [|e [|f rest]]]]]]; try reflexivity.
  change (firstn 6 ((a :: b :: c :: d :: e :: f :: rest) ++ repeat x00 6))
    with [a; b; c; d; e; f].
  now apply (constructMagicPacket_long [a; b; c; d; e; f] rest).
Qed.

Lemma constructMagicPacket_length (mac : list byte) :
  length (constructMagicPacket mac) = 102%nat.
Proof.
  rewrite constructMagicPacket_padded, length_app, repeat_length.
  assert (L : length (firstn 6 (mac ++ repeat x00 6)) = 6%nat).
  { rewrite length_firstn, length_app, repeat_length. lia. }
  revert L. generalize (firstn 6 (mac ++ repeat x00 6)). intros six L.
  cbn [repeat concat]. rewrite !length_app, L. reflexivity.
Qed.

(** X1. Whatever the length of its input, [constructMagicPacket] returns
    102 bytes that start with six 0xFF: only the first six bytes of a
    longer input are used, and a shorter input is filled up with zero
    bytes in each of its sixteen places. *)
Theorem constructMagicPacket_any_length (mac : list byte) :
  let six := firstn 6 (mac ++ repeat x00 6) in
  length (constructMagicPacket mac) = 102%nat /\
  constructMagicPacket mac = repeat xFF 6 ++ concat (repeat six 16).
Proof.
  cbv zeta. split.
  - apply constructMagicPacket_length.
  - apply constructMagicPacket_padded.
Qed.

(** ** The canonical text read back *)

Lemma to_upper_hex (c : byte) :
  is_hex_digit c = true ->
  is_hex_digit (to_upper c) = true /\ digit_value (to_upper c) = digit_value c /\
  to_upper (to_upper c) = to_upper c.
Proof. by_byte c. Qed.

Lemma ToUpper_colon_form (d : gostring) :
  hex_digits d -> ToUpper (colon_form d) = colon_form (ToUpper d).
Proof.
  intros Hd. destruct (hex_digits_inv d Hd) as (a1&a2&b1&b2&c1&c2&d1&d2&e1&e2&f1&f2&->&_).
  reflexivity.
Qed.

Lemma ToUpper_hex_digits (d : gostring) :
  hex_digits d ->
  hex_digits (ToUpper d) /\ map digit_value (ToUpper d) = map digit_value d /\
  ToUpper (ToUpper d) = ToUpper d.
Proof.
  intros [Hl Hf]. unfold hex_digits, ToUpper. rewrite length_map.
  split; [split; [assumption|]|split].
  - apply Forall_map. eapply Forall_impl; [|exact Hf].
    intros c Hc. now destruct (to_upper_hex c Hc).
  - rewrite map_map. apply map_ext_in. intros c Hc.
    rewrite Forall_forall in Hf. now destruct (to_upper_hex c (Hf c Hc)) as (_ & ? & _).
  - rewrite map_map. apply map_ext_in. intros c Hc.
    rewrite Forall_forall in Hf. now destruct (to_upper_hex c (Hf c Hc)) as (_ & _ & ?).
Qed.

(** The canonical text of the bytes of a text that parses is a colon
    form in upper case which parses to the same bytes. *)
Lemma canonical_parses (text : gostring) (b : list byte) :
  parseMAC text = inr b ->
  exists d, hex_digits d /\ ToUpper d = d /\ canonical b = colon_form d /\
            b = octets (map digit_value d) /\ parseMAC (canonical b) = inr b.
Proof.
  intros Hp.
  destruct (parseMAC_cases text) as [(Hs & Hd & E & Hp')|(_ & Hp')];
    rewrite Hp in Hp'; [|discriminate].
  injection Hp' as ->.
  set (d := digits_in (normalized text)) in *.
  destruct (ToUpper_hex_digits d Hd) as (Hu & Hv & Hi).
  exists (ToUpper d). rewrite canonical_octets, ToUpper_colon_form, Hv by assumption.
  repeat split; try assumption; try apply Hu.
  pose proof (parseMAC_colon_form (ToUpper d) [] [] Hu white_nil white_nil) as Hq.
  cbn [app] in Hq. rewrite app_nil_r in Hq. now rewrite Hq, Hv.
Qed.

(** X2. The text that [NormalizeMAC] returns is a fixed point: it
    parses to the bytes of the input, it passes [ValidateMAC], and
    normalizing it again returns it unchanged. *)
Theorem NormalizeMAC_round_trip (text s : gostring) :
  NormalizeMAC text = Some (inr s) ->
  parseMAC s = parseMAC text /\
  ValidateMAC s = None /\
  NormalizeMAC s = Some (inr s) /\
  length s = 17%nat.
Proof.
  intros Hn.
  destruct (parseMAC text) as [e|b] eqn:Hp.
  { unfold NormalizeMAC in Hn. rewrite Hp in Hn. discriminate. }
  destruct (NormalizeMAC_canonical text b Hp) as [Hc _].
  rewrite Hc in Hn. injection Hn as <-.
  destruct (canonical_parses text b Hp) as (d & Hd & Hu & Ec & Eb & Hq).
  split; [assumption|]. split; [|split].
  - rewrite ValidateMAC_normalized.
    pose proof (parseMAC_normalized (canonical b)) as Hq'. rewrite Hq in Hq'.
    destruct (colon_shape (normalized (canonical b))); [reflexivity|discriminate].
  - now destruct (NormalizeMAC_canonical _ b Hq) as [-> _].
  - rewrite Ec.
    destruct (hex_digits_inv d Hd) as (a1&a2&b1&b2&c1&c2&d1&d2&e1&e2&f1&f2&->&_).
    reflexivity.
Qed.

(** X3. Two texts that parse have the same normal form exactly when
    they denote the same six bytes: [NormalizeMAC] decides equality of
    addresses. *)
Theorem NormalizeMAC_injective (t1 t2 s1 s2 : gostring) :
  NormalizeMAC t1 = Some (inr s1) -> NormalizeMAC t2 = Some (inr s2) ->
  (s1 = s2 <-> parseMAC t1 = parseMAC t2).
Proof.
  intros H1 H2.
  destruct (parseMAC t1) as [e|b1] eqn:P1.
  { unfold NormalizeMAC in H1. rewrite P1 in H1. discriminate. }
  destruct (parseMAC t2) as [e|b2] eqn:P2.
  { unfold NormalizeMAC in H2. rewrite P2 in H2. discriminate. }
  destruct (NormalizeMAC_canonical t1 b1 P1) as [C1 _].
  destruct (NormalizeMAC_canonical t2 b2 P2) as [C2 _].
  rewrite C1 in H1. rewrite C2 in H2. injection H1 as <-. injection H2 as <-.
  destruct (canonical_parses t1 b1 P1) as (d1 & _ & _ & _ & _ & Q1).
  destruct (canonical_parses t2 b2 P2) as (d2 & _ & _ & _ & _ & Q2).
  split.
  - intros E. rewrite E in Q1. congruence.
  - intros E. injection E as ->. reflexivity.
Qed.

Lemma NormalizeMAC_round_trip_witness :
  NormalizeMAC (str " aabb.ccdd.eeff ") = Some (inr (str "AA:BB:CC:DD:EE:FF")) /\
  parseMAC (str "AA:BB:CC:DD:EE:FF") = parseMAC (str " aabb.ccdd.eeff ") /\
  ValidateMAC (str "AA:BB:CC:DD:EE:FF") = None /\
  NormalizeMAC (str "AA:BB:CC:DD:EE:FF") = Some (inr (str "AA:BB:CC:DD:EE:FF")) /\
  length (str "AA:BB:CC:DD:EE:FF") = 17%nat.
Proof.
  split; [reflexivity|].
  apply (NormalizeMAC_round_trip (str " aabb.ccdd.eeff ") (str "AA:BB:CC:DD:EE:FF")).
  reflexivity.
Defined.

Lemma NormalizeMAC_injective_witness :
  NormalizeMAC (str "aa-bb-cc-dd-ee-ff") = Some (inr (str "AA:BB:CC:DD:EE:FF")) /\
  NormalizeMAC (str "AABB.CCDD.EEFF") = Some (inr (str "AA:BB:CC:DD:EE:FF")) /\
  (str "AA:BB:CC:DD:EE:FF" = str "AA:BB:CC:DD:EE:FF" <->
   parseMAC (str "aa-bb-cc-dd-ee-ff") = parseMAC (str "AABB.CCDD.EEFF")).
Proof.
  split; [reflexivity|]. split; [reflexivity|].
  apply (NormalizeMAC_injective (str "aa-bb-cc-dd-ee-ff") (str "AABB.CCDD.EEFF")); reflexivity.
Defined.

(** ** Sockets of the sender *)

Section Sockets.
Context `{P : Platform}.

Lemma sockets_opened_app (h : history) (e1 e2 : list event) :
  sockets_opened h (e1 ++ e2) = sockets_opened h e1 ++ sockets_opened (h ++ e1) e2.
Proof.
  revert h. induction e1 as [|e e1 IH]; intros h.
  - cbn. now rewrite app_nil_r.
  - cbn [app sockets_opened]. rewrite IH, <- !app_assoc. reflexivity.
Qed.

Lemma sockets_written_app (e1 e2 : list event) :
  sockets_written (e1 ++ e2) = sockets_written e1 ++ sockets_written e2.
Proof. apply flat_map_app. Qed.

Lemma sockets_closed_app (e1 e2 : list event) :
  sockets_closed (e1 ++ e2) = sockets_closed e1 ++ sockets_closed e2.
Proof. apply flat_map_app. Qed.

Lemma sockets_written_length (evs : list event) :
  length (sockets_written evs) = length (writes_of evs).
Proof.
  induction evs as [|e evs IH]; [reflexivity|].
  destruct e; cbn in *; auto.
Qed.

Variable w : WOLSender.

Ltac run_sendPacket packet h :=
  unfold sendPacket, bind, ret, InterfaceByName, Addrs, ListenUDP, WriteToUDP, Close;
  destruct (iface w) as [|c0 name];
  [ destruct (os_ListenUDP h (str "udp4") _) as [err|conn] eqn:EL;
    [|destruct (os_WriteToUDP _ conn packet _) as [err|n] eqn:EW]
  | destruct (os_InterfaceByName h (c0 :: name)) as [err|ifi] eqn:EI;
    [|destruct (os_Addrs _ ifi) as [err|addrs] eqn:EA;
      [|destruct (net.is_nil (find_localIP addrs)) eqn:EN;
        [|destruct (os_ListenUDP _ (str "udp4") _) as [err|conn] eqn:EL;
          [|destruct (os_WriteToUDP _ conn packet _) as [err|n] eqn:EW]]]] ];
  cbn [fst snd].

(** X4. A call of [sendPacket] either fails before it has a socket, and
    then it has written nothing and closed nothing, or it opens one
    socket bound to port 0, writes the packet once to port 9 of the
    broadcast address and closes that socket as its last call, also when
    the write failed; the only error after the socket is the failed
    write. *)
Theorem sendPacket_trace (packet : list byte) (h : history) :
  let r := fst (sendPacket w packet h) in
  let dest := {| net.IP_ := ParseIP (broadcast w); net.Port := 9 |} in
  (exists e evs,
     r = Some e /\ setup_error e = true /\
     snd (sendPacket w packet h) = h ++ evs /\
     sockets_opened h evs = [] /\ writes_of evs = [] /\ sockets_closed evs = [])
  \/
  (exists pre laddr conn,
     forallb is_lookup pre = true /\
     os_ListenUDP (h ++ pre) (str "udp4") laddr = inr conn /\
     net.Port laddr = 0%Z /\
     snd (sendPacket w packet h) =
       h ++ pre ++ [CallListenUDP (str "udp4") laddr;
                    CallWriteToUDP conn packet dest; CallClose conn] /\
     r = match os_WriteToUDP (h ++ pre ++ [CallListenUDP (str "udp4") laddr])
                 conn packet dest with
         | inl err => Some (SendError err)
         | inr _ => None
         end).
Proof.
  cbv zeta. run_sendPacket packet h.
  - left. do 2 eexists. split; [reflexivity|]. split; [reflexivity|].
    split; [reflexivity|]. cbn [sockets_opened app]. rewrite EL. auto.
  - right. exists [], {| net.IP_ := net.IPv4zero; net.Port := 0 |}, conn.
    rewrite app_nil_r. cbn [app]. rewrite EL, EW.
    repeat split. now rewrite <- !app_assoc.
  - right. exists [], {| net.IP_ := net.IPv4zero; net.Port := 0 |}, conn.
    rewrite app_nil_r. cbn [app]. rewrite EL, EW.
    repeat split. now rewrite <- !app_assoc.
  - left. do 2 eexists. split; [reflexivity|]. split; [reflexivity|].
    split; [reflexivity|]. auto.
  - left. do 2 eexists. split; [reflexivity|]. split; [reflexivity|].
    split; [rewrite <- !app_assoc; reflexivity|]. auto.
  - left. do 2 eexists. split; [reflexivity|]. split; [reflexivity|].
    split; [rewrite <- !app_assoc; reflexivity|]. auto.
  - left. do 2 eexists. split; [reflexivity|]. split; [reflexivity|].
    split; [rewrite <- !app_assoc; reflexivity|].
    cbn [sockets_opened app]. rewrite <- !app_assoc in *. cbn [app] in *.
    rewrite EL. auto.
  - right.
    exists [CallInterfaceByName (c0 :: name); CallAddrs ifi],
           {| net.IP_ := find_localIP addrs; net.Port := 0 |}, conn.
    rewrite <- !app_assoc in *. cbn [app] in *. rewrite EL, EW.
    repeat split.
  - right.
    exists [CallInterfaceByName (c0 :: name); CallAddrs ifi],
           {| net.IP_ := find_localIP addrs; net.Port := 0 |}, conn.
    rewrite <- !app_assoc in *. cbn [app] in *. rewrite EL, EW.
    repeat split.
Qed.

(** What one call of [sendPacket] does with sockets. *)
Lemma sendPacket_sockets (packet : list byte) (h : history) :
  exists evs,
    snd (sendPacket w packet h) = h ++ evs /\
    evs <> [] /\
    sockets_opened h evs = sockets_closed evs /\
    sockets_written evs = sockets_closed evs /\
    (length (writes_of evs) <= 1)%nat /\
    sleeps_of evs = [] /\
    Forall (fun e => exists c, e = CallWriteToUDP c packet
              {| net.IP_ := ParseIP (broadcast w); net.Port := 9 |}) (writes_of evs) /\
    match fst (sendPacket w packet h) with
    | None => length (writes_of evs) = 1%nat
    | Some e => transmission_error e = true
    end.
Proof.
  run_sendPacket packet h;
    (eexists; split; [rewrite <- ?app_assoc; reflexivity|]);
    cbn [app sockets_opened sockets_closed sockets_written flat_map writes_of sleeps_of
         filter is_write is_sleep length];
    rewrite <- ?app_assoc; cbn [app];
    rewrite ?app_nil_r;
    try (rewrite <- ?app_assoc in EL; cbn [app] in EL);
    rewrite ?EL; cbn [app];
    repeat split; auto; try discriminate; repeat constructor; eauto.
Qed.

Lemma writes_accepted_app (h : history) (e1 e2 : list event) :
  writes_accepted h (e1 ++ e2) = writes_accepted h e1 ++ writes_accepted (h ++ e1) e2.
Proof.
  revert h. induction e1 as [|e e1 IH]; intros h.
  - cbn. now rewrite app_nil_r.
  - cbn [app writes_accepted]. rewrite IH, <- !app_assoc. reflexivity.
Qed.

(** What the operating system answered to the write of one call of
    [sendPacket]: a call without error had its write accepted; a call
    with an error had none accepted, and made a write only when the error
    is that of the write. *)
Lemma sendPacket_accepted (packet : list byte) (h : history) :
  exists evs,
    snd (sendPacket w packet h) = h ++ evs /\
    match fst (sendPacket w packet h) with
    | None => length (writes_accepted h evs) = 1%nat /\ length (writes_of evs) = 1%nat
    | Some e =>
      writes_accepted h evs = [] /\
      length (writes_of evs) = (if setup_error e then 0 else 1)%nat
    end.
Proof.
  run_sendPacket packet h;
    (eexists; split; [rewrite <- ?app_assoc; reflexivity|]);
    cbn [app writes_accepted writes_of filter is_write length setup_error];
    rewrite ?app_nil_r; rewrite ?EW; cbn [app length]; split; reflexivity.
Qed.

(** One turn of the loop of [SendRepeat]. *)
Lemma for_upto_step (packet : list byte) (count : Z) (k : nat) (i : Z) (h : history) :
  for_upto (S k) i (repeat_body w packet count) h =
  match sendPacket w packet h with
  | (Some e, h1) => (Some e, h1)
  | (None, h1) =>
    for_upto k (wrap64 (i + 1)) (repeat_body w packet count)
      (h1 ++ if (i <? wrap64 (count - 1))%Z then [CallSleep 10000000] else [])
  end.
Proof.
  cbn [for_upto]. unfold repeat_body at 1. unfold bind, ret.
  destruct (sendPacket w packet h) as [[e|] h1]; [reflexivity|].
  destruct (i <? wrap64 (count - 1))%Z.
  - reflexivity.
  - now rewrite app_nil_r.
Qed.

(** The loop of [SendRepeat], whatever the count. *)
Lemma for_upto_sockets (packet : list byte) (count : Z) (n : nat) :
  forall (i : Z) (h : history),
  exists evs,
    snd (for_upto n i (repeat_body w packet count) h) = h ++ evs /\
    (n <> 0%nat -> evs <> []) /\
    sockets_opened h evs = sockets_closed evs /\
    sockets_written evs = sockets_closed evs /\
    (length (writes_of evs) <= n)%nat /\
    (length (sleeps_of evs) <= length (writes_of evs))%nat /\
    Forall (fun e => e = CallSleep 10000000) (sleeps_of evs) /\
    Forall (fun e => exists c, e = CallWriteToUDP c packet
              {| net.IP_ := ParseIP (broadcast w); net.Port := 9 |}) (writes_of evs) /\
    match fst (for_upto n i (repeat_body w packet count) h) with
    | None => length (writes_of evs) = n
    | Some e => transmission_error e = true
    end.
Proof.
  induction n as [|k IH]; intros i h.
  - exists []. cbn. rewrite app_nil_r. repeat split; auto.
  - rewrite for_upto_step.
    destruct (sendPacket_sockets packet h)
      as (evs & Eh & Hne & Eo & Ew & Hl & Es & Hf & Hr).
    destruct (sendPacket w packet h) as [[e|] h1]; cbn [fst snd] in *; subst h1.
    + exists evs. rewrite Es. cbn [length].
      repeat split; auto; lia.
    + set (pause := if (i <? wrap64 (count - 1))%Z then [CallSleep 10000000] else []).
      rewrite <- app_assoc.
      destruct (IH (wrap64 (i + 1)) (h ++ evs ++ pause))
        as (evs' & Eh' & _ & Eo' & Ew' & Hl' & Hs' & Hp' & Hf' & Hr').
      exists (evs ++ pause ++ evs').
      assert (Hpause : sockets_opened (h ++ evs) pause = [] /\ sockets_closed pause = [] /\
                       sockets_written pause = [] /\ writes_of pause = [] /\
                       (length (sleeps_of pause) <= 1)%nat /\
                       Forall (fun e => e = CallSleep 10000000) (sleeps_of pause)).
      { subst pause. destruct (i <? wrap64 (count - 1))%Z; cbn; repeat split; auto. }
      destruct Hpause as (Po & Pc & Pw & Pww & Ps & Pf).
      rewrite Eh', !sockets_opened_app, !sockets_closed_app, !sockets_written_app,
        !writes_of_app, !sleeps_of_app, Es, Po, Pc, Pw, Pww.
      cbn [app]. rewrite !length_app.
      rewrite <- !app_assoc in *. rewrite <- Eo', <- Eo, Ew, Ew', Eo, Eo'.
      repeat split; auto; try lia.
      * intros _ E0. apply app_eq_nil in E0. now destruct E0.
      * apply Forall_app; auto.
      * apply Forall_app; auto.
      * destruct (fst (for_upto k (wrap64 (i + 1)) (repeat_body w packet count)
                         (h ++ evs ++ pause))); [assumption|lia].
Qed.

(** The writes that the operating system accepted during the loop of
    [SendRepeat]: all [n] of them in a run without error; fewer than [n]
    in a run with an error, which is then the only write refused, if the
    error is that of a write, and no write at all otherwise. *)
Lemma for_upto_accepted (packet : list byte) (count : Z) (n : nat) :
  forall (i : Z) (h : history),
  exists evs,
    snd (for_upto n i (repeat_body w packet count) h) = h ++ evs /\
    match fst (for_upto n i (repeat_body w packet count) h) with
    | None =>
      length (writes_accepted h evs) = n /\ length (writes_of evs) = n
    | Some e =>
      (length (writes_accepted h evs) < n)%nat /\
      length (writes_of evs) =
        (length (writes_accepted h evs) + if setup_error e then 0 else 1)%nat
    end.
Proof.
  induction n as [|k IH]; intros i h.
  - exists []. cbn. rewrite app_nil_r. auto.
  - rewrite for_upto_step.
    destruct (sendPacket_accepted packet h) as (evs & Eh & Hr).
    destruct (sendPacket w packet h) as [[e|] h1]; cbn [fst snd] in *; subst h1.
    + exists evs. destruct Hr as [Ha Hw]. rewrite Ha, Hw. cbn [length].
      split; [reflexivity|]. split; [lia|reflexivity].
    + set (pause := if (i <? wrap64 (count - 1))%Z then [CallSleep 10000000] else []).
      rewrite <- app_assoc.
      destruct (IH (wrap64 (i + 1)) (h ++ evs ++ pause)) as (evs' & Eh' & Hr').
      exists (evs ++ pause ++ evs').
      assert (Hpause : writes_accepted (h ++ evs) pause = [] /\ writes_of pause = []).
      { subst pause. destruct (i <? wrap64 (count - 1))%Z; cbn; auto. }
      destruct Hpause as [Pa Pw]. destruct Hr as [Ha Hw].
      rewrite Eh', !writes_accepted_app, !writes_of_app, Pa, Pw.
      cbn [app]. rewrite !length_app, Ha, Hw.
      rewrite <- !app_assoc in *.
      split; [reflexivity|].
      destruct (fst (for_upto k (wrap64 (i + 1)) (repeat_body w packet count)
                       (h ++ evs ++ pause))) as [e|].
      * destruct Hr' as [Hlt Hcount]. split; [lia|]. rewrite Hcount. lia.
      * destruct Hr' as [Hacc Hcount]. rewrite Hacc, Hcount. auto.
Qed.

Lemma SendRepeat_loop (mac : gostring) (b : list byte) (N : Z) (h : history) :
  parseMAC mac = inr b ->
  SendRepeat w mac N h = for_upto (Z.to_nat N) 0 (repeat_body w (constructMagicPacket b) N) h.
Proof.
  intros Hp. unfold SendRepeat. rewrite Hp. unfold bind at 1.
  fold (repeat_body w (constructMagicPacket b) N).
  now destruct (for_upto (Z.to_nat N) 0 (repeat_body w (constructMagicPacket b) N) h)
    as [[e|] h1].
Qed.

(** X5. Over a whole run of [SendRepeat], for any count and any
    answers of the operating system, the sockets opened, written to and
    closed are the same, one after the other: no socket is left open,
    none is written to twice or after its closing; at most [count]
    datagrams are written, each pause of 10 ms follows a write, and a
    run without error has written [count] datagrams.  A text that does
    not parse causes no call at all. *)
Theorem SendRepeat_sockets (mac : gostring) (N : Z) (h : history) :
  exists evs,
    snd (SendRepeat w mac N h) = h ++ evs /\
    sockets_opened h evs = sockets_closed evs /\
    sockets_written evs = sockets_closed evs /\
    (length (writes_of evs) <= Z.to_nat N)%nat /\
    (length (sleeps_of evs) <= length (writes_of evs))%nat /\
    Forall (fun e => e = CallSleep 10000000) (sleeps_of evs) /\
    (fst (SendRepeat w mac N h) = None -> length (writes_of evs) = Z.to_nat N) /\
    (forall e, parseMAC mac = inl e -> evs = []).
Proof.
  destruct (parseMAC mac) as [e|b] eqn:Hp.
  - rewrite (SendRepeat_unparsed w mac e N h Hp).
    exists []. cbn [ret fst snd writes_of sleeps_of filter length sockets_opened
                    sockets_closed sockets_written flat_map].
    rewrite app_nil_r.
    repeat split; auto; try lia; discriminate.
  - rewrite (SendRepeat_loop mac b N h Hp).
    destruct (for_upto_sockets (constructMagicPacket b) N (Z.to_nat N) 0 h)
      as (evs & Eh & _ & Eo & Ew & Hl & Hs & Hf & _ & Hr).
    exists evs.
    destruct (for_upto (Z.to_nat N) 0 (repeat_body w (constructMagicPacket b) N) h)
      as [[e|] h1]; cbn [fst snd ret] in *;
      repeat split; auto; discriminate.
Qed.

(** X6. A text that [ValidateMAC] accepts never makes [SendRepeat] fail
    for its format: with a positive count the run calls the operating
    system, and it ends either without error after [count] datagrams of
    102 bytes or with an error of the transmission. *)
Theorem SendRepeat_validated (mac : gostring) (N : Z) (h : history) :
  ValidateMAC mac = None -> (0 < N)%Z ->
  exists b evs,
    parseMAC mac = inr b /\ length b = 6%nat /\
    snd (SendRepeat w mac N h) = h ++ evs /\ evs <> [] /\
    Forall (fun e => exists c, e = CallWriteToUDP c (constructMagicPacket b)
              {| net.IP_ := ParseIP (broadcast w); net.Port := 9 |}) (writes_of evs) /\
    length (constructMagicPacket b) = 102%nat /\
    match fst (SendRepeat w mac N h) with
    | None => length (writes_of evs) = Z.to_nat N
    | Some e => transmission_error e = true
    end.
Proof.
  intros Hv HN. rewrite ValidateMAC_normalized in Hv.
  destruct (parseMAC_cases mac) as [(Hs & Hd & E & Hp)|(Hs & _)];
    [|rewrite Hs in Hv; discriminate].
  set (b := octets (map digit_value (digits_in (normalized mac)))) in *.
  rewrite (SendRepeat_loop mac b N h Hp).
  destruct (for_upto_sockets (constructMagicPacket b) N (Z.to_nat N) 0 h)
    as (evs & Eh & Hne & Eo & Ew & Hl & Hsl & Hf & Hw & Hr).
  exists b, evs.
  split; [assumption|]. split; [now apply octets_length|].
  split; [assumption|]. split; [apply Hne; lia|].
  split; [assumption|]. split; [apply constructMagicPacket_length|assumption].
Qed.
End Sockets.

Section Constructed.
Context `{P : Platform}.

Lemma ParseIP_empty : net.is_nil (ParseIP []) = true.
Proof. reflexivity. Qed.

(** X7. A sender that [NewSender] returned keeps the interface name,
    has a broadcast text that is not empty (the given one unless that
    was empty) and that [net.ParseIP] reads as an address; so every
    datagram that [SendRepeat] writes with it, whatever the text, the
    count and the outcome, has 102 bytes and goes to port 9 of an
    address that is not nil. *)
Theorem NewSender_sends_to_address (name bc : gostring) (s : WOLSender) :
  NewSender name bc = inr s ->
  iface s = name /\ broadcast s <> [] /\ (bc <> [] -> broadcast s = bc) /\
  net.is_nil (ParseIP (broadcast s)) = false /\
  forall mac N h evs,
    snd (SendRepeat s mac N h) = h ++ evs ->
    Forall (fun e => exists c p dest,
              e = CallWriteToUDP c p dest /\ length p = 102%nat /\
              net.is_nil (net.IP_ dest) = false /\ net.Port dest = 9%Z)
           (writes_of evs).
Proof.
  unfold NewSender.
  destruct (net.is_nil (ParseIP match bc with [] => str "255.255.255.255" | _ :: _ => bc end))
    eqn:Hnil; [discriminate|].
  intros [= <-]. cbn [iface broadcast].
  split; [reflexivity|]. split; [|split; [|split; [assumption|]]].
  - destruct bc; discriminate.
  - destruct bc; [contradiction|reflexivity].
  - intros mac N h evs Eh.
    set (s := {| iface := name; broadcast := _ |}) in *.
    destruct (parseMAC mac) as [e|b] eqn:Hp.
    + rewrite (SendRepeat_unparsed s mac e N h Hp) in Eh. cbn [snd] in Eh.
      rewrite <- (app_nil_r h) in Eh at 1. apply app_inv_head in Eh. subst evs.
      constructor.
    + rewrite (SendRepeat_loop s mac b N h Hp) in Eh.
      destruct (for_upto_sockets s (constructMagicPacket b) N (Z.to_nat N) 0 h)
        as (evs' & Eh' & _ & _ & _ & _ & _ & _ & Hw & _).
      rewrite Eh' in Eh. apply app_inv_head in Eh. subst evs'.
      eapply Forall_impl; [|exact Hw].
      intros ev [c ->]. do 3 eexists. split; [reflexivity|].
      split; [apply constructMagicPacket_length|]. split; [exact Hnil|reflexivity].
Qed.
End Constructed.

Lemma SendRepeat_validated_witness :
  exists b evs,
    parseMAC (str "AABB.CCDD.EEFF") = inr b /\ length b = 6%nat /\
    snd (SendRepeat (H := sample_platform) sample_eth0 (str "AABB.CCDD.EEFF") 3 [])
      = [] ++ evs /\ evs <> [] /\
    Forall (fun e => exists c, e = CallWriteToUDP c (constructMagicPacket b)
              {| net.IP_ := ParseIP (H := sample_platform) (broadcast sample_eth0);
                 net.Port := 9 |}) (writes_of evs) /\
    length (constructMagicPacket b) = 102%nat /\
    match fst (SendRepeat (H := sample_platform) sample_eth0 (str "AABB.CCDD.EEFF") 3 []) with
    | None => length (writes_of evs) = Z.to_nat 3
    | Some e => transmission_error e = true
    end.
Proof.
  apply (@SendRepeat_validated sample_platform sample_eth0 (str "AABB.CCDD.EEFF") 3 []);
    [reflexivity|lia].
Defined.

Lemma NewSender_sends_to_address_witness :
  NewSender (H := sample_platform) (str "eth0") (str "192.168.1.255")
    = inr {| iface := str "eth0"; broadcast := str "192.168.1.255" |} /\
  net.is_nil (ParseIP (H := sample_platform) (str "192.168.1.255")) = false.
Proof.
  split; [reflexivity|].
  apply (@NewSender_sends_to_address sample_platform (str "eth0") (str "192.168.1.255")
           {| iface := str "eth0"; broadcast := str "192.168.1.255" |} eq_refl).
Defined.

(** ** [insertColons] as grouping *)

Section Groups.
Variable n : nat.
Hypothesis Hn : (0 < n)%nat.

Lemma rem_inside (k j : Z) :
  (0 <= k)%Z -> (0 < j < Z.of_nat n)%Z -> (Z.rem (k * Z.of_nat n + j) (Z.of_nat n) =? 0)%Z = false.
Proof.
  intros Hk Hj. apply Z.eqb_neq.
  rewrite Z.rem_mod_nonneg by nia.
  rewrite Z.add_comm, Z.mod_add by lia. rewrite Z.mod_small; lia.
Qed.

Lemma rem_border (k : Z) :
  (0 <= k)%Z -> (Z.rem (k * Z.of_nat n) (Z.of_nat n) =? 0)%Z = true.
Proof.
  intros Hk. apply Z.eqb_eq. rewrite Z.rem_mod_nonneg by nia.
  apply Z.mod_mul. lia.
Qed.

Lemma colons_inside (k : Z) (g rest : gostring) :
  (0 <= k)%Z ->
  forall j : Z, (0 < j)%Z -> (j + Z.of_nat (length g) <= Z.of_nat n)%Z ->
  colons_from (Z.of_nat n) (k * Z.of_nat n + j) (g ++ rest)
  = g ++ colons_from (Z.of_nat n) (k * Z.of_nat n + j + Z.of_nat (length g)) rest.
Proof.
  intros Hk. induction g as [|c g IH]; intros j Hj Hl.
  - cbn [app length]. now rewrite Z.add_0_r.
  - cbn [app colons_from length] in *.
    rewrite rem_inside by lia. rewrite andb_false_r. cbn [app]. f_equal.
    replace (k * Z.of_nat n + j + 1)%Z with (k * Z.of_nat n + (j + 1))%Z by lia.
    rewrite IH by lia. do 2 f_equal. lia.
Qed.

Lemma colons_group (k : Z) (c : byte) (g rest : gostring) :
  (0 <= k)%Z -> (length (c :: g) <= n)%nat ->
  colons_from (Z.of_nat n) (k * Z.of_nat n) ((c :: g) ++ rest)
  = (if (k >? 0)%Z then str ":" else []) ++ (c :: g) ++
    colons_from (Z.of_nat n) (k * Z.of_nat n + Z.of_nat (length (c :: g))) rest.
Proof.
  intros Hk Hl. cbn [app colons_from length] in *.
  rewrite rem_border by lia. rewrite andb_true_r.
  rewrite colons_inside by lia.
  replace (k * Z.of_nat n >? 0)%Z with (k >? 0)%Z.
  2:{ destruct (Z.gtb_spec k 0), (Z.gtb_spec (k * Z.of_nat n) 0); auto; nia. }
  replace (k * Z.of_nat n + 1 + Z.of_nat (length g))%Z
    with (k * Z.of_nat n + Z.of_nat (S (length g)))%Z by lia.
  now destruct (k >? 0)%Z.
Qed.

Lemma colons_groups (fuel : nat) :
  forall (s : gostring) (k : Z),
  (0 <= k)%Z -> (length s <= fuel)%nat ->
  colons_from (Z.of_nat n) (k * Z.of_nat n) s =
  match groups_of fuel n s with
  | [] => []
  | gs => (if (k >? 0)%Z then str ":" else []) ++ strings.Join gs (str ":")
  end.
Proof.
  induction fuel as [|f IH]; intros s k Hk Hl.
  - destruct s; [reflexivity|cbn in Hl; lia].
  - destruct s as [|c t]; [reflexivity|].
    cbn [groups_of].
    assert (Es : c :: t = firstn n (c :: t) ++ skipn n (c :: t))
      by (symmetry; apply firstn_skipn).
    assert (Ef : exists g, firstn n (c :: t) = c :: g).
    { clear -Hn. destruct n; [lia|]. eexists. reflexivity. }
    destruct Ef as [g Ef].
    rewrite Es at 1. rewrite Ef.
    rewrite colons_group; [|assumption|rewrite <- Ef, length_firstn; lia].
    rewrite <- Ef.
    destruct (Nat.le_gt_cases n (length (c :: t))) as [Hfull|Hshort].
    + assert (El : length (firstn n (c :: t)) = n) by (rewrite length_firstn; lia).
      rewrite El.
      replace (k * Z.of_nat n + Z.of_nat n)%Z with ((k + 1) * Z.of_nat n)%Z by lia.
      rewrite IH; [|lia|rewrite length_skipn; cbn [length] in *; lia].
      replace (k + 1 >? 0)%Z with true by (symmetry; apply Z.gtb_lt; lia).
      cbn [strings.Join].
      destruct (groups_of f n (skipn n (c :: t))) as [|g0 gs].
      * now rewrite app_nil_r.
      * reflexivity.
    + rewrite (skipn_all2 (n := n) (c :: t)) by lia.
      rewrite firstn_all2 by lia.
      destruct f; cbn [groups_of colons_from strings.Join]; now rewrite app_nil_r.
Qed.
End Groups.

Lemma digits_in_app (s t : gostring) : digits_in (s ++ t) = digits_in s ++ digits_in t.
Proof. apply filter_app. Qed.

Lemma digits_in_colons_from (n i : Z) (s : gostring) :
  digits_in (colons_from n i s) = digits_in s.
Proof.
  revert i. induction s as [|c t IH]; intros i; [reflexivity|].
  cbn [colons_from]. rewrite digits_in_app, IH.
  change (digits_in (c :: t)) with (digits_in ([c] ++ t)). rewrite (digits_in_app [c]).
  destruct ((i >? 0)%Z && (Z.rem i n =? 0)%Z); [|reflexivity].
  now rewrite digits_in_colon.
Qed.

(** X8. On a text of ASCII bytes and for a positive [n], [insertColons]
    returns the groups of [n] bytes of the text, the last one possibly
    shorter, joined by colons: no colon comes first or last, and taking
    the colons out again gives what taking them out of the text gives. *)
Theorem insertColons_groups (s : gostring) (n : nat) :
  forallb is_ascii s = true -> (0 < n)%nat ->
  insertColons s (Z.of_nat n) = strings.Join (groups n s) (str ":") /\
  strings.ReplaceAll (insertColons s (Z.of_nat n)) (str ":") (str "")
    = strings.ReplaceAll s (str ":") (str "").
Proof.
  intros Ha Hn. rewrite insertColons_ascii by assumption. split.
  - pose proof (colons_groups n Hn (length s) s 0 (Z.le_refl 0) (Nat.le_refl _)) as H.
    cbn [Z.mul] in H. rewrite H. unfold groups.
    destruct (groups_of (length s) n s); reflexivity.
  - change (str ":") with [":"%char]. change (str "") with (@nil ascii).
    rewrite !ReplaceAll_delete. apply digits_in_colons_from.
Qed.

Lemma insertColons_groups_witness :
  insertColons (str "aabbccdde") 4 = str "aabb:ccdd:e".
Proof.
  apply (proj1 (insertColons_groups (str "aabbccdde") 4 eq_refl ltac:(lia))).
Defined.

(** ** The pattern of [validateDevice] *)

Lemma digit_class_spec (c : byte) :
  existsb (regexp.in_range c) [("0", "9")]%char = is_digit c.
Proof. by_byte c. Qed.

Lemma digit_not_dot (c : byte) : is_digit c = true -> byte_eqb "." c = false.
Proof. by_byte c. Qed.

Lemma string_eqb_eq (s t : gostring) : string_eqb s t = true <-> s = t.
Proof. unfold string_eqb. destruct (list_eq_dec ascii_dec s t); split; congruence. Qed.

Lemma string_eqb_nil (s : gostring) :
  string_eqb s (str "") = match s with [] => true | _ :: _ => false end.
Proof.
  unfold string_eqb.
  destruct (list_eq_dec ascii_dec s (str "")) as [E|E], s;
    try reflexivity; try discriminate E. now elim E.
Qed.

Lemma counted_search_anchored (s : gostring) (r : regexp_counted.Regexp) :
  regexp_counted.search
    (regexp_counted.Cat (regexp_counted.Plain regexp.BeginText) r) false s = false.
Proof. induction s as [|c s IH]; simpl; auto. Qed.

Lemma counted_MatchString_anchored (r : regexp_counted.Regexp) (s : gostring) :
  regexp_counted.MatchString
    (regexp_counted.Cat (regexp_counted.Plain regexp.BeginText) r) s
  = regexp_counted.match_here r true s (fun _ _ => true).
Proof.
  unfold regexp_counted.MatchString. destruct s as [|c s]; simpl.
  - now rewrite orb_false_r.
  - now rewrite counted_search_anchored, orb_false_r.
Qed.

(** One to three digits before a continuation that refuses a digit. *)
Lemma match_digits (bot : bool) (s : gostring) (k : bool -> gostring -> bool) :
  (forall b c t, is_digit c = true -> k b (c :: t) = false) ->
  regexp_counted.match_here (regexp_counted.RepeatRange 1 3 web.digitClass) bot s k
  = group_then (k false) s.
Proof.
  intros Hk. unfold group_then.
  destruct s as [|c1 s]; [reflexivity|].
  cbn [regexp_counted.match_here web.digitClass regexp.match_here Nat.sub span_digits].
  rewrite digit_class_spec.
  destruct (is_digit c1) eqn:H1; [|reflexivity]. cbn [andb].
  destruct s as [|c2 s]; [reflexivity|].
  cbn [span_digits]. rewrite digit_class_spec.
  destruct (is_digit c2) eqn:H2; [|reflexivity]. cbn [andb].
  rewrite (Hk false c2 s H2), orb_false_r.
  destruct s as [|c3 s]; [reflexivity|].
  cbn [span_digits]. rewrite digit_class_spec.
  destruct (is_digit c3) eqn:H3; [|reflexivity]. cbn [andb].
  now rewrite (Hk false c3 s H3), orb_false_r.
Qed.

Lemma counted_match_Cat r1 r2 bot s k :
  regexp_counted.match_here (regexp_counted.Cat r1 r2) bot s k
  = regexp_counted.match_here r1 bot s
      (fun bot' s' => regexp_counted.match_here r2 bot' s' k).
Proof. reflexivity. Qed.

Lemma counted_match_Repeat_S n r bot s k :
  regexp_counted.match_here (regexp_counted.Repeat (S n) r) bot s k
  = regexp_counted.match_here r bot s
      (fun bot' s' => regexp_counted.match_here (regexp_counted.Repeat n r) bot' s' k).
Proof. reflexivity. Qed.

Lemma counted_match_Repeat_O r bot s k :
  regexp_counted.match_here (regexp_counted.Repeat 0 r) bot s k = k bot s.
Proof. reflexivity. Qed.

Lemma match_digits_dot (bot : bool) (s : gostring) (k : bool -> gostring -> bool) :
  regexp_counted.match_here
    (regexp_counted.Cat (regexp_counted.RepeatRange 1 3 web.digitClass)
       (regexp_counted.Plain (regexp.Lit "."))) bot s k
  = group_then (dot_then (k false)) s.
Proof.
  rewrite counted_match_Cat, match_digits.
  - reflexivity.
  - intros b c t Hc. cbn [regexp_counted.match_here regexp.match_here].
    now rewrite (digit_not_dot c Hc).
Qed.

Lemma group_then_ext (k1 k2 : gostring -> bool) (s : gostring) :
  (forall r, k1 r = k2 r) -> group_then k1 s = group_then k2 s.
Proof.
  intros H. unfold group_then. destruct (span_digits 3 s) as [[|c g] r]; auto.
Qed.

Lemma dot_then_ext (k1 k2 : gostring -> bool) (s : gostring) :
  (forall r, k1 r = k2 r) -> dot_then k1 s = dot_then k2 s.
Proof. intros H. destruct s as [|c t]; cbn [dot_then]; [reflexivity|]. now rewrite H. Qed.

Lemma ipRegex_shape (s : gostring) :
  regexp_counted.MatchString web.ipRegex s = quad_shape s.
Proof.
  unfold web.ipRegex, quad_shape.
  rewrite counted_MatchString_anchored, counted_match_Cat.
  rewrite counted_match_Repeat_S, match_digits_dot.
  apply group_then_ext. intros r1. apply dot_then_ext. intros s1.
  rewrite counted_match_Repeat_S, match_digits_dot.
  apply group_then_ext. intros r2. apply dot_then_ext. intros s2.
  rewrite counted_match_Repeat_S, match_digits_dot.
  apply group_then_ext. intros r3. apply dot_then_ext. intros s3.
  rewrite counted_match_Repeat_O. cbv beta.
  rewrite counted_match_Cat, match_digits.
  - apply group_then_ext. intros r4. now destruct r4.
  - intros b c t _. reflexivity.
Qed.

(** ** The shape of a dotted quad *)

Lemma span_digits_spec (n : nat) (s : gostring) :
  let '(g, r) := span_digits n s in
  s = g ++ r /\ forallb is_digit g = true /\ (length g <= n)%nat.
Proof.
  revert s. induction n as [|n IH]; intros s; cbn [span_digits].
  - repeat split; auto.
  - destruct s as [|c t]; [repeat split; auto; cbn; lia|].
    destruct (is_digit c) eqn:Hc; [|repeat split; auto; cbn; lia].
    specialize (IH t). destruct (span_digits n t) as [g r].
    destruct IH as (-> & Hg & Hl). cbn [app forallb length]. rewrite Hc, Hg.
    repeat split; auto. lia.
Qed.

Lemma span_digits_app (g r : gostring) :
  forallb is_digit g = true ->
  match r with [] => true | c :: _ => negb (is_digit c) end = true ->
  forall n, (length g <= n)%nat -> span_digits n (g ++ r) = (g, r).
Proof.
  intros Hd Hr. induction g as [|c g IH]; intros n Hl.
  - cbn [app]. destruct n as [|n]; [reflexivity|].
    destruct r as [|c t]; [reflexivity|].
    cbn [span_digits]. apply negb_true_iff in Hr. now rewrite Hr.
  - cbn [forallb] in Hd. apply andb_prop in Hd. destruct Hd as [Hc Hd].
    destruct n as [|n]; [cbn in Hl; lia|].
    cbn [app span_digits]. rewrite Hc, (IH Hd n) by (cbn in Hl; lia). reflexivity.
Qed.

Lemma span_digits_group (g r : gostring) :
  digit_group g = true -> match r with [] => true | c :: _ => negb (is_digit c) end = true ->
  span_digits 3 (g ++ r) = (g, r) /\ g <> [].
Proof.
  unfold digit_group. intros Hg Hr.
  apply andb_prop in Hg. destruct Hg as [Hl Hd].
  apply andb_prop in Hl. destruct Hl as [H1 H3].
  apply Nat.leb_le in H1, H3. split.
  - now apply span_digits_app.
  - intros ->. cbn in H1. lia.
Qed.

Lemma group_then_inv (k : gostring -> bool) (s : gostring) :
  group_then k s = true ->
  exists g r, s = g ++ r /\ digit_group g = true /\ k r = true.
Proof.
  unfold group_then. pose proof (span_digits_spec 3 s) as H.
  destruct (span_digits 3 s) as [[|c g] r]; [discriminate|].
  destruct H as (-> & Hd & Hl). intros Hk.
  exists (c :: g), r. split; [reflexivity|]. split; [|assumption].
  unfold digit_group. rewrite Hd, andb_true_r.
  apply andb_true_intro. split; [reflexivity|]. now apply Nat.leb_le.
Qed.

Lemma dot_then_inv (k : gostring -> bool) (s : gostring) :
  dot_then k s = true -> exists t, s = str "." ++ t /\ k t = true.
Proof.
  destruct s as [|c t]; [discriminate|]. cbn [dot_then]. intros H.
  apply andb_prop in H. destruct H as [Hc Hk]. apply byte_eqb_eq in Hc. subst c.
  now exists t.
Qed.

Lemma group_dot_intro (k : gostring -> bool) (g t : gostring) :
  digit_group g = true -> k t = true ->
  group_then (dot_then k) (g ++ str "." ++ t) = true.
Proof.
  intros Hg Hk. unfold group_then.
  destruct (span_digits_group g (str "." ++ t) Hg eq_refl) as [-> Hne].
  destruct g; [contradiction|]. cbn [str list_ascii_of_string app dot_then].
  now rewrite Hk.
Qed.

Lemma quad_shape_spec (s : gostring) : quad_shape s = true <-> dotted_quad s.
Proof.
  unfold quad_shape, dotted_quad. split.
  - intros H.
    apply group_then_inv in H. destruct H as (g1 & r1 & -> & H1 & H).
    apply dot_then_inv in H. destruct H as (s1 & -> & H).
    apply group_then_inv in H. destruct H as (g2 & r2 & -> & H2 & H).
    apply dot_then_inv in H. destruct H as (s2 & -> & H).
    apply group_then_inv in H. destruct H as (g3 & r3 & -> & H3 & H).
    apply dot_then_inv in H. destruct H as (s3 & -> & H).
    apply group_then_inv in H. destruct H as (g4 & r4 & -> & H4 & H).
    destruct r4; [|discriminate]. rewrite app_nil_r.
    exists g1, g2, g3, g4. split; [reflexivity|].
    cbn [forallb]. now rewrite H1, H2, H3, H4.
  - intros (g1 & g2 & g3 & g4 & -> & H). cbn [forallb] in H. split_andb.
    do 3 (apply group_dot_intro; [assumption|]).
    unfold group_then.
    rewrite <- (app_nil_r g4).
    match goal with H : digit_group g4 = true |- _ =>
      destruct (span_digits_group g4 [] H eq_refl) as [-> Hne] end.
    destruct g4; [contradiction|reflexivity].
Qed.

(** ** [validateDevice] *)

(** X9. [validateDevice] accepts a device exactly when its name is not
    empty, its MAC text is one that [parseMAC] accepts and its IP text is
    empty or four groups of one to three digits with dots between them;
    the MAC of an accepted device parses to six bytes; and a device that
    is refused gets the error of the first check that fails, in the order
    name, MAC, IP. *)
Theorem validateDevice_accepts (d : store_.Device) :
  (web.validateDevice d = None <->
     store_.Name d <> [] /\ relaxed_notation (store_.MAC d) = true /\
     (store_.IP d = [] \/ dotted_quad (store_.IP d))) /\
  (web.validateDevice d = None ->
     exists b, parseMAC (store_.MAC d) = inr b /\ length b = 6%nat) /\
  (forall e, web.validateDevice d = Some e ->
     e = if string_eqb (store_.Name d) [] then web.NameRequired
         else if string_eqb (store_.MAC d) [] then web.MACRequired
         else if negb (relaxed_notation (store_.MAC d))
              then web.InvalidMAC (InvalidFormat (normalized (store_.MAC d)))
              else web.InvalidIPFormat).
Proof.
  unfold web.validateDevice.
  rewrite ValidateMAC_normalized, ipRegex_shape, relaxed_notation_spec.
  change (str "") with (@nil ascii). rewrite !string_eqb_nil.
  destruct (parseMAC_cases (store_.MAC d)) as [(Hs & Hd & E & Hp)|(Hs & Hp)]; rewrite Hs.
  - destruct (store_.Name d) as [|n0 name].
    { split; [split; [discriminate|intros [H _]; contradiction]|].
      split; [discriminate|]. now intros e [= <-]. }
    destruct (store_.MAC d) as [|m0 mac] eqn:Em.
    { discriminate Hs. }
    destruct (store_.IP d) as [|i0 ip] eqn:Ei; cbn [negb andb].
    { split; [split; [intros _; repeat split; auto; discriminate|reflexivity]|].
      split; [|discriminate]. intros _. eexists. split; [exact Hp|].
      now apply octets_length. }
    destruct (quad_shape (i0 :: ip)) eqn:Hq; cbn [negb].
    + split; [split; [intros _|reflexivity]|].
      * split; [discriminate|]. split; [reflexivity|]. right. now apply quad_shape_spec.
      * split; [|discriminate]. intros _. eexists. split; [exact Hp|].
        now apply octets_length.
    + split; [split; [discriminate|]|].
      * intros (_ & _ & [H|H]); [discriminate|].
        apply quad_shape_spec in H. congruence.
      * split; [discriminate|]. now intros e [= <-].
  - destruct (store_.Name d) as [|n0 name].
    { split; [split; [discriminate|intros [H _]; contradiction]|].
      split; [discriminate|]. now intros e [= <-]. }
    destruct (store_.MAC d) as [|m0 mac] eqn:Em.
    { split; [split; [discriminate|intros (_ & H & _); discriminate]|].
      split; [discriminate|]. now intros e [= <-]. }
    split; [split; [discriminate|intros (_ & H & _); discriminate]|].
    split; [discriminate|]. now intros e [= <-].
Qed.

(** ** [wakeHandler] *)

Section Wake.
Context `{P : Platform} `{D : web.Decoder}.
Variable h : web.Handler.

(** X10. [wakeHandler] answers every request with one JSON response.
    405 for a method other than POST and 400 for a body that does not
    decode or a MAC text that [ValidateMAC] refuses, both without any
    call of the operating system; otherwise it runs [SendRepeat] with
    count 3, which closes every socket it opened, and answers 200
    exactly when the operating system accepted three writes of the
    magic packet of the address, and 500 with the text of the error of
    the transmission otherwise: then fewer than three writes were
    accepted, and the last write made is the one refused if the error
    is that of a write (so that three writes made do not mean 200).  A
    refused text never gets as far as the sender, and an accepted one
    never fails for its format. *)
Theorem wakeHandler_outcomes (r : http.Request) (hist : history) :
  exists status data evs,
    web.wakeHandler h r hist =
      ([web.HeaderSet (str "Content-Type") (str "application/json");
        web.WriteHeader status; web.Encode data], hist ++ evs) /\
    web.Success data = (status =? 200)%Z /\
    (status = 200%Z <-> length (writes_accepted hist evs) = 3%nat) /\
    ((status = 405%Z /\ http.Method r <> str "POST" /\ evs = [] /\
      web.Error data = str "Method not allowed")
     \/
     (status = 400%Z /\ http.Method r = str "POST" /\ evs = [] /\
      ((exists err, web.decode_MAC (http.Body r) = inl err /\
                    web.Error data = str "Invalid request body")
       \/
       (exists mac, web.decode_MAC (http.Body r) = inr mac /\
                    relaxed_notation mac = false /\
                    web.Error data =
                      str "invalid MAC address format: " ++ normalized mac)))
     \/
     (exists mac b,
        http.Method r = str "POST" /\
        web.decode_MAC (http.Body r) = inr mac /\ parseMAC mac = inr b /\
        length b = 6%nat /\
        evs <> [] /\
        sockets_opened hist evs = sockets_closed evs /\
        sockets_written evs = sockets_closed evs /\
        Forall (fun e => exists c, e = CallWriteToUDP c (constructMagicPacket b)
                  {| net.IP_ := ParseIP (broadcast (web.wol h)); net.Port := 9 |})
               (writes_of evs) /\
        ((status = 200%Z /\ length (writes_of evs) = 3%nat /\
          web.Message data = str "WOL packet sent to " ++ mac)
         \/
         (status = 500%Z /\ (length (writes_of evs) <= 3)%nat /\
          (length (writes_accepted hist evs) < 3)%nat /\
          exists e, transmission_error e = true /\
                    length (writes_of evs) =
                      (length (writes_accepted hist evs)
                       + if setup_error e then 0 else 1)%nat /\
                    web.Error data = str "Failed to send WOL packet: " ++ error_text e)))).
Proof.
  unfold web.wakeHandler.
  destruct (string_eqb (http.Method r) http.MethodPost) eqn:Hm; cbn [negb].
  2:{ do 2 eexists. exists []. rewrite app_nil_r. split; [reflexivity|].
      split; [reflexivity|]. split; [split; discriminate|].
      left. repeat split; auto.
      intros E. apply string_eqb_eq in E. unfold http.MethodPost in Hm. congruence. }
  apply string_eqb_eq in Hm. unfold http.MethodPost in Hm.
  destruct (web.decode_MAC (http.Body r)) as [err|mac] eqn:Hd.
  { do 2 eexists. exists []. rewrite app_nil_r. split; [reflexivity|].
    split; [reflexivity|]. split; [split; discriminate|].
    right. left. repeat split; auto. left. eauto. }
  rewrite ValidateMAC_normalized.
  destruct (parseMAC_cases mac) as [(Hs & Hdg & E & Hp)|(Hs & Hp)]; rewrite Hs.
  2:{ do 2 eexists. exists []. rewrite app_nil_r. split; [reflexivity|].
      split; [reflexivity|]. split; [split; discriminate|].
      right. left. repeat split; auto. right.
      exists mac. rewrite relaxed_notation_spec. auto. }
  set (b := octets (map digit_value (digits_in (normalized mac)))) in *.
  unfold bind. rewrite (SendRepeat_loop (web.wol h) mac b 3 hist Hp).
  destruct (for_upto_sockets (web.wol h) (constructMagicPacket b) 3 (Z.to_nat 3) 0 hist)
    as (evs & Eh & Hne & Eo & Ew & Hl & _ & _ & Hw & Hr).
  destruct (for_upto_accepted (web.wol h) (constructMagicPacket b) 3 (Z.to_nat 3) 0 hist)
    as (evs' & Eh' & Ha).
  assert (evs' = evs) as -> by (rewrite Eh in Eh'; now apply app_inv_head in Eh').
  clear Eh'.
  destruct (for_upto (Z.to_nat 3) 0 (repeat_body (web.wol h) (constructMagicPacket b) 3) hist)
    as [[e|] h1]; cbn [fst snd] in *; subst h1.
  - destruct Ha as [Hlt Hcount]. change (Z.to_nat 3) with 3%nat in *.
    do 2 eexists. exists evs. split; [reflexivity|]. split; [reflexivity|].
    split; [split; [discriminate|lia]|].
    right. right. exists mac, b.
    split; [assumption|]. split; [reflexivity|]. split; [assumption|].
    split; [now apply octets_length|]. split; [apply Hne; discriminate|].
    split; [assumption|]. split; [assumption|]. split; [assumption|].
    right. split; [reflexivity|]. split; [assumption|]. split; [assumption|].
    exists e. split; [assumption|]. split; [assumption|reflexivity].
  - destruct Ha as [Hacc Hcount]. change (Z.to_nat 3) with 3%nat in *.
    do 2 eexists. exists evs. split; [reflexivity|]. split; [reflexivity|].
    split; [split; [intros _; assumption|reflexivity]|].
    right. right. exists mac, b.
    split; [assumption|]. split; [reflexivity|]. split; [assumption|].
    split; [now apply octets_length|]. split; [apply Hne; discriminate|].
    split; [assumption|]. split; [assumption|]. split; [assumption|].
    left. split; [reflexivity|]. split; [assumption|reflexivity].
Qed.
End Wake.

(** ** [dirPath] *)

Lemma dirPath_loop_spec (path : gostring) (fuel : nat) :
  forall idx : Z,
  (0 <= idx <= Z.of_nat fuel)%Z ->
  let r := store_.dirPath_loop fuel path idx in
  (0 <= r <= idx)%Z /\
  (r = 0%Z \/ at_ path (Z.to_nat r) = "/"%char) /\
  (forall j, (r < j <= idx)%Z -> at_ path (Z.to_nat j) <> "/"%char).
Proof.
  induction fuel as [|fuel IH]; intros idx Hi; cbn [store_.dirPath_loop].
  - cbv zeta. split; [lia|]. split; [left; lia|]. intros j Hj. lia.
  - destruct (idx >? 0)%Z eqn:Hpos; cbn [andb].
    2:{ cbv zeta. rewrite Z.gtb_ltb in Hpos. apply Z.ltb_ge in Hpos.
        split; [lia|]. split; [left; lia|]. intros j Hj. lia. }
    apply Z.gtb_lt in Hpos.
    destruct (byte_eqb (at_ path (Z.to_nat idx)) "/") eqn:Hc; cbn [negb].
    + cbv zeta. apply byte_eqb_eq in Hc.
      split; [lia|]. split; [now right|]. intros j Hj. lia.
    + destruct (IH (idx - 1)%Z ltac:(lia)) as (Hr & Hs & Hn). cbv zeta.
      split; [lia|]. split; [assumption|].
      intros j Hj. destruct (Z.eq_dec j idx) as [->|Hne].
      * intros E. apply byte_eqb_eq in E. congruence.
      * apply Hn. lia.
Qed.

Lemma nth_split_at {A} (l : list A) (i : nat) (d : A) :
  (i < length l)%nat -> l = firstn i l ++ nth i l d :: skipn (S i) l.
Proof.
  revert i. induction l as [|x l IH]; intros i Hi; [cbn in Hi; lia|].
  destruct i as [|i]; [reflexivity|].
  cbn [firstn nth skipn app]. f_equal. apply IH. cbn in Hi. lia.
Qed.

Lemma In_skipn_nth {A} (l : list A) (i : nat) (x d : A) :
  In x (skipn i l) -> exists j, (i <= j < length l)%nat /\ nth j l d = x.
Proof.
  intros Hin. destruct (In_nth _ _ d Hin) as (k & Hk & Ek).
  rewrite length_skipn in Hk. rewrite nth_skipn in Ek.
  exists (i + k)%nat. split; [lia|assumption].
Qed.

(** X11. [dirPath] panics on the empty path.  For any other path it
    returns what stands before the last ['/'] that is not the first
    byte: the path is then that directory, the ['/'] and a name without
    ['/'], and the directory is not empty; when there is no such ['/']
    it returns the empty text. *)
Theorem dirPath_splits (path : gostring) :
  (path = [] -> store_.dirPath path = None) /\
  (path <> [] ->
   exists dir, store_.dirPath path = Some dir /\
     ((dir = [] /\ ~ In "/"%char (tl path)) \/
      (dir <> [] /\ exists base, path = dir ++ str "/" ++ base /\ ~ In "/"%char base))).
Proof.
  split; [intros ->; reflexivity|].
  intros Hne. unfold store_.dirPath.
  assert (Hlen : (0 < length path)%nat) by (destruct path; [contradiction|cbn; lia]).
  destruct (dirPath_loop_spec path (length path) (Z.of_nat (length path) - 1)
              ltac:(lia)) as (Hr & Hs & Hn).
  set (r := store_.dirPath_loop (length path) path (Z.of_nat (length path) - 1)) in *.
  unfold store_.slice_to.
  replace ((0 <=? r)%Z && (r <=? Z.of_nat (length path))%Z) with true
    by (symmetry; apply andb_true_intro; split; apply Z.leb_le; lia).
  eexists. split; [reflexivity|].
  destruct (Z.eq_dec r 0) as [E0|Hpos].
  - left. rewrite E0. split; [reflexivity|].
    intros Hin. change (tl path) with (skipn 1 path) in Hin.
    destruct (In_skipn_nth path 1 _ x00 Hin) as (j & Hj & Ej).
    apply (Hn (Z.of_nat j)); [lia|]. unfold at_. now rewrite Nat2Z.id.
  - right. destruct Hs as [Hs|Hs]; [contradiction|].
    split.
    + intros E. apply (f_equal (@length _)) in E.
      rewrite length_firstn in E. cbn in E. lia.
    + exists (skipn (S (Z.to_nat r)) path). split.
      * rewrite (nth_split_at path (Z.to_nat r) x00) at 1 by lia.
        unfold at_ in Hs. rewrite Hs. reflexivity.
      * intros Hin.
        destruct (In_skipn_nth path _ _ x00 Hin) as (j & Hj & Ej).
        apply (Hn (Z.of_nat j)); [lia|]. unfold at_. now rewrite Nat2Z.id.
Qed.

(** ** The loops of the store on a list without nil pointers *)

Lemma has_mac_In (mac : gostring) (ds : list store_.Device) :
  existsb (has_mac mac) ds = true <-> In mac (MACs ds).
Proof.
  unfold MACs. rewrite existsb_exists, in_map_iff. unfold has_mac.
  split; intros (d & H1 & H2).
  - apply string_eqb_eq in H2. eauto.
  - exists d. split; [assumption|]. now apply string_eqb_eq.
Qed.

Lemma has_mac_not_In (mac : gostring) (ds : list store_.Device) :
  existsb (has_mac mac) ds = false <-> ~ In mac (MACs ds).
Proof.
  rewrite <- has_mac_In. destruct (existsb (has_mac mac) ds); split; congruence.
Qed.

Lemma has_MAC_some (mac : gostring) (ds : list store_.Device) :
  store_.has_MAC (map Some ds) mac = Some (existsb (has_mac mac) ds).
Proof.
  induction ds as [|d ds IH]; [reflexivity|].
  cbn [map store_.has_MAC existsb]. fold (has_mac mac d).
  destruct (has_mac mac d); [reflexivity|exact IH].
Qed.

Lemma List_loop_some (ds : list store_.Device) : store_.List_loop (map Some ds) = Some ds.
Proof.
  induction ds as [|d ds IH]; [reflexivity|]. cbn [map store_.List_loop]. now rewrite IH.
Qed.

Lemma GetByMAC_loop_some (mac : gostring) (ds : list store_.Device) :
  store_.GetByMAC_loop (map Some ds) mac =
  Some (match find (has_mac mac) ds with
        | Some d => inr d
        | None => inl (store_.NotFound mac)
        end).
Proof.
  induction ds as [|d ds IH]; [reflexivity|].
  cbn [map store_.GetByMAC_loop find]. fold (has_mac mac d).
  destruct (has_mac mac d); [reflexivity|exact IH].
Qed.

Lemma Delete_loop_some (mac : gostring) (ds : list store_.Device) :
  store_.Delete_loop (map Some ds) mac =
  Some (map Some (filter (fun d => negb (has_mac mac d)) ds), existsb (has_mac mac) ds).
Proof.
  induction ds as [|d ds IH]; [reflexivity|].
  cbn [map store_.Delete_loop filter existsb]. rewrite IH. fold (has_mac mac d).
  destruct (has_mac mac d); reflexivity.
Qed.

Lemma Update_loop_some (mac : gostring) (new : store_.Device) (ds : list store_.Device) :
  store_.Update_loop (map Some ds) mac new =
  Some (map Some (replace_first mac (with_MAC mac new) ds), existsb (has_mac mac) ds).
Proof.
  induction ds as [|d ds IH]; [reflexivity|].
  cbn [map store_.Update_loop replace_first existsb]. fold (has_mac mac d).
  destruct (has_mac mac d); [reflexivity|]. now rewrite IH.
Qed.

Lemma find_none_not_In (mac : gostring) (ds : list store_.Device) :
  find (has_mac mac) ds = None <-> ~ In mac (MACs ds).
Proof.
  rewrite <- has_mac_not_In.
  induction ds as [|d ds IH]; [split; reflexivity|].
  cbn [find existsb]. destruct (has_mac mac d); [split; discriminate|exact IH].
Qed.

Lemma find_app_new (mac : gostring) (ds : list store_.Device) (d : store_.Device) :
  ~ In mac (MACs ds) -> store_.MAC d = mac -> find (has_mac mac) (ds ++ [d]) = Some d.
Proof.
  intros Hn Hd. apply has_mac_not_In in Hn.
  induction ds as [|x ds IH]; cbn [app find existsb] in *.
  - unfold has_mac. replace (string_eqb (store_.MAC d) mac) with true; [reflexivity|].
    symmetry. now apply string_eqb_eq.
  - apply orb_false_elim in Hn. destruct Hn as [Hx Hn]. rewrite Hx. auto.
Qed.

Lemma find_filter_out (mac mac' : gostring) (ds : list store_.Device) :
  find (has_mac mac') (filter (fun d => negb (has_mac mac d)) ds)
  = if string_eqb mac mac' then None else find (has_mac mac') ds.
Proof.
  induction ds as [|d ds IH].
  - cbn. now destruct (string_eqb mac mac').
  - cbn [filter find]. destruct (has_mac mac d) eqn:Hd; cbn [negb].
    + rewrite IH. destruct (string_eqb mac mac') eqn:E; [reflexivity|].
      destruct (has_mac mac' d) eqn:Hd'; [|reflexivity].
      unfold has_mac in *. apply string_eqb_eq in Hd, Hd'.
      assert (mac = mac') by congruence. apply string_eqb_eq in H. congruence.
    + cbn [find]. rewrite IH. destruct (string_eqb mac mac') eqn:E; [|reflexivity].
      apply string_eqb_eq in E. subst mac'. now rewrite Hd.
Qed.

Lemma MACs_replace_first (mac : gostring) (new : store_.Device) (ds : list store_.Device) :
  MACs (replace_first mac (with_MAC mac new) ds) = MACs ds.
Proof.
  induction ds as [|d ds IH]; [reflexivity|].
  cbn [replace_first]. destruct (has_mac mac d) eqn:Hd.
  - unfold MACs. cbn [map with_MAC store_.MAC]. f_equal.
    unfold has_mac in Hd. apply string_eqb_eq in Hd. now rewrite Hd.
  - unfold MACs in *. cbn [map]. now rewrite IH.
Qed.

Lemma replace_first_absent (mac : gostring) (new : store_.Device) (ds : list store_.Device) :
  existsb (has_mac mac) ds = false -> replace_first mac new ds = ds.
Proof.
  induction ds as [|d ds IH]; [reflexivity|].
  cbn [existsb replace_first]. intros H. apply orb_false_elim in H. destruct H as [Hd H].
  rewrite Hd. now rewrite IH.
Qed.

Lemma find_replace_first (mac : gostring) (new : store_.Device) (ds : list store_.Device) :
  existsb (has_mac mac) ds = true ->
  find (has_mac mac) (replace_first mac (with_MAC mac new) ds) = Some (with_MAC mac new).
Proof.
  induction ds as [|d ds IH]; [discriminate|].
  cbn [existsb replace_first]. destruct (has_mac mac d) eqn:Hd; cbn [orb find].
  - intros _. unfold has_mac at 1. cbn [with_MAC store_.MAC].
    replace (string_eqb mac mac) with true; [reflexivity|].
    symmetry. now apply string_eqb_eq.
  - rewrite Hd. exact IH.
Qed.

Lemma find_replace_first_other (mac mac' : gostring) (new : store_.Device)
    (ds : list store_.Device) :
  mac <> mac' ->
  find (has_mac mac') (replace_first mac (with_MAC mac new) ds) = find (has_mac mac') ds.
Proof.
  intros Hne. induction ds as [|d ds IH]; [reflexivity|].
  cbn [replace_first]. destruct (has_mac mac d) eqn:Hd; cbn [find].
  - assert (E1 : has_mac mac' (with_MAC mac new) = false).
    { unfold has_mac. cbn [with_MAC store_.MAC].
      destruct (string_eqb mac mac') eqn:E; [|reflexivity].
      apply string_eqb_eq in E. contradiction. }
    assert (E2 : has_mac mac' d = false).
    { unfold has_mac in *. apply string_eqb_eq in Hd. rewrite Hd.
      destruct (string_eqb mac mac') eqn:E; [|reflexivity].
      apply string_eqb_eq in E. contradiction. }
    now rewrite E1, E2.
  - now rewrite IH.
Qed.

Lemma set_devices_same (s : store_.Store) : store_.set_devices s (store_.devices s) = s.
Proof. now destruct s. Qed.

Lemma set_devices_twice (s : store_.Store) (l1 l2 : list (option store_.Device)) :
  store_.set_devices (store_.set_devices s l1) l2 = store_.set_devices s l2.
Proof. reflexivity. Qed.

Lemma firstn_removes_last {A} (l : list A) (x : A) :
  firstn (length (l ++ [x]) - 1) (l ++ [x]) = l.
Proof.
  rewrite length_app. cbn [length]. replace (length l + 1 - 1)%nat with (length l) by lia.
  rewrite firstn_app, firstn_all, Nat.sub_diag. cbn. apply app_nil_r.
Qed.

Lemma dirPath_defined (path : gostring) :
  path <> [] -> exists dir, store_.dirPath path = Some dir.
Proof.
  intros Hne. unfold store_.dirPath.
  assert (Hlen : (0 < length path)%nat) by (destruct path; [contradiction|cbn; lia]).
  destruct (dirPath_loop_spec path (length path) (Z.of_nat (length path) - 1)
              ltac:(lia)) as (Hr & _).
  unfold store_.slice_to.
  replace ((0 <=? _)%Z && (_ <=? Z.of_nat (length path))%Z) with true
    by (symmetry; apply andb_true_intro; split; apply Z.leb_le; lia).
  eauto.
Qed.

Section Store.
Context `{F : store_.FileSystem}.

(** With a path that is not empty, [saveLocked] does not panic; it
    changes nothing but the history, which it extends, and when it
    returns no error its last call wrote the JSON text of the devices
    to the file. *)
Lemma saveLocked_defined (s : store_.Store) (h : store_.fs_history) :
  store_.filePath s <> [] ->
  exists r evs,
    store_.saveLocked s h = Some (r, h ++ evs) /\
    (r = None ->
     exists data pre,
       store_.json_MarshalIndent (store_.devices s) = inr data /\
       evs = pre ++ [store_.CallWriteFile (store_.filePath s) data 420]).
Proof.
  intros Hp. destruct (dirPath_defined _ Hp) as [dir Hd].
  unfold store_.saveLocked. rewrite Hd.
  destruct (negb (string_eqb dir (str ""))).
  - destruct (store_.os_MkdirAll h dir 493) as [err|].
    { do 2 eexists. split; [reflexivity|]. discriminate. }
    destruct (store_.json_MarshalIndent (store_.devices s)) as [err|data].
    { do 2 eexists. split; [reflexivity|]. discriminate. }
    destruct (store_.os_WriteFile _ _ data 420) as [err|].
    { do 2 eexists. split; [rewrite <- app_assoc; reflexivity|]. discriminate. }
    do 2 eexists. split; [rewrite <- app_assoc; reflexivity|].
    intros _. exists data, [store_.CallMkdirAll dir 493]. split; reflexivity.
  - destruct (store_.json_MarshalIndent (store_.devices s)) as [err|data].
    { exists (Some (store_.MarshalFailed err)), []. rewrite app_nil_r.
      split; [reflexivity|]. discriminate. }
    destruct (store_.os_WriteFile _ _ data 420) as [err|].
    { do 2 eexists. split; [reflexivity|]. discriminate. }
    do 2 eexists. split; [reflexivity|].
    intros _. exists data, []. split; reflexivity.
Qed.

(** X12. On a store without nil pointers and with a path, [Add] does
    not panic.  A device whose MAC text is in the store is refused with
    [AlreadyExists] and nothing happens; any other device is appended
    and the store is saved: when the save fails its error is returned
    and the store is as before, when it succeeds the JSON text of the
    devices was written, the device is the last of the list and
    [GetByMAC] finds it.  The MAC texts stay without duplicates. *)
Theorem Add_outcomes (device : store_.Device) (s : store_.Store)
    (ds : list store_.Device) (h : store_.fs_history) :
  store_.devices s = map Some ds -> store_.filePath s <> [] ->
  exists r s' evs,
    store_.Add device s h = Some (r, s', h ++ evs) /\
    store_.filePath s' = store_.filePath s /\
    match r with
    | Some e =>
      s' = s /\
      (In (store_.MAC device) (MACs ds) ->
       e = store_.AlreadyExists (store_.MAC device) /\ evs = [])
    | None =>
      ~ In (store_.MAC device) (MACs ds) /\
      store_.devices s' = map Some (ds ++ [device]) /\
      store_.GetByMAC s' (store_.MAC device) = Some (inr device) /\
      exists data pre,
        store_.json_MarshalIndent (store_.devices s') = inr data /\
        evs = pre ++ [store_.CallWriteFile (store_.filePath s) data 420]
    end /\
    (NoDup (MACs ds) ->
     exists ds', store_.devices s' = map Some ds' /\ NoDup (MACs ds')).
Proof.
  intros Hs Hp. unfold store_.Add. rewrite Hs, has_MAC_some.
  destruct (existsb (has_mac (store_.MAC device)) ds) eqn:Hex.
  - exists (Some (store_.AlreadyExists (store_.MAC device))), s, [].
    rewrite app_nil_r. repeat split; eauto.
  - apply has_mac_not_In in Hex.
    set (s1 := store_.set_devices s (map Some ds ++ [Some device])).
    destruct (saveLocked_defined s1 h Hp) as (r & evs & Hsave & Hok).
    rewrite Hsave. destruct r as [e|].
    + exists (Some e), s, evs. split.
      { unfold s1. cbn [store_.devices store_.set_devices store_.filePath].
        rewrite firstn_removes_last, <- Hs.
        now destruct s. }
      repeat split; eauto; contradiction.
    + exists None, s1, evs. split; [reflexivity|]. split; [reflexivity|].
      assert (Hd : store_.devices s1 = map Some (ds ++ [device])).
      { unfold s1. cbn. now rewrite map_app. }
      split.
      * split; [assumption|]. split; [assumption|]. split.
        -- unfold store_.GetByMAC. rewrite Hd, GetByMAC_loop_some.
           now rewrite find_app_new.
        -- destruct (Hok eq_refl) as (data & pre & Hm & ->). eauto.
      * intros Hnd. exists (ds ++ [device]). split; [assumption|].
        unfold MACs in *. rewrite map_app. cbn [map].
        apply NoDup_app; [assumption|repeat constructor; intros []|].
        intros x Hx [<-|[]]. contradiction.
Qed.

(** X13. On a store without nil pointers and with a path, [Delete]
    does not panic.  A MAC text that no device has is refused with
    [NotFound] and nothing happens; otherwise every device with that
    text is taken out and the store is saved: when the save fails the
    store is as before, when it succeeds [GetByMAC] no longer finds the
    text and finds every other text as before. *)
Theorem Delete_outcomes (mac : gostring) (s : store_.Store)
    (ds : list store_.Device) (h : store_.fs_history) :
  store_.devices s = map Some ds -> store_.filePath s <> [] ->
  exists r s' evs,
    store_.Delete mac s h = Some (r, s', h ++ evs) /\
    store_.filePath s' = store_.filePath s /\
    match r with
    | Some e =>
      s' = s /\ (~ In mac (MACs ds) -> e = store_.NotFound mac /\ evs = [])
    | None =>
      In mac (MACs ds) /\
      store_.devices s' = map Some (filter (fun d => negb (has_mac mac d)) ds) /\
      store_.GetByMAC s' mac = Some (inl (store_.NotFound mac)) /\
      (forall mac', mac' <> mac -> store_.GetByMAC s' mac' = store_.GetByMAC s mac') /\
      exists data pre,
        store_.json_MarshalIndent (store_.devices s') = inr data /\
        evs = pre ++ [store_.CallWriteFile (store_.filePath s) data 420]
    end.
Proof.
  intros Hs Hp. unfold store_.Delete. rewrite Hs, Delete_loop_some.
  destruct (existsb (has_mac mac) ds) eqn:Hex; cbn [negb].
  - apply has_mac_In in Hex.
    set (s1 := store_.set_devices s
                 (map Some (filter (fun d => negb (has_mac mac d)) ds))).
    destruct (saveLocked_defined s1 h Hp) as (r & evs & Hsave & Hok).
    rewrite Hsave. destruct r as [e|].
    + exists (Some e), s, evs. split.
      { unfold s1. cbn [store_.devices store_.set_devices store_.filePath].
        rewrite <- Hs. now destruct s. }
      repeat split; eauto; contradiction.
    + exists None, s1, evs. split; [reflexivity|]. split; [reflexivity|].
      split; [assumption|]. split; [reflexivity|]. split; [|split].
      * unfold store_.GetByMAC, s1. cbn [store_.devices store_.set_devices].
        rewrite GetByMAC_loop_some, find_filter_out.
        replace (string_eqb mac mac) with true; [reflexivity|].
        symmetry. now apply string_eqb_eq.
      * intros mac' Hne. unfold store_.GetByMAC, s1.
        cbn [store_.devices store_.set_devices].
        rewrite Hs, !GetByMAC_loop_some, find_filter_out.
        destruct (string_eqb mac mac') eqn:E; [|reflexivity].
        apply string_eqb_eq in E. congruence.
      * destruct (Hok eq_refl) as (data & pre & Hm & ->). eauto.
  - apply has_mac_not_In in Hex.
    exists (Some (store_.NotFound mac)), s, []. rewrite app_nil_r.
    repeat split; eauto.
Qed.

(** X14. On a store without nil pointers and with a path, [Update]
    does not panic.  A MAC text that no device has is refused with
    [NotFound] and nothing happens; otherwise the first device with
    that text is replaced, in its place, by the new one with the MAC
    text kept, and the store is saved.  Whether or not the save
    succeeds, the store holds the new device afterwards: the MAC texts
    are as before, [GetByMAC] finds the new device under the text and
    every other text as before.  A failed save is not undone. *)
Theorem Update_outcomes (mac : gostring) (updated : store_.Device) (s : store_.Store)
    (ds : list store_.Device) (h : store_.fs_history) :
  store_.devices s = map Some ds -> store_.filePath s <> [] ->
  exists r s' evs,
    store_.Update mac updated s h = Some (r, s', h ++ evs) /\
    store_.filePath s' = store_.filePath s /\
    (~ In mac (MACs ds) -> r = Some (store_.NotFound mac) /\ s' = s /\ evs = []) /\
    (In mac (MACs ds) ->
     store_.saveLocked s' h = Some (r, h ++ evs) /\
     store_.devices s' = map Some (replace_first mac (with_MAC mac updated) ds) /\
     MACs (replace_first mac (with_MAC mac updated) ds) = MACs ds /\
     store_.GetByMAC s' mac = Some (inr (with_MAC mac updated)) /\
     (forall mac', mac' <> mac -> store_.GetByMAC s' mac' = store_.GetByMAC s mac')).
Proof.
  intros Hs Hp. unfold store_.Update. rewrite Hs, Update_loop_some.
  destruct (existsb (has_mac mac) ds) eqn:Hex; cbn [negb].
  - set (s1 := store_.set_devices s
                 (map Some (replace_first mac (with_MAC mac updated) ds))).
    destruct (saveLocked_defined s1 h Hp) as (r & evs & Hsave & _).
    rewrite Hsave.
    exists r, s1, evs. split; [now destruct r|]. split; [reflexivity|].
    split.
    { intros Hn. apply has_mac_not_In in Hn. congruence. }
    intros _. split; [assumption|]. split; [reflexivity|].
    split; [apply MACs_replace_first|]. split.
    + unfold store_.GetByMAC, s1. cbn [store_.devices store_.set_devices].
      now rewrite GetByMAC_loop_some, find_replace_first.
    + intros mac' Hne. unfold store_.GetByMAC, s1.
      cbn [store_.devices store_.set_devices].
      rewrite Hs, !GetByMAC_loop_some, find_replace_first_other by congruence.
      reflexivity.
  - exists (Some (store_.NotFound mac)), s, []. rewrite app_nil_r.
    rewrite replace_first_absent by assumption. rewrite <- Hs, set_devices_same.
    split; [reflexivity|]. split; [reflexivity|]. split; [auto|].
    intros Hin. apply has_mac_In in Hin. congruence.
Qed.

(** X15. What makes the store panic.  With an empty path [saveLocked]
    panics, and so does [Add] of a device with a new MAC text.  With a
    nil pointer among the devices, [List], [GetByGroup] and [Delete]
    panic, and [GetByMAC], [Add] and [Update] panic unless a device
    before the nil pointer has the MAC text. *)
Theorem store_panics (s : store_.Store) (h : store_.fs_history) :
  (store_.filePath s = [] ->
   store_.saveLocked s h = None /\
   forall ds device,
     store_.devices s = map Some ds -> ~ In (store_.MAC device) (MACs ds) ->
     store_.Add device s h = None) /\
  (forall pre post,
     store_.devices s = map Some pre ++ None :: post ->
     store_.List s = None /\
     (forall group, store_.GetByGroup s group = None) /\
     (forall mac, store_.Delete mac s h = None) /\
     (forall mac, ~ In mac (MACs pre) ->
        store_.GetByMAC s mac = None /\
        (forall device, store_.MAC device = mac -> store_.Add device s h = None) /\
        (forall updated, store_.Update mac updated s h = None))).
Proof.
  split.
  - intros Hp. assert (Hsave : forall s0 h0, store_.filePath s0 = [] ->
                                 store_.saveLocked s0 h0 = None).
    { intros s0 h0 E. unfold store_.saveLocked. now rewrite E. }
    split; [now apply Hsave|].
    intros ds device Hs Hn. unfold store_.Add. rewrite Hs, has_MAC_some.
    apply has_mac_not_In in Hn. rewrite Hn. now rewrite Hsave.
  - intros pre post Hs.
    assert (HL : store_.List_loop (map Some pre ++ None :: post) = None).
    { clear Hs. induction pre as [|d pre IH]; [reflexivity|].
      cbn [map app store_.List_loop]. now rewrite IH. }
    assert (HG : forall group,
               store_.GetByGroup_loop (map Some pre ++ None :: post) group = None).
    { clear Hs HL. intros group. induction pre as [|d pre IH]; [reflexivity|].
      cbn [map app store_.GetByGroup_loop]. now rewrite IH. }
    assert (HD : forall mac,
               store_.Delete_loop (map Some pre ++ None :: post) mac = None).
    { clear Hs HL HG. intros mac. induction pre as [|d pre IH]; [reflexivity|].
      cbn [map app store_.Delete_loop]. now rewrite IH. }
    assert (HM : forall mac, ~ In mac (MACs pre) ->
               store_.GetByMAC_loop (map Some pre ++ None :: post) mac = None /\
               store_.has_MAC (map Some pre ++ None :: post) mac = None /\
               forall updated,
                 store_.Update_loop (map Some pre ++ None :: post) mac updated = None).
    { clear Hs HL HG HD. intros mac Hn. apply has_mac_not_In in Hn.
      induction pre as [|d pre IH]; [repeat split; reflexivity|].
      cbn [existsb] in Hn. apply orb_false_elim in Hn. destruct Hn as [Hd Hn].
      destruct (IH Hn) as (I1 & I2 & I3).
      cbn [map app store_.GetByMAC_loop store_.has_MAC store_.Update_loop].
      fold (has_mac mac d). rewrite Hd. repeat split; auto.
      intros updated. now rewrite I3. }
    unfold store_.List, store_.GetByGroup, store_.Delete, store_.GetByMAC,
      store_.Add, store_.Update.
    rewrite Hs. split; [exact HL|]. split; [exact HG|].
    split; [intros mac; now rewrite HD|].
    intros mac Hn. destruct (HM mac Hn) as (M1 & M2 & M3).
    split; [exact M1|]. split.
    + intros device <-. now rewrite M2.
    + intros updated. now rewrite M3.
Qed.
End Store.

(** ** The handlers of the store *)

Lemma with_MAC_same (d : store_.Device) : with_MAC (store_.MAC d) d = d.
Proof. now destruct d. Qed.

Lemma validateDevice_parses (d : store_.Device) :
  web.validateDevice d = None ->
  store_.MAC d <> [] /\ exists b, parseMAC (store_.MAC d) = inr b /\ length b = 6%nat.
Proof.
  unfold web.validateDevice. change (str "") with (@nil ascii). rewrite !string_eqb_nil.
  destruct (store_.Name d); [discriminate|].
  destruct (store_.MAC d) as [|m0 mac] eqn:Em; [discriminate|].
  rewrite ValidateMAC_normalized.
  destruct (parseMAC_cases (m0 :: mac)) as [(Hs & Hd & E & Hp)|(Hs & Hp)]; rewrite Hs;
    [|discriminate].
  intros _. split; [discriminate|]. eexists. split; [exact Hp|]. now apply octets_length.
Qed.

Section Handlers.
Context `{D : web.Decoder} `{F : store_.FileSystem}.
Variable hd : web.Handler.

Lemma saveLocked_error (s : store_.Store) (h h' : store_.fs_history) (e : store_.error) :
  store_.saveLocked s h = Some (Some e, h') -> save_error e = true.
Proof.
  unfold store_.saveLocked. destruct (store_.dirPath (store_.filePath s)); [|discriminate].
  destruct (negb (string_eqb g (str ""))).
  - destruct (store_.os_MkdirAll h g 493); [now intros [= <- _]|].
    destruct (store_.json_MarshalIndent (store_.devices s)); [now intros [= <- _]|].
    destruct (store_.os_WriteFile _ _ _ _); [now intros [= <- _]|discriminate].
  - destruct (store_.json_MarshalIndent (store_.devices s)); [now intros [= <- _]|].
    destruct (store_.os_WriteFile _ _ _ _); [now intros [= <- _]|discriminate].
Qed.

(** X16. [addHandler] on a store without nil pointers and with a path
    answers every request with one JSON response and does not panic.
    With 405 and 400 the store and the files are untouched.  With 200
    the device of the body passed [validateDevice], so that its MAC
    parses to six bytes, the store was saved, and [GetByMAC] finds the
    device under its MAC text: it took the place of the first device
    with that text, or it was appended when there was none.  With 500
    saving failed: a new device is then not in the store, whereas an
    update stays in the store although it was not saved. *)
Theorem addHandler_outcomes (r : http.Request) (s : store_.Store)
    (ds : list store_.Device) (fh : store_.fs_history) :
  store_.devices s = map Some ds -> store_.filePath s <> [] ->
  exists status data s' evs,
    web.addHandler hd r s fh =
      Some ([web.HeaderSet (str "Content-Type") (str "application/json");
             web.WriteHeader status; web.Encode data], s', fh ++ evs) /\
    web.Success data = (status =? 200)%Z /\
    store_.filePath s' = store_.filePath s /\
    (status = 405%Z /\ http.Method r <> str "POST" /\ s' = s /\ evs = []
     \/
     status = 400%Z /\ http.Method r = str "POST" /\ s' = s /\ evs = [] /\
       (forall device, web.decode_Device (http.Body r) = inr device ->
          exists e, web.validateDevice device = Some e /\
                    web.Error data = web.device_error_text e)
     \/
     exists device,
       http.Method r = str "POST" /\
       web.decode_Device (http.Body r) = inr device /\
       web.validateDevice device = None /\
       (exists b, parseMAC (store_.MAC device) = inr b /\ length b = 6%nat) /\
       let ds' := if existsb (has_mac (store_.MAC device)) ds
                  then replace_first (store_.MAC device) device ds
                  else ds ++ [device] in
       (status = 200%Z /\
        store_.devices s' = map Some ds' /\
        store_.GetByMAC s' (store_.MAC device) = Some (inr device) /\
        (exists text pre,
           store_.json_MarshalIndent (map Some ds') = inr text /\
           evs = pre ++ [store_.CallWriteFile (store_.filePath s) text 420])
        \/
        status = 500%Z /\
        (exists e, save_error e = true /\ web.Error data = store_.error_text e) /\
        store_.devices s' =
          map Some (if existsb (has_mac (store_.MAC device)) ds then ds' else ds))).
Proof.
  intros Hs Hp. unfold web.addHandler.
  destruct (string_eqb (http.Method r) http.MethodPost) eqn:Hm; cbn [negb].
  2:{ do 2 eexists. exists s, []. rewrite app_nil_r. split; [reflexivity|].
      split; [reflexivity|]. split; [reflexivity|]. left. repeat split; auto.
      intros E. apply string_eqb_eq in E. unfold http.MethodPost in Hm. congruence. }
  apply string_eqb_eq in Hm. unfold http.MethodPost in Hm.
  destruct (web.decode_Device (http.Body r)) as [err|device] eqn:Hd.
  { do 2 eexists. exists s, []. rewrite app_nil_r. split; [reflexivity|].
    split; [reflexivity|]. split; [reflexivity|]. right. left.
    repeat split; auto. discriminate. }
  destruct (web.validateDevice device) as [e|] eqn:Hv.
  { do 2 eexists. exists s, []. rewrite app_nil_r. split; [reflexivity|].
    split; [reflexivity|]. split; [reflexivity|]. right. left.
    repeat split; auto. intros d [= <-]. eauto. }
  destruct (validateDevice_parses device Hv) as (_ & Hb).
  unfold store_.GetByMAC. rewrite Hs, GetByMAC_loop_some.
  destruct (find (has_mac (store_.MAC device)) ds) as [d0|] eqn:Hf.
  - assert (Hex : existsb (has_mac (store_.MAC device)) ds = true).
    { destruct (existsb (has_mac (store_.MAC device)) ds) eqn:E; [reflexivity|].
      apply has_mac_not_In, find_none_not_In in E. congruence. }
    unfold store_.Update. rewrite Hs, Update_loop_some, Hex, with_MAC_same. cbn [negb].
    set (s1 := store_.set_devices s
                 (map Some (replace_first (store_.MAC device) device ds))).
    destruct (saveLocked_defined s1 fh Hp) as (res & evs & Hsave & Hok).
    rewrite Hsave. destruct res as [e|].
    + do 2 eexists. exists s1, evs. split; [reflexivity|].
      split; [reflexivity|]. split; [reflexivity|]. right. right.
      exists device. do 4 (split; [solve [auto]|]). cbv zeta. rewrite Hex. right.
      repeat split; auto. exists e. split; [|reflexivity].
      eapply saveLocked_error. exact Hsave.
    + do 2 eexists. exists s1, evs. split; [reflexivity|].
      split; [reflexivity|]. split; [reflexivity|]. right. right.
      exists device. do 4 (split; [solve [auto]|]). cbv zeta. rewrite Hex. left.
      split; [reflexivity|]. split; [reflexivity|]. split.
      * unfold store_.GetByMAC, s1. cbn [store_.devices store_.set_devices].
        rewrite GetByMAC_loop_some.
        pose proof (find_replace_first (store_.MAC device) device ds Hex) as Hfr.
        rewrite with_MAC_same in Hfr. now rewrite Hfr.
      * destruct (Hok eq_refl) as (text & pre & Ht & ->). eauto.
  - assert (Hex : existsb (has_mac (store_.MAC device)) ds = false).
    { apply has_mac_not_In, find_none_not_In. assumption. }
    unfold store_.Add. rewrite Hs, has_MAC_some, Hex.
    set (s1 := store_.set_devices s (map Some ds ++ [Some device])).
    destruct (saveLocked_defined s1 fh Hp) as (res & evs & Hsave & Hok).
    rewrite Hsave. destruct res as [e|].
    + do 2 eexists. exists s, evs. split.
      { unfold s1. cbn [store_.devices store_.set_devices store_.filePath].
        rewrite firstn_removes_last, <- Hs. destruct s. reflexivity. }
      split; [reflexivity|]. split; [reflexivity|]. right. right.
      exists device. do 4 (split; [solve [auto]|]). cbv zeta. rewrite Hex. right.
      repeat split; auto. exists e. split; [|reflexivity].
      eapply saveLocked_error. exact Hsave.
    + do 2 eexists. exists s1, evs. split; [reflexivity|].
      split; [reflexivity|]. split; [reflexivity|]. right. right.
      exists device. do 4 (split; [solve [auto]|]). cbv zeta. rewrite Hex.
      assert (Hd1 : store_.devices s1 = map Some (ds ++ [device])).
      { unfold s1. cbn. now rewrite map_app. }
      left. split; [reflexivity|]. split; [assumption|]. split.
      * unfold store_.GetByMAC. rewrite Hd1, GetByMAC_loop_some.
        rewrite find_app_new; auto. now apply has_mac_not_In.
      * destruct (Hok eq_refl) as (text & pre & Ht & ->). rewrite Hd1 in Ht. eauto.
Qed.

(** X17. [deleteHandler] on a store without nil pointers and with a
    path answers every request with one JSON response and does not
    panic.  With 405 and 400, the latter also for an empty MAC text,
    the store and the files are untouched.  With 200 the text was in
    the store, every device with it is gone and the store was saved.
    With 404 the store is as before: the text was not in the store, or
    saving failed, which is answered with 404 as well. *)
Theorem deleteHandler_outcomes (r : http.Request) (s : store_.Store)
    (ds : list store_.Device) (fh : store_.fs_history) :
  store_.devices s = map Some ds -> store_.filePath s <> [] ->
  exists status data s' evs,
    web.deleteHandler hd r s fh =
      Some ([web.HeaderSet (str "Content-Type") (str "application/json");
             web.WriteHeader status; web.Encode data], s', fh ++ evs) /\
    web.Success data = (status =? 200)%Z /\
    (status = 405%Z /\ http.Method r <> str "POST" /\ s' = s /\ evs = []
     \/
     status = 400%Z /\ http.Method r = str "POST" /\ s' = s /\ evs = [] /\
       (forall mac, web.decode_MAC (http.Body r) = inr mac ->
          mac = [] /\ web.Error data = str "MAC address is required")
     \/
     exists mac,
       http.Method r = str "POST" /\
       web.decode_MAC (http.Body r) = inr mac /\ mac <> [] /\
       (status = 200%Z /\ In mac (MACs ds) /\
        store_.devices s' = map Some (filter (fun d => negb (has_mac mac d)) ds) /\
        store_.GetByMAC s' mac = Some (inl (store_.NotFound mac))
        \/
        status = 404%Z /\ s' = s /\
        (~ In mac (MACs ds) /\ evs = [] /\
           web.Error data = store_.error_text (store_.NotFound mac)
         \/
         In mac (MACs ds) /\
           exists e, save_error e = true /\ web.Error data = store_.error_text e))).
Proof.
  intros Hs Hp. unfold web.deleteHandler.
  destruct (string_eqb (http.Method r) http.MethodPost) eqn:Hm; cbn [negb].
  2:{ do 2 eexists. exists s, []. rewrite app_nil_r. split; [reflexivity|].
      split; [reflexivity|]. left. repeat split; auto.
      intros E. apply string_eqb_eq in E. unfold http.MethodPost in Hm. congruence. }
  apply string_eqb_eq in Hm. unfold http.MethodPost in Hm.
  destruct (web.decode_MAC (http.Body r)) as [err|mac] eqn:Hd.
  { do 2 eexists. exists s, []. rewrite app_nil_r. split; [reflexivity|].
    split; [reflexivity|]. right. left. repeat split; auto; discriminate. }
  change (str "") with (@nil ascii). rewrite string_eqb_nil.
  destruct mac as [|m0 mac].
  { do 2 eexists. exists s, []. rewrite app_nil_r. split; [reflexivity|].
    split; [reflexivity|]. right. left. repeat split; auto; congruence. }
  unfold store_.Delete. rewrite Hs, Delete_loop_some.
  destruct (existsb (has_mac (m0 :: mac)) ds) eqn:Hex; cbn [negb].
  - pose proof (proj1 (has_mac_In _ _) Hex) as Hin.
    set (s1 := store_.set_devices s
                 (map Some (filter (fun d => negb (has_mac (m0 :: mac) d)) ds))).
    destruct (saveLocked_defined s1 fh Hp) as (res & evs & Hsave & Hok).
    rewrite Hsave. destruct res as [e|].
    + do 2 eexists. exists s, evs. split.
      { unfold s1. cbn [store_.devices store_.set_devices store_.filePath].
        rewrite <- Hs. destruct s. reflexivity. }
      split; [reflexivity|]. right. right. exists (m0 :: mac).
      repeat split; auto; try discriminate. right. repeat split; auto. right.
      split; [assumption|]. exists e. split; [|reflexivity].
      eapply saveLocked_error. exact Hsave.
    + do 2 eexists. exists s1, evs. split; [reflexivity|].
      split; [reflexivity|]. right. right. exists (m0 :: mac).
      repeat split; auto; try discriminate. left. repeat split; auto.
      unfold store_.GetByMAC, s1. cbn [store_.devices store_.set_devices].
      rewrite GetByMAC_loop_some, find_filter_out.
      replace (string_eqb (m0 :: mac) (m0 :: mac)) with true; [reflexivity|].
      symmetry. now apply string_eqb_eq.
  - pose proof (proj1 (has_mac_not_In _ _) Hex) as Hin.
    do 2 eexists. exists s, []. rewrite app_nil_r. split; [reflexivity|].
    split; [reflexivity|]. right. right. exists (m0 :: mac).
    repeat split; auto; try discriminate. right. repeat split; auto.
Qed.
End Handlers.

(** ** What was saved is what is loaded *)

Section Persistence.
Context `{F : store_.FileSystem}.

Lemma saveLocked_written (s : store_.Store) (h h' : store_.fs_history) :
  store_.saveLocked s h = Some (None, h') ->
  exists data pre,
    store_.json_MarshalIndent (store_.devices s) = inr data /\
    h' = h ++ pre ++ [store_.CallWriteFile (store_.filePath s) data 420].
Proof.
  unfold store_.saveLocked. destruct (store_.dirPath (store_.filePath s)); [|discriminate].
  destruct (negb (string_eqb g (str ""))).
  - destruct (store_.os_MkdirAll h g 493); [discriminate|].
    destruct (store_.json_MarshalIndent (store_.devices s)) as [|data]; [discriminate|].
    destruct (store_.os_WriteFile _ _ _ _); [discriminate|].
    intros [= <-]. exists data, [store_.CallMkdirAll g 493].
    split; [reflexivity|]. now rewrite <- app_assoc.
  - destruct (store_.json_MarshalIndent (store_.devices s)) as [|data]; [discriminate|].
    destruct (store_.os_WriteFile _ _ _ _); [discriminate|].
    intros [= <-]. exists data, []. split; reflexivity.
Qed.

(** X18. When [Add] has returned without error, the last call of the
    file system wrote the JSON text of all the devices to the path of
    the store; and if the file is then found, reads as that text, which
    is not empty, and the text decodes to the devices it encodes,
    [NewStore] on the same path returns the store as [Add] left it. *)
Theorem Add_then_NewStore (device : store_.Device) (s s' : store_.Store)
    (h h' : store_.fs_history) :
  store_.Add device s h = Some (None, s', h') ->
  exists data pre,
    store_.json_MarshalIndent (store_.devices s') = inr data /\
    h' = h ++ pre ++ [store_.CallWriteFile (store_.filePath s) data 420] /\
    ((forall err, store_.os_Stat h' (store_.filePath s) = Some err ->
                  store_.os_IsNotExist err = false) ->
     store_.os_ReadFile (h' ++ [store_.CallStat (store_.filePath s)]) (store_.filePath s)
       = inr data ->
     data <> [] ->
     store_.json_Unmarshal data = inr (store_.devices s') ->
     store_.NewStore (store_.filePath s) h' =
       (inr s', h' ++ [store_.CallStat (store_.filePath s);
                       store_.CallReadFile (store_.filePath s)])).
Proof.
  unfold store_.Add.
  destruct (store_.has_MAC (store_.devices s) (store_.MAC device)) as [[|]|];
    try discriminate.
  set (s1 := store_.set_devices s (store_.devices s ++ [Some device])).
  destruct (store_.saveLocked s1 h) as [[[e|] h1]|] eqn:Hsave; try discriminate.
  intros [= <- <-].
  destruct (saveLocked_written s1 h h1 Hsave) as (data & pre & Hm & ->).
  exists data, pre. split; [assumption|]. split; [reflexivity|].
  intros Hstat Hread Hne Hjson.
  unfold store_.NewStore, store_.Load. cbn [store_.filePath store_.devices].
  change (store_.filePath s1) with (store_.filePath s) in *.
  set (h1 := h ++ pre ++ [store_.CallWriteFile (store_.filePath s) data 420]) in *.
  assert (Hexists : match store_.os_Stat h1 (store_.filePath s) with
                    | Some err => store_.os_IsNotExist err
                    | None => false
                    end = false).
  { destruct (store_.os_Stat h1 (store_.filePath s)) as [err|] eqn:Es; [|reflexivity].
    now apply Hstat. }
  rewrite Hexists, Hread.
  destruct data as [|c data]; [contradiction|]. cbn [length Nat.eqb].
  rewrite Hjson. rewrite <- app_assoc. reflexivity.
Qed.
End Persistence.

Lemma Add_then_NewStore_witness :
  store_.NewStore (H := sample_disk) (str "/data/devices.json")
    [store_.CallMkdirAll (str "/data") 493;
     store_.CallWriteFile (str "/data/devices.json") (str "[pc, nas]") 420]
  = (inr {| store_.filePath := str "/data/devices.json";
            store_.devices := [Some sample_pc; Some sample_nas] |},
     [store_.CallMkdirAll (str "/data") 493;
      store_.CallWriteFile (str "/data/devices.json") (str "[pc, nas]") 420;
      store_.CallStat (str "/data/devices.json");
      store_.CallReadFile (str "/data/devices.json")]).
Proof.
  destruct (@Add_then_NewStore sample_disk sample_nas sample_store
              {| store_.filePath := str "/data/devices.json";
                 store_.devices := [Some sample_pc; Some sample_nas] |}
              []
              [store_.CallMkdirAll (str "/data") 493;
               store_.CallWriteFile (str "/data/devices.json") (str "[pc, nas]") 420]
              eq_refl) as (data & pre & Hm & _ & Hload).
  injection Hm as <-.
  apply Hload; [discriminate|reflexivity|discriminate|reflexivity].
Defined.

(** ** The theorems about the store at concrete inputs *)

Lemma Add_outcomes_witness :
  exists r s' evs,
    store_.Add (H := sample_fs) sample_nas sample_store [] = Some (r, s', [] ++ evs) /\
    store_.filePath s' = store_.filePath sample_store.
Proof.
  destruct (@Add_outcomes sample_fs sample_nas sample_store [sample_pc] []
              eq_refl ltac:(discriminate)) as (r & s' & evs & H1 & H2 & _).
  exists r, s', evs. split; assumption.
Defined.

Lemma Delete_outcomes_witness :
  exists r s' evs,
    store_.Delete (H := sample_fs) (str "AA:BB:CC:DD:EE:FF") sample_store []
      = Some (r, s', [] ++ evs) /\
    store_.filePath s' = store_.filePath sample_store.
Proof.
  destruct (@Delete_outcomes sample_fs (str "AA:BB:CC:DD:EE:FF") sample_store [sample_pc] []
              eq_refl ltac:(discriminate)) as (r & s' & evs & H1 & H2 & _).
  exists r, s', evs. split; assumption.
Defined.

Lemma Update_outcomes_witness :
  exists r s' evs,
    store_.Update (H := sample_fs) (str "AA:BB:CC:DD:EE:FF") sample_nas sample_store []
      = Some (r, s', [] ++ evs) /\
    store_.filePath s' = store_.filePath sample_store.
Proof.
  destruct (@Update_outcomes sample_fs (str "AA:BB:CC:DD:EE:FF") sample_nas sample_store
              [sample_pc] [] eq_refl ltac:(discriminate)) as (r & s' & evs & H1 & H2 & _).
  exists r, s', evs. split; assumption.
Defined.

Lemma addHandler_outcomes_witness :
  exists status data s' evs,
    web.addHandler (H := sample_decoder) (H0 := sample_fs) sample_handler
      {| http.Method := str "POST"; http.Body := str "aa-bb-cc-dd-ee-ff" |}
      sample_store [] =
      Some ([web.HeaderSet (str "Content-Type") (str "application/json");
             web.WriteHeader status; web.Encode data], s', [] ++ evs) /\
    web.Success data = (status =? 200)%Z.
Proof.
  destruct (@addHandler_outcomes sample_decoder sample_fs sample_handler
              {| http.Method := str "POST"; http.Body := str "aa-bb-cc-dd-ee-ff" |}
              sample_store [sample_pc] [] eq_refl ltac:(discriminate))
    as (status & data & s' & evs & H1 & H2 & _).
  exists status, data, s', evs. split; assumption.
Defined.

Lemma deleteHandler_outcomes_witness :
  exists status data s' evs,
    web.deleteHandler (H := sample_decoder) (H0 := sample_fs) sample_handler
      {| http.Method := str "POST"; http.Body := str "AA:BB:CC:DD:EE:FF" |}
      sample_store [] =
      Some ([web.HeaderSet (str "Content-Type") (str "application/json");
             web.WriteHeader status; web.Encode data], s', [] ++ evs) /\
    web.Success data = (status =? 200)%Z.
Proof.
  destruct (@deleteHandler_outcomes sample_decoder sample_fs sample_handler
              {| http.Method := str "POST"; http.Body := str "AA:BB:CC:DD:EE:FF" |}
              sample_store [sample_pc] [] eq_refl ltac:(discriminate))
    as (status & data & s' & evs & H1 & H2 & _).
  exists status, data, s', evs. split; assumption.
Defined.

(** ** The devices of the store can be woken *)

Lemma validateDevice_MAC (d : store_.Device) :
  web.validateDevice d = None -> ValidateMAC (store_.MAC d) = None.
Proof.
  unfold web.validateDevice.
  destruct (string_eqb (store_.Name d) (str "")); [discriminate|].
  destruct (string_eqb (store_.MAC d) (str "")); [discriminate|].
  now destruct (ValidateMAC (store_.MAC d)).
Qed.

Lemma valid_replace_first (mac : gostring) (new : store_.Device) (ds : list store_.Device) :
  valid_devices ds -> web.validateDevice new = None ->
  valid_devices (replace_first mac new ds).
Proof.
  intros Hv Hn. induction Hv as [|d ds Hd Hv IH]; [constructor|].
  cbn [replace_first]. destruct (has_mac mac d); constructor; assumption.
Qed.

Lemma valid_filter (p : store_.Device -> bool) (ds : list store_.Device) :
  valid_devices ds -> valid_devices (filter p ds).
Proof.
  intros Hv. apply Forall_forall. intros d Hd. apply filter_In in Hd.
  unfold valid_devices in Hv. rewrite Forall_forall in Hv. now apply Hv.
Qed.

Section Wakeable.
Context `{P : Platform} `{D : web.Decoder} `{F : store_.FileSystem}.
Variable hd : web.Handler.

(** X19. [addHandler] and [deleteHandler] keep the store free of nil
    pointers and keep in it only devices that [validateDevice] accepts,
    whatever the request and whether or not saving succeeds; and for
    such a store, a POST request to [wakeHandler] with the MAC text of
    a stored device is never refused: it makes the sender run and is
    answered with 200 or 500. *)
Theorem stored_devices_wakeable (r : http.Request) (s : store_.Store)
    (ds : list store_.Device) (fh : store_.fs_history) :
  store_.devices s = map Some ds -> store_.filePath s <> [] -> valid_devices ds ->
  (forall calls s' fh',
     web.addHandler hd r s fh = Some (calls, s', fh') ->
     exists ds', store_.devices s' = map Some ds' /\
                 store_.filePath s' = store_.filePath s /\ valid_devices ds') /\
  (forall calls s' fh',
     web.deleteHandler hd r s fh = Some (calls, s', fh') ->
     exists ds', store_.devices s' = map Some ds' /\
                 store_.filePath s' = store_.filePath s /\ valid_devices ds') /\
  (forall d hist,
     In d ds -> http.Method r = str "POST" ->
     web.decode_MAC (http.Body r) = inr (store_.MAC d) ->
     exists status data evs,
       web.wakeHandler hd r hist =
         ([web.HeaderSet (str "Content-Type") (str "application/json");
           web.WriteHeader status; web.Encode data], hist ++ evs) /\
       (status = 200%Z \/ status = 500%Z) /\ evs <> []).
Proof.
  intros Hs Hp Hv. split; [|split].
  - intros calls s' fh'. unfold web.addHandler.
    destruct (negb (string_eqb (http.Method r) http.MethodPost));
      [intros [= _ <- _]; eauto|].
    destruct (web.decode_Device (http.Body r)) as [err|device];
      [intros [= _ <- _]; eauto|].
    destruct (web.validateDevice device) as [e|] eqn:Hval;
      [intros [= _ <- _]; eauto|].
    unfold store_.GetByMAC. rewrite Hs, GetByMAC_loop_some.
    destruct (find (has_mac (store_.MAC device)) ds) as [d0|] eqn:Hf.
    + assert (Hex : existsb (has_mac (store_.MAC device)) ds = true).
      { destruct (existsb (has_mac (store_.MAC device)) ds) eqn:E; [reflexivity|].
        apply has_mac_not_In, find_none_not_In in E. congruence. }
      unfold store_.Update. rewrite Hs, Update_loop_some, Hex, with_MAC_same. cbn [negb].
      destruct (store_.saveLocked _ fh) as [[[e|] h1]|]; try discriminate;
        intros [= _ <- _]; eexists; (split; [reflexivity|]); (split; [reflexivity|]);
        now apply valid_replace_first.
    + assert (Hex : existsb (has_mac (store_.MAC device)) ds = false).
      { apply has_mac_not_In, find_none_not_In. assumption. }
      unfold store_.Add. rewrite Hs, has_MAC_some, Hex.
      destruct (store_.saveLocked _ fh) as [[[e|] h1]|]; try discriminate;
        intros [= _ <- _]; cbn [store_.devices store_.set_devices store_.filePath].
      * rewrite firstn_removes_last. eauto.
      * exists (ds ++ [device]). rewrite map_app. split; [reflexivity|].
        split; [reflexivity|]. apply Forall_app. split; [assumption|].
        constructor; [assumption|constructor].
  - intros calls s' fh'. unfold web.deleteHandler.
    destruct (negb (string_eqb (http.Method r) http.MethodPost));
      [intros [= _ <- _]; eauto|].
    destruct (web.decode_MAC (http.Body r)) as [err|mac];
      [intros [= _ <- _]; eauto|].
    destruct (string_eqb mac (str "")); [intros [= _ <- _]; eauto|].
    unfold store_.Delete. rewrite Hs, Delete_loop_some.
    destruct (existsb (has_mac mac) ds); cbn [negb]; [|intros [= _ <- _]; eauto].
    destruct (store_.saveLocked _ fh) as [[[e|] h1]|]; try discriminate;
      intros [= _ <- _]; cbn [store_.devices store_.set_devices store_.filePath].
    + eauto.
    + eexists. split; [reflexivity|]. split; [reflexivity|]. now apply valid_filter.
  - intros d hist Hin Hm Hdec. unfold web.wakeHandler.
    replace (string_eqb (http.Method r) http.MethodPost) with true
      by (symmetry; now apply string_eqb_eq).
    cbn [negb]. rewrite Hdec.
    unfold valid_devices in Hv. rewrite Forall_forall in Hv.
    pose proof (validateDevice_MAC d (Hv d Hin)) as Hmac. rewrite Hmac.
    rewrite ValidateMAC_normalized in Hmac.
    destruct (parseMAC_cases (store_.MAC d)) as [(Hsh & Hdg & E & Hpm)|(Hsh & _)];
      [|rewrite Hsh in Hmac; discriminate].
    unfold bind. rewrite (SendRepeat_loop (web.wol hd) _ _ 3 hist Hpm).
    destruct (for_upto_sockets (web.wol hd) (constructMagicPacket
                (octets (map digit_value (digits_in (normalized (store_.MAC d))))))
                3 (Z.to_nat 3) 0 hist) as (evs & Eh & Hne & _).
    destruct (for_upto (Z.to_nat 3) 0 _ hist) as [[e|] h1]; cbn [fst snd] in Eh; subst h1.
    + do 2 eexists. exists evs. split; [reflexivity|]. split; [now right|].
      apply Hne. discriminate.
    + do 2 eexists. exists evs. split; [reflexivity|]. split; [now left|].
      apply Hne. discriminate.
Qed.
End Wakeable.

Lemma stored_devices_wakeable_witness :
  exists status data evs,
    web.wakeHandler (H := sample_platform) (H0 := sample_decoder) sample_handler
      {| http.Method := str "POST"; http.Body := str "AA:BB:CC:DD:EE:FF" |} [] =
      ([web.HeaderSet (str "Content-Type") (str "application/json");
        web.WriteHeader status; web.Encode data], [] ++ evs) /\
    (status = 200%Z \/ status = 500%Z) /\ evs <> [].
Proof.
  apply (proj2 (proj2 (@stored_devices_wakeable sample_platform sample_decoder sample_fs
           sample_handler
           {| http.Method := str "POST"; http.Body := str "AA:BB:CC:DD:EE:FF" |}
           sample_store [sample_pc] [] eq_refl ltac:(discriminate)
           ltac:(repeat constructor))) sample_pc []);
    [now left|reflexivity|reflexivity].
Defined.

(** ** [isValidEntry] *)

Lemma arp_macRegex_shape (s : gostring) :
  regexp.MatchString arp.macRegex s = colon_shape s.
Proof. apply macRegex_shape. Qed.

Section Fold.
Context `{U : strings2.Unicode}.

Lemma EqualFold_step (a b : byte) (s t : gostring) :
  strings2.EqualFold (a :: s) (b :: t) =
  match fold_step a b with
  | None => strings2.EqualFold_runes (a :: s) (b :: t)
  | Some true => strings2.EqualFold s t
  | Some false => false
  end.
Proof.
  cbn [strings2.EqualFold]. unfold fold_step.
  destruct (Z.lor (byte_val a) (byte_val b) >=? utf8.RuneSelf)%Z; [reflexivity|].
  destruct (byte_eqb b a); [reflexivity|].
  destruct (byte_val b <? byte_val a)%Z;
    match goal with |- context [if ?c then _ else false] => now destruct c end.
Qed.

Lemma fold_step_zero (c : byte) :
  is_hex_digit c = true -> fold_step c "0" = Some (digit_value c =? 0)%Z.
Proof. by_byte c. Qed.

Lemma fold_step_f (c : byte) :
  is_hex_digit c = true -> fold_step c "f" = Some (digit_value c =? 15)%Z.
Proof. by_byte c. Qed.

Lemma EqualFold_zero (c : byte) (s t : gostring) :
  is_hex_digit c = true ->
  strings2.EqualFold (c :: s) ("0"%char :: t)
  = (digit_value c =? 0)%Z && strings2.EqualFold s t.
Proof.
  intros Hc. rewrite EqualFold_step, (fold_step_zero c Hc).
  now destruct (digit_value c =? 0)%Z.
Qed.

Lemma EqualFold_f (c : byte) (s t : gostring) :
  is_hex_digit c = true ->
  strings2.EqualFold (c :: s) ("f"%char :: t)
  = (digit_value c =? 15)%Z && strings2.EqualFold s t.
Proof.
  intros Hc. rewrite EqualFold_step, (fold_step_f c Hc).
  now destruct (digit_value c =? 15)%Z.
Qed.

Lemma EqualFold_colon (s t : gostring) :
  strings2.EqualFold (":"%char :: s) (":"%char :: t) = strings2.EqualFold s t.
Proof. reflexivity. Qed.

End Fold.

Lemma digit_value_range (c : byte) :
  is_hex_digit c = true -> (0 <= digit_value c <= 15)%Z.
Proof. intros H. destruct (reverseHexTable_hex c H) as [_ R]. lia. Qed.

Lemma octet_is_zero (h l : byte) :
  is_hex_digit h = true -> is_hex_digit l = true ->
  (byte_of (16 * digit_value h + digit_value l) = x00 <->
   (digit_value h =? 0)%Z && (digit_value l =? 0)%Z = true).
Proof.
  intros Hh Hl. pose proof (digit_value_range h Hh). pose proof (digit_value_range l Hl).
  rewrite andb_true_iff, !Z.eqb_eq. split.
  - intros E. apply (f_equal byte_val) in E. rewrite byte_val_of in E.
    change (byte_val x00) with 0%Z in E. rewrite Z.mod_small in E by lia. lia.
  - intros [-> ->]. reflexivity.
Qed.

Lemma octet_is_ff (h l : byte) :
  is_hex_digit h = true -> is_hex_digit l = true ->
  (byte_of (16 * digit_value h + digit_value l) = xFF <->
   (digit_value h =? 15)%Z && (digit_value l =? 15)%Z = true).
Proof.
  intros Hh Hl. pose proof (digit_value_range h Hh). pose proof (digit_value_range l Hl).
  rewrite andb_true_iff, !Z.eqb_eq. split.
  - intros E. apply (f_equal byte_val) in E. rewrite byte_val_of in E.
    change (byte_val xFF) with 255%Z in E. rewrite Z.mod_small in E by lia. lia.
  - intros [-> ->]. reflexivity.
Qed.

Section Valid.
Context `{U : strings2.Unicode}.

(** Against the two texts of [invalidMACs], a text in colon form is
    compared digit by digit. *)
Lemma EqualFold_invalid (d : gostring) :
  hex_digits d ->
  (strings2.EqualFold (colon_form d) (str "00:00:00:00:00:00") = true <->
   octets (map digit_value d) = repeat x00 6) /\
  (strings2.EqualFold (colon_form d) (str "ff:ff:ff:ff:ff:ff") = true <->
   octets (map digit_value d) = repeat xFF 6).
Proof.
  intros Hd. destruct (hex_digits_inv d Hd) as (a1&a2&b1&b2&c1&c2&d1&d2&e1&e2&f1&f2&->&H).
  cbn [forallb] in H. split_andb.
  change (colon_form [a1; a2; b1; b2; c1; c2; d1; d2; e1; e2; f1; f2])
    with [a1; a2; ":"%char; b1; b2; ":"%char; c1; c2; ":"%char;
          d1; d2; ":"%char; e1; e2; ":"%char; f1; f2].
  cbn [map octets repeat].
  split.
  - change (str "00:00:00:00:00:00")
      with ["0"; "0"; ":"; "0"; "0"; ":"; "0"; "0"; ":";
            "0"; "0"; ":"; "0"; "0"; ":"; "0"; "0"]%char.
    repeat first [ rewrite EqualFold_colon | rewrite EqualFold_zero by assumption ].
    change (strings2.EqualFold [] []) with true.
    rewrite !andb_true_iff, !Z.eqb_eq.
    split.
    + intros (A1 & A2 & B1 & B2 & C1 & C2 & D1 & D2 & E1 & E2 & F1 & F2 & _).
      now rewrite A1, A2, B1, B2, C1, C2, D1, D2, E1, E2, F1, F2.
    + intros E. injection E as Ea Eb Ec Ed Ee Ef.
      apply octet_is_zero in Ea, Eb, Ec, Ed, Ee, Ef; try assumption.
      rewrite andb_true_iff, !Z.eqb_eq in Ea, Eb, Ec, Ed, Ee, Ef. tauto.
  - change (str "ff:ff:ff:ff:ff:ff")
      with ["f"; "f"; ":"; "f"; "f"; ":"; "f"; "f"; ":";
            "f"; "f"; ":"; "f"; "f"; ":"; "f"; "f"]%char.
    repeat first [ rewrite EqualFold_colon | rewrite EqualFold_f by assumption ].
    change (strings2.EqualFold [] []) with true.
    rewrite !andb_true_iff, !Z.eqb_eq.
    split.
    + intros (A1 & A2 & B1 & B2 & C1 & C2 & D1 & D2 & E1 & E2 & F1 & F2 & _).
      now rewrite A1, A2, B1, B2, C1, C2, D1, D2, E1, E2, F1, F2.
    + intros E. injection E as Ea Eb Ec Ed Ee Ef.
      apply octet_is_ff in Ea, Eb, Ec, Ed, Ee, Ef; try assumption.
      rewrite andb_true_iff, !Z.eqb_eq in Ea, Eb, Ec, Ed, Ee, Ef. tauto.
Qed.

Lemma parseMAC_of_colon_form (d : gostring) :
  hex_digits d -> parseMAC (colon_form d) = inr (octets (map digit_value d)).
Proof.
  intros Hd. pose proof (parseMAC_colon_form d [] [] Hd white_nil white_nil) as Hp.
  cbn [app] in Hp. now rewrite app_nil_r in Hp.
Qed.

(** What [isValidEntry] accepts. *)
Lemma isValidEntry_cases (e : arp.Entry) :
  arp.isValidEntry e = true <->
  (exists d, hex_digits d /\ arp.MAC e = colon_form d /\
             octets (map digit_value d) <> repeat x00 6 /\
             octets (map digit_value d) <> repeat xFF 6) /\
  arp.Flags e <> str "0x0".
Proof.
  unfold arp.isValidEntry. rewrite arp_macRegex_shape.
  destruct (colon_shape (arp.MAC e)) eqn:Hs; cbn [negb].
  2:{ split; [discriminate|]. intros [(d & Hd & E & _) _].
      destruct (colon_form_shape d Hd) as [Hc _]. congruence. }
  destruct (colon_shape_inv _ Hs) as [Hd E].
  destruct (EqualFold_invalid _ Hd) as [Hz Hf]. rewrite <- E in Hz, Hf.
  unfold arp.invalidMACs. cbn [existsb].
  destruct (strings2.EqualFold (arp.MAC e) (str "00:00:00:00:00:00")) eqn:E0; cbn [orb].
  { split; [discriminate|]. intros [(d & Hd' & E' & Hnz & _) _].
    destruct (colon_form_shape d Hd') as [_ Hdig]. rewrite E', Hdig in Hz.
    exfalso. apply Hnz. now apply Hz. }
  destruct (strings2.EqualFold (arp.MAC e) (str "ff:ff:ff:ff:ff:ff")) eqn:E1; cbn [orb].
  { split; [discriminate|]. intros [(d & Hd' & E' & _ & Hnf) _].
    destruct (colon_form_shape d Hd') as [_ Hdig]. rewrite E', Hdig in Hf.
    exfalso. apply Hnf. now apply Hf. }
  destruct (string_eqb (arp.Flags e) (str "0x0")) eqn:Efl.
  { apply string_eqb_eq in Efl. split; [discriminate|]. intros [_ H]. contradiction. }
  split; [intros _|reflexivity]. split.
  - exists (digits_in (arp.MAC e)). split; [assumption|]. split; [assumption|].
    split; intros Hx; [apply Hz in Hx|apply Hf in Hx]; discriminate.
  - intros Hx. apply string_eqb_eq in Hx. congruence.
Qed.

(** X20. [isValidEntry] accepts an entry exactly when its MAC text is
    in colon form, its six bytes are neither all zero nor all 0xFF, in
    whatever letter case they are written, and its flags are not "0x0".
    The MAC text of an accepted entry passes [wol.ValidateMAC] and
    parses to these bytes, and with a name the entry is a device that
    [validateDevice] accepts. *)
Theorem isValidEntry_accepts (e : arp.Entry) :
  (arp.isValidEntry e = true <->
   (exists d, hex_digits d /\ arp.MAC e = colon_form d /\
              octets (map digit_value d) <> repeat x00 6 /\
              octets (map digit_value d) <> repeat xFF 6) /\
   arp.Flags e <> str "0x0") /\
  (arp.isValidEntry e = true ->
   ValidateMAC (arp.MAC e) = None /\
   (exists b, parseMAC (arp.MAC e) = inr b /\ b <> repeat x00 6 /\ b <> repeat xFF 6) /\
   forall name,
     name <> [] ->
     web.validateDevice {| store_.Name := name; store_.MAC := arp.MAC e;
                           store_.IP := str ""; store_.Group := str "" |} = None).
Proof.
  split; [apply isValidEntry_cases|].
  intros H. apply isValidEntry_cases in H. destruct H as [(d & Hd & E & Hz & Hf) _].
  pose proof (parseMAC_of_colon_form d Hd) as Hp. rewrite <- E in Hp.
  assert (Hv : ValidateMAC (arp.MAC e) = None).
  { rewrite ValidateMAC_normalized. pose proof (parseMAC_normalized (arp.MAC e)) as Hn.
    rewrite Hp in Hn. destruct (colon_shape (normalized (arp.MAC e))); [reflexivity|discriminate]. }
  split; [assumption|]. split; [eauto|].
  intros name Hname. unfold web.validateDevice. cbn [store_.Name store_.MAC store_.IP].
  change (str "") with (@nil ascii). rewrite !string_eqb_nil.
  destruct name; [contradiction|].
  destruct (arp.MAC e) eqn:Em.
  { destruct (hex_digits_inv d Hd) as (a1&a2&b1&b2&c1&c2&d1&d2&e1&e2&f1&f2&->&_).
    cbv in E. discriminate E. }
  now rewrite Hv.
Qed.
End Valid.

(** ** [Fields] and the entries of the table *)

Lemma offsets_from_weaken (lo lo' L : Z) (rs : list (Z * Z)) :
  (lo' <= lo)%Z -> offsets_from lo L rs -> offsets_from lo' L rs.
Proof.
  destruct rs as [|[e r] rest]; [auto|]. cbn [offsets_from]. intros Hl [He Hr].
  split; [lia|assumption].
Qed.

Lemma range_from_offsets (s : gostring) :
  forall (i : Z) (skip : nat),
  offsets_from i (i + Z.of_nat (length s)) (utf8.range_from s i skip).
Proof.
  induction s as [|c t IH]; intros i skip; [exact I|].
  cbn [utf8.range_from length].
  replace (i + Z.of_nat (S (length t)))%Z with (i + 1 + Z.of_nat (length t))%Z by lia.
  destruct skip as [|k].
  - destruct (utf8.DecodeRuneInString (c :: t)) as [r size].
    cbn [offsets_from]. split; [lia|]. apply IH.
  - apply offsets_from_weaken with (lo := (i + 1)%Z); [lia|]. apply IH.
Qed.

Lemma FieldsFunc_spans_ok (f : Z -> bool) (L : Z) (rs : list (Z * Z)) :
  forall lo start,
  offsets_from lo L rs -> (start < lo)%Z -> (lo <= L)%Z ->
  Forall (fun span => (0 <= fst span < snd span)%Z /\ (snd span <= L)%Z)
         (fst (strings2.FieldsFunc_spans f rs start)) /\
  (snd (strings2.FieldsFunc_spans f rs start) < L)%Z.
Proof.
  induction rs as [|[e r] rest IH]; intros lo start Ho Hs HL.
  - cbn. split; [constructor|lia].
  - cbn [offsets_from] in Ho. destruct Ho as [He Hr].
    cbn [strings2.FieldsFunc_spans].
    destruct (f r).
    + destruct (start >=? 0)%Z eqn:Hge.
      * rewrite Z.geb_leb in Hge. apply Z.leb_le in Hge.
        destruct (IH (e + 1)%Z (- start - 1)%Z Hr ltac:(lia) ltac:(lia)) as [I1 I2].
        destruct (strings2.FieldsFunc_spans f rest (- start - 1)) as [spans st].
        cbn [fst snd] in *. split; [|assumption].
        constructor; [cbn [fst snd]; lia|assumption].
      * apply (IH (e + 1)%Z start Hr); lia.
    + destruct (start <? 0)%Z.
      * apply (IH (e + 1)%Z e Hr); lia.
      * apply (IH (e + 1)%Z start Hr); lia.
Qed.

Lemma slice_nonempty (s : gostring) (a b : Z) :
  (0 <= a < b)%Z -> (b <= Z.of_nat (length s))%Z ->
  skipn (Z.to_nat a) (firstn (Z.to_nat b) s) <> [].
Proof.
  intros Hab Hb E. apply (f_equal (@length _)) in E.
  rewrite length_skipn, length_firstn in E. cbn [length] in E. lia.
Qed.

Lemma FieldsFunc_nonempty (s : gostring) (f : Z -> bool) :
  Forall (fun field => field <> []) (strings2.FieldsFunc s f).
Proof.
  unfold strings2.FieldsFunc.
  pose proof (range_from_offsets s 0 0) as Ho. cbn [Z.add] in Ho.
  fold (utf8.range s) in Ho.
  destruct (FieldsFunc_spans_ok f (Z.of_nat (length s)) (utf8.range s) 0 (-1) Ho
              ltac:(lia) ltac:(lia)) as [H1 H2].
  destruct (strings2.FieldsFunc_spans f (utf8.range s) (-1)) as [spans st].
  cbn [fst snd] in *.
  apply Forall_map.
  assert (Hall : Forall (fun span => (0 <= fst span < snd span)%Z /\
                                     (snd span <= Z.of_nat (length s))%Z)
                   (if (st >=? 0)%Z then spans ++ [(st, Z.of_nat (length s))] else spans)).
  { destruct (st >=? 0)%Z eqn:Hge; [|assumption].
    rewrite Z.geb_leb in Hge. apply Z.leb_le in Hge.
    apply Forall_app. split; [assumption|]. constructor; [cbn; lia|constructor]. }
  eapply Forall_impl; [|exact Hall].
  intros [a b] [Hab Hb]. cbn [fst snd] in *. now apply slice_nonempty.
Qed.

Lemma Fields_ascii_nonempty (s : gostring) :
  forall cur, Forall (fun field => field <> []) (strings2.Fields_ascii s cur).
Proof.
  induction s as [|c t IH]; intros cur; cbn [strings2.Fields_ascii].
  - destruct cur; repeat constructor. discriminate.
  - destruct (strings.asciiSpace c); [|apply IH].
    apply Forall_app. split; [|apply IH].
    destruct cur; repeat constructor. discriminate.
Qed.

Lemma Fields_nonempty (s : gostring) :
  Forall (fun field => field <> []) (strings2.Fields s).
Proof.
  unfold strings2.Fields. destruct (existsb _ s).
  - apply FieldsFunc_nonempty.
  - apply Fields_ascii_nonempty.
Qed.

Lemma parseLine_fields (line : gostring) (entry : arp.Entry) :
  arp.parseLine line = inr entry ->
  arp.IP entry <> [] /\ arp.Flags entry <> [] /\ arp.MAC entry <> [] /\
  arp.Device entry <> [].
Proof.
  unfold arp.parseLine. pose proof (Fields_nonempty line) as Hf.
  destruct (length (strings2.Fields line) <? 6)%nat eqn:Hl; [discriminate|].
  apply Nat.ltb_ge in Hl. intros [= <-]. cbn [arp.IP arp.Flags arp.MAC arp.Device].
  rewrite Forall_forall in Hf.
  repeat split; apply Hf; apply nth_In; lia.
Qed.

Section Entries.
Context `{T : arp.Table} `{U : strings2.Unicode}.

Lemma ParsePath_loop_entries (lines : list gostring) :
  Forall (fun e => arp.isValidEntry e = true /\ arp.IP e <> [] /\ arp.Device e <> [])
         (arp.ParsePath_loop lines).
Proof.
  induction lines as [|text rest IH]; [constructor|].
  cbn [arp.ParsePath_loop].
  destruct (string_eqb (strings.TrimSpace text) (str "")
            || strings.HasPrefix (strings.TrimSpace text) (str "#")); [assumption|].
  destruct (arp.parseLine (strings.TrimSpace text)) as [err|entry] eqn:Hp; [assumption|].
  destruct (arp.isValidEntry entry) eqn:Hv; [|assumption].
  constructor; [|assumption].
  destruct (parseLine_fields _ _ Hp) as (H1 & _ & _ & H4). auto.
Qed.

(** X21. Every entry that [Parse] returns passed [isValidEntry], so
    that its MAC text passes [wol.ValidateMAC], and has an IP text and
    a device name that are not empty, because [strings.Fields] yields no
    empty field.  Hence [GetLocalEntries] returns the entries of
    [Parse] whose device is not "lo": its test for an empty device name
    never removes an entry. *)
Theorem GetLocalEntries_entries (entries : list arp.Entry) :
  arp.Parse = inr entries ->
  Forall (fun e => arp.isValidEntry e = true /\ ValidateMAC (arp.MAC e) = None /\
                   arp.IP e <> [] /\ arp.Device e <> []) entries /\
  arp.GetLocalEntries =
    inr (filter (fun e => negb (string_eqb (arp.Device e) (str "lo"))) entries) /\
  (forall local, arp.GetLocalEntries = inr local ->
     Forall (fun e => arp.Device e <> str "lo" /\ In e entries) local).
Proof.
  intros Hp.
  assert (Hall : Forall (fun e => arp.isValidEntry e = true /\ arp.IP e <> [] /\
                                  arp.Device e <> []) entries).
  { unfold arp.Parse, arp.ParsePath in Hp.
    destruct (arp.scan arp.DefaultARPPath) as [err|[lines [err|]]]; try discriminate.
    injection Hp as <-. apply ParsePath_loop_entries. }
  assert (Hlocal : arp.GetLocalEntries =
            inr (filter (fun e => negb (string_eqb (arp.Device e) (str "lo"))) entries)).
  { unfold arp.GetLocalEntries. rewrite Hp. f_equal.
    apply filter_ext_in. intros e He. rewrite Forall_forall in Hall.
    destruct (Hall e He) as (_ & _ & Hdev).
    destruct (string_eqb (arp.Device e) (str "lo")); [reflexivity|].
    change (str "") with (@nil ascii). rewrite string_eqb_nil.
    destruct (arp.Device e); [contradiction|reflexivity]. }
  split; [|split; [exact Hlocal|]].
  - eapply Forall_impl; [|exact Hall]. intros e (Hv & Hi & Hdev).
    split; [assumption|]. split; [|auto].
    apply isValidEntry_cases in Hv. destruct Hv as [(d & Hd & E & _) _].
    rewrite ValidateMAC_normalized. pose proof (parseMAC_normalized (arp.MAC e)) as Hn.
    rewrite E, (parseMAC_of_colon_form d Hd) in Hn. rewrite E.
    destruct (colon_shape (normalized (colon_form d))); [reflexivity|discriminate].
  - intros local Hl. rewrite Hlocal in Hl. injection Hl as <-.
    apply Forall_forall. intros e He. apply filter_In in He. destruct He as [Hin Hlo].
    split; [|assumption]. intros Elo. apply negb_true_iff in Hlo.
    assert (Ht : string_eqb (arp.Device e) (str "lo") = true) by now apply string_eqb_eq.
    change (str "lo") with ["l"%char; "o"%char] in Ht. congruence.
Qed.
End Entries.

Lemma GetLocalEntries_entries_witness :
  arp.GetLocalEntries (H := sample_table) (H0 := sample_unicode) =
    inr [{| arp.IP := str "192.168.1.10"; arp.MAC := str "aa:bb:cc:dd:ee:ff";
            arp.Device := str "eth0"; arp.Flags := str "0x2" |}].
Proof.
  apply (proj1 (proj2 (@GetLocalEntries_entries sample_table sample_unicode
    [{| arp.IP := str "192.168.1.10"; arp.MAC := str "aa:bb:cc:dd:ee:ff";
        arp.Device := str "eth0"; arp.Flags := str "0x2" |};
     {| arp.IP := str "127.0.0.1"; arp.MAC := str "00:11:22:33:44:66";
        arp.Device := str "lo"; arp.Flags := str "0x2" |}] eq_refl))).
Defined.

(** ** The columns of a line *)

Lemma plain_facts (c : byte) :
  plain c = true -> is_ascii c = true /\ strings.asciiSpace c = false.
Proof. by_byte c. Qed.

Lemma Fields_ascii_column (t rest cur : gostring) :
  forallb plain t = true ->
  strings2.Fields_ascii (t ++ rest) cur = strings2.Fields_ascii rest (cur ++ t).
Proof.
  revert cur. induction t as [|c t IH]; intros cur H.
  - cbn [app]. now rewrite app_nil_r.
  - cbn [forallb] in H. apply andb_prop in H. destruct H as [Hc Ht].
    destruct (plain_facts c Hc) as [_ Hs].
    cbn [app strings2.Fields_ascii]. rewrite Hs, (IH _ Ht), <- app_assoc. reflexivity.
Qed.

Lemma Fields_ascii_blank (b rest cur : gostring) :
  blank b ->
  strings2.Fields_ascii (b ++ rest) cur
  = match cur with [] => [] | _ :: _ => [cur] end ++ strings2.Fields_ascii rest [].
Proof.
  intros [Hne Hb]. destruct b as [|c b]; [contradiction|]. clear Hne.
  cbn [forallb] in Hb. apply andb_prop in Hb. destruct Hb as [Hc Hb].
  apply andb_prop in Hc. destruct Hc as [_ Hc].
  cbn [app strings2.Fields_ascii]. rewrite Hc. f_equal.
  induction b as [|d b IH]; [reflexivity|].
  cbn [forallb] in Hb. apply andb_prop in Hb. destruct Hb as [Hd Hb].
  apply andb_prop in Hd. destruct Hd as [_ Hd].
  cbn [app strings2.Fields_ascii]. rewrite Hd. cbn [app]. now apply IH.
Qed.

Lemma Fields_ascii_next (t b rest : gostring) :
  column t -> blank b ->
  strings2.Fields_ascii (t ++ b ++ rest) [] = t :: strings2.Fields_ascii rest [].
Proof.
  intros [Hne Ht] Hb. rewrite (Fields_ascii_column t _ [] Ht). cbn [app].
  rewrite (Fields_ascii_blank b rest t Hb). now destruct t.
Qed.

Lemma ascii_no_high (s : gostring) :
  forallb is_ascii s = true ->
  existsb (fun c => (byte_val c >=? utf8.RuneSelf)%Z) s = false.
Proof.
  induction s as [|c s IH]; [reflexivity|]. cbn [forallb existsb]. intros H.
  apply andb_prop in H. destruct H as [Hc Hs]. rewrite (IH Hs), orb_false_r.
  rewrite is_ascii_geb, Hc. reflexivity.
Qed.

Lemma column_ascii (t : gostring) : column t -> forallb is_ascii t = true.
Proof.
  intros [_ H]. apply forallb_forall. intros c Hc. rewrite forallb_forall in H.
  now destruct (plain_facts c (H c Hc)).
Qed.

Lemma blank_ascii (b : gostring) : blank b -> forallb is_ascii b = true.
Proof.
  intros [_ H]. apply forallb_forall. intros c Hc. rewrite forallb_forall in H.
  specialize (H c Hc). apply andb_prop in H. tauto.
Qed.

(** X22. Of a line of ASCII whose first six columns are separated by
    white space, [parseLine] takes the first column as the IP text, the
    third as the flags, the fourth as the MAC text and the sixth as the
    device name, whatever the second and the fifth column and whatever
    follows the sixth after white space; a line with fewer than six
    fields is refused with the line in the error. *)
Theorem parseLine_columns (ip hw flags mac mask dev b0 b1 b2 b3 b4 rest : gostring) :
  column ip -> column hw -> column flags -> column mac -> column mask -> column dev ->
  blank b0 -> blank b1 -> blank b2 -> blank b3 -> blank b4 ->
  rest = [] \/ (exists b5 more, rest = b5 ++ more /\ blank b5 /\ forallb is_ascii more = true) ->
  arp.parseLine
    (ip ++ b0 ++ hw ++ b1 ++ flags ++ b2 ++ mac ++ b3 ++ mask ++ b4 ++ dev ++ rest)
  = inr {| arp.IP := ip; arp.MAC := mac; arp.Device := dev; arp.Flags := flags |} /\
  (forall line, (length (strings2.Fields line) < 6)%nat ->
     arp.parseLine line = inl (arp.InvalidEntryFormat line)).
Proof.
  intros Hip Hhw Hfl Hmac Hmask Hdev H0 H1 H2 H3 H4 Hrest. split.
  - assert (Hascii : forallb is_ascii
              (ip ++ b0 ++ hw ++ b1 ++ flags ++ b2 ++ mac ++ b3 ++ mask ++ b4 ++ dev ++ rest)
              = true).
    { rewrite !forallb_app.
      rewrite (column_ascii ip Hip), (column_ascii hw Hhw), (column_ascii flags Hfl),
        (column_ascii mac Hmac), (column_ascii mask Hmask), (column_ascii dev Hdev),
        (blank_ascii b0 H0), (blank_ascii b1 H1), (blank_ascii b2 H2),
        (blank_ascii b3 H3), (blank_ascii b4 H4). cbn [andb].
      destruct Hrest as [->|(b5 & more & -> & H5 & Hm)]; [reflexivity|].
      now rewrite forallb_app, (blank_ascii b5 H5), Hm. }
    unfold arp.parseLine, strings2.Fields. rewrite (ascii_no_high _ Hascii).
    do 5 (rewrite Fields_ascii_next by assumption).
    assert (Hlast : exists more, strings2.Fields_ascii (dev ++ rest) [] = dev :: more).
    { destruct Hrest as [->|(b5 & more & -> & H5 & Hm)].
      - destruct Hdev as [Hne Hd]. rewrite (Fields_ascii_column dev [] [] Hd).
        cbn [app strings2.Fields_ascii]. destruct dev; [contradiction|]. eauto.
      - rewrite Fields_ascii_next by assumption. eauto. }
    destruct Hlast as [more ->]. reflexivity.
  - intros line Hl. unfold arp.parseLine.
    apply Nat.ltb_lt in Hl. now rewrite Hl.
Qed.

Lemma parseLine_columns_witness :
  arp.parseLine
    (str "192.168.1.10" ++ str "     " ++ str "0x1" ++ str "         " ++ str "0x2" ++
     str "         " ++ str "aa:bb:cc:dd:ee:ff" ++ str "     " ++ str "*" ++
     str "        " ++ str "eth0" ++ [])
  = inr {| arp.IP := str "192.168.1.10"; arp.MAC := str "aa:bb:cc:dd:ee:ff";
           arp.Device := str "eth0"; arp.Flags := str "0x2" |}.
Proof.
  apply (proj1 (parseLine_columns (str "192.168.1.10") (str "0x1") (str "0x2")
           (str "aa:bb:cc:dd:ee:ff") (str "*") (str "eth0")
           (str "     ") (str "         ") (str "         ") (str "     ") (str "        ") []
           ltac:(split; [discriminate|reflexivity]) ltac:(split; [discriminate|reflexivity])
           ltac:(split; [discriminate|reflexivity]) ltac:(split; [discriminate|reflexivity])
           ltac:(split; [discriminate|reflexivity]) ltac:(split; [discriminate|reflexivity])
           ltac:(split; [discriminate|reflexivity]) ltac:(split; [discriminate|reflexivity])
           ltac:(split; [discriminate|reflexivity]) ltac:(split; [discriminate|reflexivity])
           ltac:(split; [discriminate|reflexivity]) (or_introl eq_refl))).
Defined.

(** ** [FindByMAC] *)

Lemma to_lower_facts (c : byte) :
  is_ascii (to_lower c) = is_ascii c /\ is_sep3 (to_lower c) = is_sep3 c /\
  to_lower (to_lower c) = to_lower c.
Proof. by_byte c. Qed.

Lemma to_lower_hex (c : byte) :
  is_hex_digit c = true ->
  to_lower c = lower_hex (digit_value c) /\ digit_value (to_lower c) = digit_value c /\
  is_sep3 c = false /\ is_ascii c = true.
Proof. by_byte c. Qed.

Lemma sep_is_sep3 (c : byte) : is_sep c = true -> is_sep3 c = true /\ is_ascii c = true.
Proof. by_byte c. Qed.

Lemma dot_is_sep3 (c : byte) : byte_eqb "." c = true -> is_sep3 c = true /\ is_ascii c = true.
Proof. by_byte c. Qed.

Lemma is_sep3_split (c : byte) :
  is_sep3 c = byte_eqb ":" c || byte_eqb "-" c || byte_eqb "." c.
Proof. reflexivity. Qed.

Section Lower.
Context `{U : strings2.Unicode}.

Lemma ToLower_ascii (s : gostring) :
  forallb is_ascii s = true -> strings2.ToLower s = map to_lower s.
Proof.
  intros Ha. unfold strings2.ToLower.
  change (forallb (fun c => (byte_val c <? utf8.RuneSelf)%Z) s) with (forallb is_ascii s).
  rewrite Ha.
  destruct (existsb (fun c => (65 <=? byte_val c)%Z && (byte_val c <=? 90)%Z) s) eqn:Hu;
    cbn [negb].
  - apply map_ext. intros c. unfold to_lower.
    destruct ((65 <=? byte_val c)%Z && (byte_val c <=? 90)%Z); reflexivity.
  - symmetry. rewrite <- (map_id s) at 2. apply map_ext_in. intros c Hc.
    unfold to_lower.
    destruct ((65 <=? byte_val c)%Z && (byte_val c <=? 90)%Z) eqn:E; [|reflexivity].
    assert (existsb (fun c => (65 <=? byte_val c)%Z && (byte_val c <=? 90)%Z) s = true).
    { apply existsb_exists. eauto. }
    congruence.
Qed.

Lemma ascii_filter (p : byte -> bool) (s : gostring) :
  forallb is_ascii s = true -> forallb is_ascii (filter p s) = true.
Proof.
  intros H. apply forallb_forall. intros c Hc. apply filter_In in Hc.
  rewrite forallb_forall in H. now apply H.
Qed.

Lemma ascii_lower (s : gostring) :
  forallb is_ascii s = true -> forallb is_ascii (map to_lower s) = true.
Proof.
  intros H. apply forallb_forall. intros c Hc. apply in_map_iff in Hc.
  destruct Hc as (x & <- & Hx). rewrite forallb_forall in H.
  destruct (to_lower_facts x) as (-> & _). now apply H.
Qed.

Lemma filter_lower (p : byte -> bool) (s : gostring) :
  (forall c, p (to_lower c) = p c) ->
  filter p (map to_lower s) = map to_lower (filter p s).
Proof.
  intros Hp. induction s as [|c s IH]; [reflexivity|].
  cbn [map filter]. rewrite Hp, IH. now destruct (p c).
Qed.

Lemma lower_lower (s : gostring) : map to_lower (map to_lower s) = map to_lower s.
Proof.
  rewrite map_map. apply map_ext. intros c. now destruct (to_lower_facts c) as (_ & _ & ->).
Qed.

Lemma filter_filter {A} (p q : A -> bool) (l : list A) :
  filter p (filter q l) = filter (fun x => q x && p x) l.
Proof.
  induction l as [|x l IH]; [reflexivity|].
  cbn [filter]. destruct (q x); cbn [filter andb]; rewrite IH; reflexivity.
Qed.

(** The text that [FindByMAC] compares with the entries. *)
Lemma search_text_ascii (mac : gostring) :
  forallb is_ascii mac = true ->
  strings2.ToLower
    (strings.ReplaceAll
       (strings2.ToLower
          (strings.ReplaceAll
             (strings2.ToLower (strings.ReplaceAll mac (str ":") (str "")))
             (str "-") (str "")))
       (str ".") (str ""))
  = map to_lower (filter (fun c => negb (is_sep3 c)) mac).
Proof.
  intros Ha.
  change (str ":") with [":"%char]. change (str "-") with ["-"%char].
  change (str ".") with ["."%char]. change (str "") with (@nil ascii).
  rewrite !ReplaceAll_delete.
  set (s1 := filter (fun c => negb (byte_eqb ":" c)) mac).
  assert (A1 : forallb is_ascii s1 = true) by now apply ascii_filter.
  rewrite (ToLower_ascii s1 A1).
  rewrite filter_lower by (intros c; by_byte c).
  set (s2 := filter (fun c => negb (byte_eqb "-" c)) s1).
  assert (A2 : forallb is_ascii s2 = true) by now apply ascii_filter.
  rewrite (ToLower_ascii (map to_lower s2) (ascii_lower s2 A2)), lower_lower.
  rewrite filter_lower by (intros c; by_byte c).
  set (s3 := filter (fun c => negb (byte_eqb "." c)) s2).
  assert (A3 : forallb is_ascii s3 = true) by now apply ascii_filter.
  rewrite (ToLower_ascii (map to_lower s3) (ascii_lower s3 A3)), lower_lower.
  f_equal. unfold s3, s2, s1.
  rewrite !filter_filter. apply filter_ext. intros c. unfold is_sep3.
  destruct (byte_eqb ":" c), (byte_eqb "-" c), (byte_eqb "." c); reflexivity.
Qed.
End Lower.

Lemma digits_in_all_hex (s : gostring) :
  forallb is_hex_digit s = true -> digits_in s = s.
Proof.
  induction s as [|c s IH]; [reflexivity|]. cbn [forallb]. intros H.
  apply andb_prop in H. destruct H as [Hc Hs].
  rewrite digits_in_hex by assumption. now rewrite IH.
Qed.

Lemma six_pairs_chars (q : gostring) :
  six_pairs q = true -> forallb (fun c => is_hex_digit c || is_sep c) q = true.
Proof.
  do 18 (destruct q as [|? q]; try discriminate).
  cbn [six_pairs forallb]. intros H. split_andb.
  repeat match goal with
  | H : is_hex_digit _ = true |- _ => rewrite H; clear H
  | H : is_sep _ = true |- _ => rewrite H; clear H
  end.
  rewrite ?orb_true_r. reflexivity.
Qed.

(** The digits of a text that parses, once it is trimmed: what is left
    when the three separators are taken out. *)
Lemma parsed_digits (q : gostring) (b : list byte) :
  parseMAC q = inr b -> trimmed q ->
  exists d, hex_digits d /\ b = octets (map digit_value d) /\
            forallb is_ascii q = true /\
            filter (fun c => negb (is_sep3 c)) q = d.
Proof.
  intros Hp Ht.
  destruct (parseMAC_cases q) as [(Hs & Hd & E & Hp')|(_ & Hp')];
    rewrite Hp in Hp'; [|discriminate].
  injection Hp' as ->.
  exists (digits_in (normalized q)). split; [assumption|]. split; [reflexivity|].
  clear Hp E Hd. revert Hs. unfold normalized. rewrite Ht.
  change (str ".") with ["."%char]. change (str "") with (@nil ascii).
  rewrite Contains_single.
  destruct (existsb (byte_eqb ".") q) eqn:Hdot.
  - rewrite colon_shape_insertColons, ReplaceAll_delete. intros Hs.
    apply andb_prop in Hs. destruct Hs as [_ Hh].
    assert (Hq : forall c, In c q -> byte_eqb "." c = true \/ is_hex_digit c = true).
    { intros c Hc. destruct (byte_eqb "." c) eqn:Ec; [now left|right].
      rewrite forallb_forall in Hh. apply Hh. apply filter_In. now rewrite Ec. }
    split.
    + apply forallb_forall. intros c Hc. destruct (Hq c Hc) as [H|H].
      * now apply dot_is_sep3.
      * now apply to_lower_hex.
    + rewrite insertColons_ascii.
      2:{ apply forallb_forall. intros c Hc. rewrite forallb_forall in Hh.
          apply hex_is_ascii. now apply Hh. }
      rewrite digits_in_colons_from, digits_in_all_hex by assumption.
      apply filter_ext_in. intros c Hc. destruct (Hq c Hc) as [H|H].
      * rewrite H. now destruct (dot_is_sep3 c H) as [-> _].
      * destruct (to_lower_hex c H) as (_ & _ & -> & _). now rewrite hex_not_dot.
  - rewrite colon_shape_dashes. intros Hs. apply six_pairs_chars in Hs.
    change (str "-") with ["-"%char]. change (str ":") with [":"%char].
    rewrite ReplaceAll_subst. split.
    + apply forallb_forall. intros c Hc. rewrite forallb_forall in Hs.
      specialize (Hs c Hc). apply orb_prop in Hs. destruct Hs as [H|H].
      * now apply to_lower_hex.
      * now apply sep_is_sep3.
    + clear Hdot Ht. induction q as [|c q IH]; [reflexivity|].
      cbn [forallb] in Hs. apply andb_prop in Hs. destruct Hs as [Hc Hs].
      cbn [map filter]. fold (digits_in (map (fun c => if byte_eqb "-" c then ":"%char else c) q)).
      unfold digits_in at 1. cbn [filter]. fold (digits_in (map (fun c => if byte_eqb "-" c then ":"%char else c) q)).
      rewrite <- (IH Hs). apply orb_prop in Hc. destruct Hc as [H|H].
      * destruct (to_lower_hex c H) as (_ & _ & -> & _).
        rewrite (hex_not_dash c H), (hex_not_colon c H). reflexivity.
      * destruct (sep_is_sep3 c H) as [-> _]. rewrite dash_to_colon_sep, H. reflexivity.
Qed.

Lemma octets_injective (d1 d2 : gostring) :
  hex_digits d1 -> hex_digits d2 ->
  octets (map digit_value d1) = octets (map digit_value d2) ->
  map digit_value d1 = map digit_value d2.
Proof.
  intros H1 H2.
  destruct (hex_digits_inv d1 H1) as (a1&a2&b1&b2&c1&c2&d1'&d2'&e1&e2&f1&f2&->&Ha).
  destruct (hex_digits_inv d2 H2) as (p1&p2&q1&q2&r1&r2&s1&s2&t1&t2&u1&u2&->&Hb).
  cbn [forallb] in Ha, Hb. split_andb.
  repeat match goal with
  | H : is_hex_digit ?c = true |- _ => apply digit_value_range in H
  end.
  cbn [map octets].
  repeat match goal with
  | |- context [byte_of ?z] =>
    lazymatch z with
    | (_ + _)%Z => let x := fresh "x" in remember z as x
    end
  end.
  intros E. injection E as E1 E2 E3 E4 E5 E6.
  apply (f_equal byte_val) in E1, E2, E3, E4, E5, E6.
  rewrite !byte_val_of in E1, E2, E3, E4, E5, E6.
  subst. rewrite !Z.mod_small in E1, E2, E3, E4, E5, E6 by lia.
  assert (digit_value a1 = digit_value p1 /\ digit_value a2 = digit_value p2) as [-> ->] by lia.
  assert (digit_value b1 = digit_value q1 /\ digit_value b2 = digit_value q2) as [-> ->] by lia.
  assert (digit_value c1 = digit_value r1 /\ digit_value c2 = digit_value r2) as [-> ->] by lia.
  assert (digit_value d1' = digit_value s1 /\ digit_value d2' = digit_value s2) as [-> ->] by lia.
  assert (digit_value e1 = digit_value t1 /\ digit_value e2 = digit_value t2) as [-> ->] by lia.
  assert (digit_value f1 = digit_value u1 /\ digit_value f2 = digit_value u2) as [-> ->] by lia.
  reflexivity.
Qed.

Lemma lower_digits_eq (d1 d2 : gostring) :
  hex_digits d1 -> hex_digits d2 ->
  (map to_lower d1 = map to_lower d2 <->
   octets (map digit_value d1) = octets (map digit_value d2)).
Proof.
  intros H1 H2.
  assert (Hv : forall d, hex_digits d ->
             map to_lower d = map lower_hex (map digit_value d) /\
             map digit_value (map to_lower d) = map digit_value d).
  { intros d [_ Hf]. rewrite !map_map. split; apply map_ext_in; intros c Hc;
      rewrite Forall_forall in Hf; now destruct (to_lower_hex c (Hf c Hc)) as (? & ? & _). }
  destruct (Hv d1 H1) as [L1 V1]. destruct (Hv d2 H2) as [L2 V2]. split.
  - intros E. rewrite <- V1, <- V2, E. reflexivity.
  - intros E. rewrite L1, L2. f_equal. now apply octets_injective.
Qed.

Section Find.
Context `{T : arp.Table} `{U : strings2.Unicode}.

(** X23. For a text that [parseMAC] accepts and that has no white space
    around it, whatever its notation and letter case, [FindByMAC]
    returns exactly the entries of [Parse] whose MAC text parses to the
    same six bytes, in the order of the table. *)
Theorem FindByMAC_matches (mac : gostring) (b : list byte) (entries : list arp.Entry) :
  parseMAC mac = inr b -> trimmed mac -> arp.Parse = inr entries ->
  arp.FindByMAC mac = inr (filter (fun e => parses_to b (arp.MAC e)) entries).
Proof.
  intros Hp Ht Hparse.
  destruct (parsed_digits mac b Hp Ht) as (d & Hd & -> & Ha & Hf).
  unfold arp.FindByMAC. rewrite Hparse. cbv zeta.
  rewrite (search_text_ascii mac Ha), Hf. f_equal.
  assert (Hall : Forall (fun e => arp.isValidEntry e = true /\ arp.IP e <> [] /\
                                  arp.Device e <> []) entries).
  { unfold arp.Parse, arp.ParsePath in Hparse.
    destruct (arp.scan arp.DefaultARPPath) as [err|[lines [err|]]]; try discriminate.
    injection Hparse as <-. apply ParsePath_loop_entries. }
  apply filter_ext_in. intros e He. rewrite Forall_forall in Hall.
  destruct (Hall e He) as (Hv & _). apply isValidEntry_cases in Hv.
  destruct Hv as [(de & Hde & E & _) _].
  unfold parses_to. rewrite E, (parseMAC_of_colon_form de Hde).
  change (str ":") with [":"%char]. change (str "") with (@nil ascii).
  rewrite ReplaceAll_delete. fold (digits_in (colon_form de)).
  destruct (colon_form_shape de Hde) as [Hshape ->].
  rewrite ToLower_ascii.
  2:{ destruct Hde as [_ Hf']. apply forallb_forall. intros c Hc.
      rewrite Forall_forall in Hf'. apply hex_is_ascii. now apply Hf'. }
  pose proof (lower_digits_eq de d Hde Hd) as Hiff.
  unfold string_eqb, net.bytes_eqb.
  destruct (list_eq_dec ascii_dec (map to_lower de) (map to_lower d)) as [E1|E1],
           (list_eq_dec ascii_dec (octets (map digit_value de))
              (octets (map digit_value d))) as [E2|E2]; try reflexivity; tauto.
Qed.
End Find.

Lemma FindByMAC_matches_witness :
  arp.FindByMAC (H := sample_table) (H0 := sample_unicode) (str "AABB.CCDD.EEFF") =
    inr [{| arp.IP := str "192.168.1.10"; arp.MAC := str "aa:bb:cc:dd:ee:ff";
            arp.Device := str "eth0"; arp.Flags := str "0x2" |}].
Proof.
  apply (@FindByMAC_matches sample_table sample_unicode (str "AABB.CCDD.EEFF")
           (map byte_of [170; 187; 204; 221; 238; 255]%Z)
           [{| arp.IP := str "192.168.1.10"; arp.MAC := str "aa:bb:cc:dd:ee:ff";
               arp.Device := str "eth0"; arp.Flags := str "0x2" |};
            {| arp.IP := str "127.0.0.1"; arp.MAC := str "00:11:22:33:44:66";
               arp.Device := str "lo"; arp.Flags := str "0x2" |}]
           eq_refl eq_refl eq_refl).
Defined.
